(** * SAT encodings of Sudoku and Sokoban: a shallow embedding of
      [q1.py] (solve_sudoku) and [q2.py] (SokobanEncoder, decode,
      solve_sokoban), with the properties of their specification. *)

From Stdlib Require Import ZArith List Bool Lia String Ascii FinFun.
Import ListNotations.
Open Scope Z_scope.

(** ** The Python fragment the two files use *)

Module Py.

(** The built-in exceptions the two programs can raise. *)
Inductive exn : Type := IndexError | TypeError | ValueError.

Inductive outcome (A : Type) : Type :=
| Ok (a : A)
| Raise (e : exn).
Arguments Ok {A} a.
Arguments Raise {A} e.

Definition bind {A B : Type} (x : outcome A) (f : A -> outcome B) : outcome B :=
  match x with
  | Ok a => f a
  | Raise e => Raise e
  end.

(** [len l]. *)
Definition len {A : Type} (l : list A) : Z := Z.of_nat (List.length l).

(** [range(lo, hi)]: empty when [hi <= lo]. *)
Definition range (lo hi : Z) : list Z :=
  map (fun i => lo + Z.of_nat i) (seq 0 (Z.to_nat (hi - lo))).

(** [range(lo, hi, step)] for the steps the code can pass: a zero step
    raises ValueError, a positive one enumerates [lo, lo+step, ...]. *)
Definition range_step (lo hi step : Z) : outcome (list Z) :=
  if step =? 0 then Raise ValueError
  else if step <? 0 then Ok (map (fun i => lo + step * Z.of_nat i)
                                 (seq 0 (Z.to_nat ((lo - hi + (- step) - 1) / (- step)))))
  else Ok (map (fun i => lo + step * Z.of_nat i)
               (seq 0 (Z.to_nat ((hi - lo + step - 1) / step)))).

(** [l[i]]: a negative index counts from the end, an index outside the
    list raises IndexError. *)
Definition get {A : Type} (l : list A) (i : Z) : outcome A :=
  let j := if i <? 0 then i + len l else i in
  if (0 <=? j) && (j <? len l) then
    match nth_error l (Z.to_nat j) with
    | Some a => Ok a
    | None => Raise IndexError
    end
  else Raise IndexError.

(** [x in l] on integers. *)
Definition mem (x : Z) (l : list Z) : bool := existsb (Z.eqb x) l.

End Py.
Import Py.

Notation "x <- c1 ;; c2" := (Py.bind c1 (fun x => c2))
  (at level 61, c1 at next level, right associativity).

(** ** Clause sets and the models a PySAT solver returns *)

Module Sat.

(** A clause is a list of non-zero integer literals, a formula a list of
    clauses (PySAT's [CNF.clauses]). *)
Definition clause : Type := list Z.
Definition CNF : Type := list clause.

(** A model is the list of literals [get_model()] returns: [v] when the
    variable [v] is true, [-v] when it is false. *)
Definition model : Type := list Z.

Definition clause_sat (m : model) (c : clause) : bool :=
  existsb (fun l => mem l m) c.

Definition cnf_sat (m : model) (f : CNF) : bool := forallb (clause_sat m) f.

(** No literal occurs together with its negation (so [0] does not occur). *)
Definition consistent (m : model) : bool :=
  forallb (fun l => negb (mem (- l) m)) m.

Definition is_model (m : model) (f : CNF) : bool := consistent m && cnf_sat m f.

(** The shape of [get_model()]: one literal per variable [1..nv], in order. *)
Definition total_over (nv : Z) (m : model) : bool :=
  if list_eq_dec Z.eq_dec (map Z.abs m) (range 1 (nv + 1)) then true else false.

(** The model over [1..nv] whose true variables are [trues]. *)
Definition model_of (nv : Z) (trues : list Z) : model :=
  map (fun v => if mem v trues then v else - v) (range 1 (nv + 1)).

(** A solver is sound when every model it returns satisfies the formula. *)
Definition sound (solver : CNF -> option model) : Prop :=
  forall f m, solver f = Some m -> is_model m f = true.

(** [c in f] on clauses, as a computation. *)
Definition has_clause (c : clause) (f : CNF) : bool :=
  existsb (fun c' => if list_eq_dec Z.eq_dec c c' then true else false) f.

(** What [model_of nv trues] says about a literal. *)
Definition holds (nv : Z) (trues : list Z) (l : Z) : bool :=
  if 0 <? l then (l <=? nv) && mem l trues
  else if l <? 0 then (- l <=? nv) && negb (mem (- l) trues)
  else false.

(** The solver that proposes one fixed assignment and answers with it
    exactly when it is a model of the formula. *)
Definition proposing (m : model) : CNF -> option model :=
  fun f => if is_model m f then Some m else None.

End Sat.
Import Sat.

(** ** q2.py: the Sokoban encoder *)

Module Sokoban.

Definition pos : Type := (Z * Z)%type.

Definition pos_eqb (p q : pos) : bool :=
  (fst p =? fst q) && (snd p =? snd q).

(** [p in l] on coordinate pairs. *)
Definition pos_in (p : pos) (l : list pos) : bool := existsb (pos_eqb p) l.

(** [DIRS], in the insertion order [DIRS.values()] iterates. *)
Definition DIRS : list (string * pos) :=
  [("U"%string, (-1, 0)); ("D"%string, (1, 0));
   ("L"%string, (0, -1)); ("R"%string, (0, 1))].

Definition DIRS_values : list pos := map snd DIRS.

(** The attributes of a [SokobanEncoder] object. [player_start] is
    [None] until a 'P' cell is seen; [cnf] is the clause accumulator. *)
Record SokobanEncoder : Type := mkEncoder {
  grid : list (list string);
  T : Z;
  N : Z;
  M : Z;
  goals : list pos;
  boxes : list pos;
  walls : list pos;
  player_start : option pos;
  num_boxes : Z;
  cnf : CNF
}.

(** The four lists [_parse_grid] fills, threaded through its loops. *)
Record parsed : Type := mkParsed {
  p_goals : list pos;
  p_boxes : list pos;
  p_walls : list pos;
  p_player : option pos
}.

Definition parse_cell (i j : Z) (cell : string) (st : parsed) : parsed :=
  if String.eqb cell "G" then
    mkParsed (p_goals st ++ [(i, j)]) (p_boxes st) (p_walls st) (p_player st)
  else if String.eqb cell "B" then
    mkParsed (p_goals st) (p_boxes st ++ [(i, j)]) (p_walls st) (p_player st)
  else if String.eqb cell "P" then
    mkParsed (p_goals st) (p_boxes st) (p_walls st) (Some (i, j))
  else if String.eqb cell "#" then
    mkParsed (p_goals st) (p_boxes st) (p_walls st ++ [(i, j)]) (p_player st)
  else st.

(** The inner loop: [for j in range(self.M)] on row [i]. *)
Fixpoint parse_row (g : list (list string)) (i : Z) (js : list Z) (st : parsed)
  : outcome parsed :=
  match js with
  | [] => Ok st
  | j :: js' =>
      row <- get g i ;;
      cell <- get row j ;;
      parse_row g i js' (parse_cell i j cell st)
  end.

(** The outer loop: [for i in range(self.N)]. *)
Fixpoint parse_rows (g : list (list string)) (rs : list Z) (m : Z) (st : parsed)
  : outcome parsed :=
  match rs with
  | [] => Ok st
  | i :: rs' =>
      st' <- parse_row g i (range 0 m) st ;;
      parse_rows g rs' m st'
  end.

Definition _parse_grid (g : list (list string)) (n m : Z) : outcome parsed :=
  parse_rows g (range 0 n) m (mkParsed [] [] [] None).

(** [SokobanEncoder.__init__(grid, T)]. *)
Definition init (g : list (list string)) (horizon : Z) : outcome SokobanEncoder :=
  let n := len g in
  row0 <- get g 0 ;;
  let m := len row0 in
  st <- _parse_grid g n m ;;
  Ok (mkEncoder g horizon n m (p_goals st) (p_boxes st) (p_walls st)
                (p_player st) (len (p_boxes st)) []).

Definition var_player (x y t : Z) : Z := 1 + 1000 * x + 100 * y + t.

Definition var_box (b x y t : Z) : Z := 10000 * (b + 1) + 1000 * x + 100 * y + t.

(** [l[i]] for an index the enclosing [range] keeps inside the list. *)
Definition item (l : list pos) (i : Z) : pos := nth (Z.to_nat i) l (0, 0).

(** The wall-free cells, row by row. *)
Definition valid_positions (e : SokobanEncoder) : list pos :=
  flat_map (fun i =>
    flat_map (fun j => if negb (pos_in (i, j) (walls e)) then [(i, j)] else [])
             (range 0 (M e)))
    (range 0 (N e)).

(** *** The clause families of [encode], in the order they are appended *)

Section Families.
Variable vp : list pos.       (* valid_positions *)
Variable nb : Z.              (* self.num_boxes *)
Variable horizon : Z.         (* self.T *)

Definition initial_player (ps : pos) : CNF :=
  [[var_player (fst ps) (snd ps) 0]].

Definition initial_boxes (bxs : list pos) : CNF :=
  map (fun b => [var_box b (fst (item bxs b)) (snd (item bxs b)) 0]) (range 0 nb).

Definition player_somewhere : CNF :=
  map (fun t => map (fun '(x, y) => var_player x y t) vp) (range 0 (horizon + 1)).

Definition player_at_most_one : CNF :=
  flat_map (fun t =>
    flat_map (fun i =>
      map (fun j =>
             let p1 := item vp i in
             let p2 := item vp j in
             [- var_player (fst p1) (snd p1) t; - var_player (fst p2) (snd p2) t])
          (range (i + 1) (len vp)))
      (range 0 (len vp)))
    (range 0 (horizon + 1)).

Definition box_somewhere : CNF :=
  flat_map (fun t =>
    map (fun b => map (fun '(x, y) => var_box b x y t) vp) (range 0 nb))
    (range 0 (horizon + 1)).

Definition box_at_most_one : CNF :=
  flat_map (fun t =>
    flat_map (fun b =>
      flat_map (fun i =>
        map (fun j =>
               let p1 := item vp i in
               let p2 := item vp j in
               [- var_box b (fst p1) (snd p1) t; - var_box b (fst p2) (snd p2) t])
            (range (i + 1) (len vp)))
        (range 0 (len vp)))
      (range 0 nb))
    (range 0 (horizon + 1)).

Definition player_box_apart : CNF :=
  flat_map (fun t =>
    flat_map (fun '(x, y) =>
      map (fun b => [- var_player x y t; - var_box b x y t]) (range 0 nb))
      vp)
    (range 0 (horizon + 1)).

Definition boxes_apart : CNF :=
  flat_map (fun t =>
    flat_map (fun '(x, y) =>
      flat_map (fun b1 =>
        map (fun b2 => [- var_box b1 x y t; - var_box b2 x y t])
            (range (b1 + 1) nb))
        (range 0 (nb - 1)))
      vp)
    (range 0 (horizon + 1)).

Definition player_moves : CNF :=
  flat_map (fun t =>
    map (fun '(x, y) =>
           [- var_player x y t; var_player x y (t + 1)]
           ++ flat_map (fun '(dx, dy) =>
                          let npx := x + dx in
                          let npy := y + dy in
                          if pos_in (npx, npy) vp
                          then [var_player npx npy (t + 1)] else [])
                       DIRS_values)
        vp)
    (range 0 horizon).

Definition pushes : CNF :=
  flat_map (fun t =>
    flat_map (fun b =>
      flat_map (fun '(x, y) =>
        flat_map (fun '(dx, dy) =>
          let bx := x + dx in
          let by_ := y + dy in
          let bx2 := x + 2 * dx in
          let by2 := y + 2 * dy in
          if pos_in (bx, by_) vp && pos_in (bx2, by2) vp then
            let precond := [- var_player x y t; - var_box b bx by_ t] in
            let clause1 := [var_box b bx by_ (t + 1); var_player bx by_ (t + 1)] in
            let clause2 := [var_box b bx by_ (t + 1); var_box b bx2 by2 (t + 1)] in
            [precond ++ clause1; precond ++ clause2]
          else [])
          DIRS_values)
        vp)
      (range 0 nb))
    (range 0 horizon).

Definition box_stays : CNF :=
  flat_map (fun t =>
    flat_map (fun b =>
      map (fun '(x, y) =>
             [- var_box b x y t; var_box b x y (t + 1)]
             ++ flat_map (fun '(dx, dy) =>
                            let px := x - dx in
                            let py := y - dy in
                            let nx := x + dx in
                            let ny := y + dy in
                            if pos_in (px, py) vp && pos_in (nx, ny) vp
                            then [var_player px py t] else [])
                         DIRS_values)
          vp)
      (range 0 nb))
    (range 0 horizon).

Definition goal_condition (gs : list pos) : CNF :=
  map (fun b => map (fun '(gx, gy) => var_box b gx gy horizon) gs) (range 0 nb).

End Families.

(** [encode]: the accumulator [self.cnf] after the call, and how the call
    ended. Reading [self.player_start[0]] when no 'P' cell was parsed
    raises TypeError before the first [append]. *)
Definition encode (e : SokobanEncoder) : CNF * outcome unit :=
  let vp := valid_positions e in
  match player_start e with
  | None => (cnf e, Raise TypeError)
  | Some ps =>
      (cnf e
       ++ initial_player ps
       ++ initial_boxes (num_boxes e) (boxes e)
       ++ player_somewhere vp (T e)
       ++ player_at_most_one vp (T e)
       ++ box_somewhere vp (num_boxes e) (T e)
       ++ box_at_most_one vp (num_boxes e) (T e)
       ++ player_box_apart vp (num_boxes e) (T e)
       ++ boxes_apart vp (num_boxes e) (T e)
       ++ player_moves vp (T e)
       ++ pushes vp (num_boxes e) (T e)
       ++ box_stays vp (num_boxes e) (T e)
       ++ goal_condition (num_boxes e) (T e) (goals e),
       Ok tt)
  end.

(** The encoder object after a call of [encode]: [self.cnf] holds the
    clauses the call returned. *)
Definition after_encode (e : SokobanEncoder) : SokobanEncoder :=
  mkEncoder (grid e) (T e) (N e) (M e) (goals e) (boxes e) (walls e)
            (player_start e) (num_boxes e) (fst (encode e)).

(** *** decode *)

(** [for y in range(0, M)] with its [break]. *)
Fixpoint scan_row (m : model) (x t : Z) (ys : list Z) : option pos :=
  match ys with
  | [] => None
  | y :: ys' =>
      if mem (var_player x y t) m then Some (x, y) else scan_row m x t ys'
  end.

(** [for x in range(0, N)] with the [found] flag. *)
Fixpoint scan_rows (m : model) (t : Z) (xs : list Z) (cols : Z) : option pos :=
  match xs with
  | [] => None
  | x :: xs' =>
      match scan_row m x t (range 0 cols) with
      | Some p => Some p
      | None => scan_rows m t xs' cols
      end
  end.

(** The list [positions] after the first loop: a timestep with no true
    player variable appends nothing. *)
Definition extract_positions (m : model) (n cols horizon : Z) : list pos :=
  flat_map (fun t => match scan_rows m t (range 0 n) cols with
                     | Some p => [p]
                     | None => []
                     end)
           (range 0 (horizon + 1)).

Definition move_of (p q : pos) : list string :=
  let '(x, y) := p in
  let '(nx, ny) := q in
  if nx =? x - 1 then ["U"%string]
  else if nx =? x + 1 then ["D"%string]
  else if ny =? y - 1 then ["L"%string]
  else if ny =? y + 1 then ["R"%string]
  else [].

(** The second loop, [moves] threaded through. *)
Fixpoint moves_loop (positions : list pos) (ts : list Z) (moves : list string)
  : outcome (list string) :=
  match ts with
  | [] => Ok moves
  | t :: ts' =>
      p <- get positions t ;;
      q <- get positions (t + 1) ;;
      moves_loop positions ts' (moves ++ move_of p q)
  end.

Definition decode (m : model) (e : SokobanEncoder) : outcome (list string) :=
  moves_loop (extract_positions m (N e) (M e) (T e)) (range 0 (T e)) [].

(** The cells of the whole grid in scan order, and those whose player
    variable the model makes true at time [t]. *)
Definition grid_cells (n cols : Z) : list pos :=
  flat_map (fun x => map (fun y => (x, y)) (range 0 cols)) (range 0 n).

Definition true_cells (m : model) (e : SokobanEncoder) (t : Z) : list pos :=
  filter (fun p => mem (var_player (fst p) (snd p) t) m) (grid_cells (N e) (M e)).

Definition chosen (m : model) (e : SokobanEncoder) (t : Z) : pos :=
  hd (0, 0) (true_cells m e t).

(** *** solve_sokoban *)

(** What [solve_sokoban] returns: the integer [-1] or a list of moves. *)
Inductive pyval : Type :=
| PyInt (z : Z)
| PyList (l : list string).

Definition solve_sokoban (solver : CNF -> option model)
           (g : list (list string)) (horizon : Z) : outcome pyval :=
  e <- init g horizon ;;
  let '(f, r) := encode e in
  _ <- r ;;
  match solver f with
  | None => Ok (PyInt (-1))
  | Some [] => Ok (PyInt (-1))
  | Some m => moves <- decode m e ;; Ok (PyList moves)
  end.

(** *** Layouts as parsed *)

(** The character of the layout at a position, when there is one. *)
Definition cell_of (g : list (list string)) (p : pos) : option string :=
  match get g (fst p) with
  | Ok row => match get row (snd p) with
              | Ok c => Some c
              | Raise _ => None
              end
  | Raise _ => None
  end.

(** What the parser has collected so far agrees with the layout. *)
Definition parse_inv (g : list (list string)) (rows cols : Z) (st : parsed) : Prop :=
  (forall p, In p (p_goals st) ->
     cell_of g p = Some "G"%string /\ 0 <= fst p < rows /\ 0 <= snd p < cols) /\
  (forall p, In p (p_boxes st) ->
     cell_of g p = Some "B"%string /\ 0 <= fst p < rows /\ 0 <= snd p < cols) /\
  (forall p, In p (p_walls st) -> cell_of g p = Some "#"%string) /\
  (forall p, p_player st = Some p ->
     cell_of g p = Some "P"%string /\ 0 <= fst p < rows /\ 0 <= snd p < cols).

(** What [__init__] guarantees about the encoder it builds: the player's
    start, the boxes and the goals are wall-free cells of the grid. *)
Definition well_formed (e : SokobanEncoder) : Prop :=
  num_boxes e = len (boxes e) /\
  (forall p, player_start e = Some p -> In p (valid_positions e)) /\
  (forall p, In p (boxes e) -> In p (valid_positions e)) /\
  (forall p, In p (goals e) -> In p (valid_positions e)).

(** The literal [l] is, up to its sign, the player variable or a box
    variable of a valid cell at a time of [0..T]. *)
Definition names_valid (e : SokobanEncoder) (l : Z) : Prop :=
  exists p t, In p (valid_positions e) /\ 0 <= t <= T e /\
    (Z.abs l = var_player (fst p) (snd p) t \/
     exists b, 0 <= b < num_boxes e /\ Z.abs l = var_box b (fst p) (snd p) t).

(** The player variables of the wall cells, and an assignment with the
    literals on them removed. *)
Definition wall_variables (e : SokobanEncoder) : list Z :=
  flat_map (fun t =>
    map (fun p => var_player (fst p) (snd p) t)
        (filter (fun p => pos_in p (walls e)) (grid_cells (N e) (M e))))
    (range 0 (T e + 1)).

Definition without_walls (e : SokobanEncoder) (m : model) : model :=
  filter (fun l => negb (mem l (wall_variables e))) m.

(** The cell [p] of the layout holds the character [c]. *)
Definition holds_char (g : list (list string)) (c : string) (p : pos) : bool :=
  match cell_of g p with
  | Some c' => String.eqb c' c
  | None => false
  end.

(** The cells of the first [n] rows and [cols] columns that hold [c], in
    scan order. *)
Definition cells_with (g : list (list string)) (c : string) (n cols : Z)
  : list pos :=
  filter (holds_char g c) (grid_cells n cols).

(** The last member of a list, or [d] when it has none. *)
Fixpoint latest (l : list pos) (d : option pos) : option pos :=
  match l with
  | [] => d
  | p :: l' => latest l' (Some p)
  end.

(** *** What a model says about the puzzle *)

Definition player_at (m : model) (p : pos) (t : Z) : Prop :=
  In (var_player (fst p) (snd p) t) m.

Definition box_at (m : model) (b : Z) (p : pos) (t : Z) : Prop :=
  In (var_box b (fst p) (snd p) t) m.

End Sokoban.

(** ** q1.py: solve_sudoku *)

Module Sudoku.

(** *** Python objects: the grid is a list object holding row objects *)

(** A value is an integer or a reference to a list object. *)
Inductive val : Type :=
| VInt (z : Z)
| VList (a : nat).

(** The store: list objects by address; a new object takes the next address. *)
Definition heap : Type := list (list val).

Definition alloc (h : heap) (o : list val) : heap * val :=
  (h ++ [o], VList (List.length h)).

(** The list a value refers to; subscripting or measuring an integer
    raises TypeError. *)
Definition deref (h : heap) (v : val) : outcome (list val) :=
  match v with
  | VInt _ => Raise TypeError
  | VList a => match nth_error h a with
               | Some o => Ok o
               | None => Raise TypeError
               end
  end.

(** Replace the element at position [i] of a list (no effect out of range). *)
Fixpoint update {A : Type} (l : list A) (i : nat) (x : A) : list A :=
  match l, i with
  | [], _ => []
  | _ :: l', O => x :: l'
  | y :: l', S i' => y :: update l' i' x
  end.

(** [target[i] = v]: IndexError outside the list. *)
Definition store (h : heap) (target : val) (i : Z) (v : val) : outcome heap :=
  match target with
  | VInt _ => Raise TypeError
  | VList a =>
      o <- deref h target ;;
      let j := if i <? 0 then i + len o else i in
      if (0 <=? j) && (j <? len o)
      then Ok (update h a (update o (Z.to_nat j) v))
      else Raise IndexError
  end.

(** [grid[row][column]] read as an integer. *)
Definition cell (h : heap) (g : val) (row column : Z) : outcome Z :=
  rows <- deref h g ;;
  r <- get rows row ;;
  cells <- deref h r ;;
  v <- get cells column ;;
  match v with
  | VInt z => Ok z
  | VList _ => Raise TypeError
  end.

(** *** The encoding *)

Definition var (row column num : Z) : Z := 100 * row + 10 * column + num.

(** [int(math.sqrt(n))]: for a list length (below 2^52) the float square
    root truncates to the integer square root. *)
Definition int_sqrt (n : Z) : Z := Z.sqrt n.

Definition row_clauses (n : Z) : CNF :=
  flat_map (fun row =>
    map (fun num => map (fun column => var row column num) (range 1 (n + 1)))
        (range 1 (n + 1)))
    (range 1 (n + 1)).

Definition column_clauses (n : Z) : CNF :=
  flat_map (fun column =>
    map (fun num => map (fun row => var row column num) (range 1 (n + 1)))
        (range 1 (n + 1)))
    (range 1 (n + 1)).

Definition subgrid_clauses (n sqrt_n : Z) : outcome CNF :=
  starts <- range_step 1 (n + 1) sqrt_n ;;
  Ok (flat_map (fun rownums =>
        flat_map (fun colnums =>
          map (fun num =>
                 flat_map (fun dr =>
                   map (fun dc => var (rownums + dr) (colnums + dc) num)
                       (range 0 sqrt_n))
                   (range 0 sqrt_n))
              (range 1 (n + 1)))
          starts)
        starts).

Definition cell_clauses (n : Z) : CNF :=
  flat_map (fun row =>
    flat_map (fun column =>
      flat_map (fun num1 =>
        map (fun num2 => [- var row column num1; - var row column num2])
            (range (num1 + 1) (n + 1)))
        (range 1 (n + 1)))
      (range 1 (n + 1)))
    (range 1 (n + 1)).

(** The initial-condition loops, reading the grid cell by cell. *)
Fixpoint given_row (h : heap) (g : val) (row : Z) (columns : list Z) (acc : CNF)
  : outcome CNF :=
  match columns with
  | [] => Ok acc
  | column :: rest =>
      v <- cell h g row column ;;
      given_row h g row rest
                (if v =? 0 then acc
                 else acc ++ [[var (row + 1) (column + 1) v]])
  end.

Fixpoint given_rows (h : heap) (g : val) (rows : list Z) (n : Z) (acc : CNF)
  : outcome CNF :=
  match rows with
  | [] => Ok acc
  | row :: rest =>
      acc' <- given_row h g row (range 0 n) acc ;;
      given_rows h g rest n acc'
  end.

(** Everything up to the call of the solver: [n] and the clauses of [cnf1]. *)
Definition encode (h : heap) (g : val) : outcome (Z * CNF) :=
  rows <- deref h g ;;
  let n := len rows in
  let sqrt_n := int_sqrt n in
  blocks <- subgrid_clauses n sqrt_n ;;
  f <- given_rows h g (range 0 n) n
         (row_clauses n ++ column_clauses n ++ blocks ++ cell_clauses n) ;;
  Ok (n, f).

(** *** Reading the model back *)

(** [[0 for i in range(n)] for j in range(n)]: [n] new rows, then the
    list that holds them. *)
Fixpoint new_rows (h : heap) (js : list Z) (n : Z) (acc : list val)
  : heap * list val :=
  match js with
  | [] => (h, acc)
  | _ :: rest =>
      let '(h', r) := alloc h (map (fun _ => VInt 0) (range 0 n)) in
      new_rows h' rest n (acc ++ [r])
  end.

Definition new_matrix (h : heap) (n : Z) : heap * val :=
  let '(h', rows) := new_rows h (range 0 n) n [] in
  alloc h' rows.

(** [ans[i][j] = v]. *)
Definition write_cell (h : heap) (ans : val) (i j : Z) (v : val) : outcome heap :=
  rows <- deref h ans ;;
  r <- get rows i ;;
  store h r j v.

(** [for value in model]. *)
Fixpoint fill (h : heap) (ans : val) (n : Z) (m : model) : outcome heap :=
  match m with
  | [] => Ok h
  | value :: rest =>
      if value >? 0 then
        let num := value mod 10 in
        let column := (value / 10) mod 10 in
        let row := value / 100 in
        if (1 <=? row) && (row <=? n) && (1 <=? column) && (column <=? n)
           && (1 <=? num) && (num <=? n)
        then h' <- write_cell h ans (row - 1) (column - 1) (VInt num) ;;
             fill h' ans n rest
        else fill h ans n rest
      else fill h ans n rest
  end.

(** [solve_sudoku(grid)]: the store after the call and what the call
    returned. (Were a write of [fill] to raise, [ans] and its rows would
    be unreachable; the store is then given as it was after allocation.) *)
Definition solve_sudoku (solver : CNF -> option model) (h : heap) (g : val)
  : heap * outcome val :=
  match encode h g with
  | Raise e => (h, Raise e)
  | Ok (n, f) =>
      match solver f with
      | None => (h, Ok g)
      | Some m =>
          let '(h1, ans) := new_matrix h n in
          match fill h1 ans n m with
          | Ok h2 => (h2, Ok ans)
          | Raise e => (h1, Raise e)
          end
      end
  end.

(** The matrix of integers a value denotes in a store. *)
Definition read_row (h : heap) (r : val) : outcome (list Z) :=
  cells <- deref h r ;;
  fold_right (fun v acc =>
                zs <- acc ;;
                match v with
                | VInt z => Ok (z :: zs)
                | VList _ => Raise TypeError
                end)
             (Ok []) cells.

Definition read_matrix (h : heap) (g : val) : outcome (list (list Z)) :=
  rows <- deref h g ;;
  fold_right (fun r acc =>
                rest <- acc ;;
                zs <- read_row h r ;;
                Ok (zs :: rest))
             (Ok []) rows.

(** Store a matrix of integers as fresh row objects and an outer list. *)
Fixpoint store_rows (h : heap) (rows : list (list Z)) (acc : list val)
  : heap * list val :=
  match rows with
  | [] => (h, acc)
  | r :: rest =>
      let '(h', a) := alloc h (map VInt r) in
      store_rows h' rest (acc ++ [a])
  end.

Definition store_matrix (h : heap) (rows : list (list Z)) : heap * val :=
  let '(h', refs) := store_rows h rows [] in
  alloc h' refs.

(** *** The matrix view of the answer

    While [fill] runs, the store is the caller's store followed by the
    rows of [ans] and the list that holds them; [shape] builds that store
    from the matrix of integers the rows contain, and [fill_matrix] is
    the loop of [fill] on the matrix itself. *)

Definition shape (h0 : heap) (mat : list (list Z)) : heap :=
  h0 ++ map (map VInt) mat
     ++ [map VList (seq (List.length h0) (List.length mat))].

Definition set_cell (mat : list (list Z)) (i j : nat) (v : Z) : list (list Z) :=
  update mat i (update (nth i mat []) j v).

Fixpoint fill_matrix (n : Z) (mat : list (list Z)) (m : model) : list (list Z) :=
  match m with
  | [] => mat
  | value :: rest =>
      if value >? 0 then
        let num := value mod 10 in
        let column := (value / 10) mod 10 in
        let row := value / 100 in
        if (1 <=? row) && (row <=? n) && (1 <=? column) && (column <=? n)
           && (1 <=? num) && (num <=? n)
        then fill_matrix n (set_cell mat (Z.to_nat (row - 1))
                                     (Z.to_nat (column - 1)) num) rest
        else fill_matrix n mat rest
      else fill_matrix n mat rest
  end.

(** The first column of row [r] that holds [num] in the model [m]. *)
Definition column_of (n : Z) (m : model) (r num : Z) : Z :=
  match find (fun c => mem (var r c num) m) (range 1 (n + 1)) with
  | Some c => c
  | None => 0
  end.

(** The unit clauses of the initial conditions, read off the matrix. *)
Definition given_clauses (n : Z) (mat : list (list Z)) : CNF :=
  flat_map (fun row =>
    flat_map (fun column =>
      let v := nth (Z.to_nat column) (nth (Z.to_nat row) mat []) 0 in
      if v =? 0 then [] else [[var (row + 1) (column + 1) v]])
      (range 0 n))
    (range 0 n).

(** The decoder, meeting [value] in the model, writes [value mod 10] to
    the cell in row [i], column [j] of the answer. *)
Definition written (n value : Z) (i j : nat) : Prop :=
  0 < value /\
  1 <= value / 100 <= n /\ 1 <= (value / 10) mod 10 <= n /\
  1 <= value mod 10 <= n /\
  Z.to_nat (value / 100 - 1) = i /\ Z.to_nat ((value / 10) mod 10 - 1) = j.

(** The [n] x [n] matrix of zeros. *)
Definition zeros (n : Z) : list (list Z) :=
  repeat (repeat 0 (Z.to_nat n)) (Z.to_nat n).

(** Every row of [mat] has [k] cells and there are [k] rows. *)
Definition square (k : nat) (mat : list (list Z)) : Prop :=
  List.length mat = k /\ Forall (fun row => List.length row = k) mat.



(** The matrix [solve_sudoku] builds from the model [m]. *)
Definition answer (n : Z) (m : model) : list (list Z) :=
  fill_matrix n (zeros n) m.

End Sudoku.

(** ** The reference semantics plans and solutions are measured against

    Neither file contains a plan simulator or a solution checker; these
    two definitions state what the specification means by replaying an
    action sequence and by a solved grid. *)

Module Reference.
Import Sokoban.

(** A puzzle state: where the player is and where each box is. *)
Record state : Type := mkState { player : pos; crates : list pos }.

Definition shift (p d : pos) : pos := (fst p + fst d, snd p + snd d).

Definition direction (mv : string) : pos :=
  match find (fun e => String.eqb (fst e) mv) DIRS with
  | Some e => snd e
  | None => (0, 0)
  end.

(** One move under the push/stay physics: the player steps onto a free
    valid cell; stepping onto a box pushes it one cell when the cell
    behind it is valid and free; otherwise nothing moves. *)
Definition step (vp : list pos) (s : state) (mv : string) : state :=
  let d := direction mv in
  let target := shift (player s) d in
  if negb (pos_in target vp) then s
  else if pos_in target (crates s) then
    let beyond := shift target d in
    if pos_in beyond vp && negb (pos_in beyond (crates s))
    then mkState target
                 (map (fun b => if pos_eqb b target then beyond else b) (crates s))
    else s
  else mkState target (crates s).

Definition solved (gs : list pos) (s : state) : bool :=
  forallb (fun b => pos_in b gs) (crates s).

(** Some state along the replay of [moves] from [s] has every box on a goal. *)
Fixpoint reaches_goal (vp gs : list pos) (s : state) (moves : list string) : bool :=
  solved gs s ||
  match moves with
  | [] => false
  | mv :: rest => reaches_goal vp gs (step vp s mv) rest
  end.

(** The state a parsed layout starts in. *)
Definition initial_state (e : SokobanEncoder) : state :=
  mkState (match player_start e with Some p => p | None => (0, 0) end) (boxes e).

(** Replaying [moves] on the layout of [e] puts every box on a goal. *)
Definition plan_solves (e : SokobanEncoder) (moves : list string) : bool :=
  reaches_goal (valid_positions e) (goals e) (initial_state e) moves.

(** The state reached by a sequence of moves. *)
Definition run (vp : list pos) (s : state) (moves : list string) : state :=
  fold_left (step vp) moves s.

(** The first valid cell that holds box [b] at time [t] in the model. *)
Definition box_pos (m : model) (e : SokobanEncoder) (b t : Z) : pos :=
  hd (0, 0) (filter (fun p => mem (var_box b (fst p) (snd p) t) m)
                    (valid_positions e)).

(** The puzzle state a model describes at time [t], the player's cell
    read the way [decode] reads it. *)
Definition state_at (m : model) (e : SokobanEncoder) (t : Z) : state :=
  mkState (chosen m e t) (map (fun b => box_pos m e b t) (range 0 (num_boxes e))).

(** The plan [decode] builds when every time step has a true player cell. *)
Definition decoded_plan (m : model) (e : SokobanEncoder) : list string :=
  flat_map (fun t => move_of (chosen m e t) (chosen m e (t + 1))) (range 0 (T e)).

(** The model makes no player variable of a wall cell true. *)
Definition ignores_walls (m : model) (e : SokobanEncoder) : Prop :=
  forall x y t, 0 <= x < N e -> 0 <= y < M e -> pos_in (x, y) (walls e) = true ->
                0 <= t <= T e -> ~ In (var_player x y t) m.

(** A state the physics can be in: the player and the boxes stand on
    valid cells, no two of them on the same one. *)
Definition legal (vp : list pos) (s : state) : Prop :=
  In (player s) vp /\ incl (crates s) vp /\
  ~ In (player s) (crates s) /\ NoDup (crates s).

(** The state after the first [t] moves of a plan (the last state, once
    the plan is over). *)
Definition trajectory (e : SokobanEncoder) (moves : list string) (t : Z) : state :=
  run (valid_positions e) (initial_state e) (firstn (Z.to_nat t) moves).

(** The variables a plan makes true: where the player and each box are
    at each time up to [T]. *)
Definition plan_trues (e : SokobanEncoder) (moves : list string) : list Z :=
  flat_map (fun t =>
    let s := trajectory e moves t in
    var_player (fst (player s)) (snd (player s)) t
    :: map (fun b => var_box b (fst (item (crates s) b)) (snd (item (crates s) b)) t)
           (range 0 (num_boxes e)))
    (range 0 (T e + 1)).

(** The assignment over the variables up to the last box variable that
    describes the plan. *)
Definition plan_model (e : SokobanEncoder) (moves : list string) : model :=
  model_of (10000 * (num_boxes e + 1)) (plan_trues e moves).

(** [cells] holds each of [1..n]. *)
Definition holds_all (n : Z) (cells : list Z) : bool :=
  forallb (fun v => mem v cells) (range 1 (n + 1)).

Definition entry (g : list (list Z)) (r c : Z) : Z :=
  nth (Z.to_nat c) (nth (Z.to_nat r) g []) 0.

(** A filled [n] x [n] grid with blocks of side [s]: every row, column
    and block holds each of [1..n]. *)
Definition is_solution (n s : Z) (g : list (list Z)) : bool :=
  (len g =? n)
  && forallb (fun row => len row =? n) g
  && forallb (fun r => holds_all n (map (entry g r) (range 0 n))) (range 0 n)
  && forallb (fun c => holds_all n (map (fun r => entry g r c) (range 0 n))) (range 0 n)
  && forallb (fun br =>
       forallb (fun bc =>
         holds_all n (flat_map (fun dr =>
                        map (fun dc => entry g (s * br + dr) (s * bc + dc)) (range 0 s))
                        (range 0 s)))
         (range 0 s))
       (range 0 s).

(** [sol] completes the puzzle [g]: it agrees with every non-zero cell. *)
Definition completes (n : Z) (sol g : list (list Z)) : bool :=
  forallb (fun r =>
    forallb (fun c => (entry g r c =? 0) || (entry g r c =? entry sol r c))
            (range 0 n))
    (range 0 n).

(** The variables a filled grid makes true, and the assignment over the
    variables [1..var n n n] that describes the grid. *)
Definition trues_of (n : Z) (sol : list (list Z)) : list Z :=
  flat_map (fun r => map (fun c => Sudoku.var (r + 1) (c + 1) (entry sol r c))
                         (range 0 n))
           (range 0 n).

Definition model_for (n : Z) (sol : list (list Z)) : model :=
  model_of (Sudoku.var n n n) (trues_of n sol).

(** The solver finds a model of [f] when [f] has one. *)
Definition complete_on (solver : CNF -> option model) (f : CNF) : Prop :=
  forall m, is_model m f = true -> solver f <> None.

End Reference.

(** ** Concrete puzzles used below *)

Module Inputs.
Import Sokoban.

(** The corridor [P B G]. *)
Definition corridor : list (list string) := [["P"; "B"; "G"]]%string.

Definition corridor_encoder : SokobanEncoder :=
  mkEncoder corridor 1 1 3 [(0, 2)] [(0, 1)] [] (Some (0, 0)) 1 [].

(** The clause set [encode] builds for the corridor with [T = 1]. *)
Definition corridor_cnf : CNF := fst (encode corridor_encoder).

(** The push to the right, as literals over the variables of the clauses. *)
Definition corridor_push : model :=
  [1; -101; -201; -2; 102; -202;
   -10000; 10100; -10200; -10001; -10101; 10201].

(** The corridor [P B #]: no goal cell, so the goal clause of the box is empty. *)
Definition dead_end : list (list string) := [["P"; "B"; "#"]]%string.

Definition dead_end_encoder : SokobanEncoder :=
  mkEncoder dead_end 1 1 3 [] [(0, 1)] [(0, 2)] (Some (0, 0)) 1 [].

Definition dead_end_cnf : CNF := fst (encode dead_end_encoder).

(** Assignments that break the decoder's expectations on the corridor:
    two player cells at time 0; a jump of two cells; no player cell at
    time 1. *)
Definition two_players : model := [1; 101; 2; -102].
Definition jump : model := [1; 202].
Definition vanished : model := [1; -2; -102; -202].

(** An open 2 x 2 room and a diagonal step in it. *)
Definition room : list (list string) := [["P"; "."]; ["."; "."]]%string.

Definition room_encoder : SokobanEncoder :=
  mkEncoder room 1 2 2 [] [] [] (Some (0, 0)) 0 [].

Definition diagonal : model := [1; 1102].

(** The corridor without a player cell. *)
Definition no_player : list (list string) := [["."; "B"; "G"]]%string.

Definition no_player_encoder : SokobanEncoder :=
  mkEncoder no_player 1 1 3 [(0, 2)] [(0, 1)] [] None 1 [].

(** A blank 2 x 2 Sudoku grid (2 is not a square) in an empty store. *)
Definition blank2 : Sudoku.heap * Sudoku.val :=
  Sudoku.store_matrix [] [[0; 0]; [0; 0]].

(** The clauses for the blank 2 x 2 grid. *)
Definition blank2_cnf : CNF :=
  match Sudoku.encode (fst blank2) (snd blank2) with
  | Ok (_, f) => f
  | Raise _ => []
  end.

(** A blank 16 x 16 Sudoku grid in an empty store, and a completed grid. *)
Definition blank16 : Sudoku.heap * Sudoku.val :=
  Sudoku.store_matrix [] (Sudoku.zeros 16).

Definition latin16 : list (list Z) :=
  map (fun r => map (fun c => (4 * (r mod 4) + r / 4 + c) mod 16 + 1) (range 0 16))
      (range 0 16).

(** The corridor [P B G] as the second row of a grid 11 columns wide, the
    rest of the grid walls. *)
Definition shifted : list (list string) :=
  [repeat "#"%string 11;
   (["P"%string; "B"%string; "G"%string] ++ repeat "#"%string 8)%list].

Definition shifted_encoder : SokobanEncoder :=
  mkEncoder shifted 1 2 11 [(1, 2)] [(1, 1)]
            (map (fun j => (0, j)) (range 0 11) ++ map (fun j => (1, j)) (range 3 11))
            (Some (1, 0)) 1 [].

Definition shifted_cnf : CNF := fst (encode shifted_encoder).

(** The model of the push to the right over all variables [1..11201]:
    player at (1,0) then (1,1), box at (1,1) then (1,2), all else false. *)
Definition shifted_push : model := model_of 11201 [1001; 1102; 11100; 11201].

(** The corridor behind a wall cell, and a model of its clauses that also
    makes the player variables of the wall cell true. *)
Definition walled : list (list string) := [["#"; "P"; "B"; "G"]]%string.

Definition walled_encoder : SokobanEncoder :=
  mkEncoder walled 1 1 4 [(0, 3)] [(0, 2)] [(0, 0)] (Some (0, 1)) 1 [].

Definition walled_cnf : CNF := fst (encode walled_encoder).

Definition walled_model : model := model_of 10301 [1; 2; 101; 202; 10200; 10301].

(** The blank grid with a single cell. *)
Definition single : Sudoku.heap * Sudoku.val := Sudoku.store_matrix [] [[0]].

(** A 4 x 4 puzzle and its completion. *)
Definition puzzle4 : list (list Z) :=
  [[1; 0; 0; 4]; [0; 4; 0; 0]; [0; 0; 4; 0]; [4; 0; 0; 1]].

Definition solution4 : list (list Z) :=
  [[1; 2; 3; 4]; [3; 4; 1; 2]; [2; 1; 4; 3]; [4; 3; 2; 1]].

Definition puzzle4_stored : Sudoku.heap * Sudoku.val :=
  Sudoku.store_matrix [] puzzle4.

Definition puzzle4_cnf : CNF :=
  match Sudoku.encode (fst puzzle4_stored) (snd puzzle4_stored) with
  | Ok (_, f) => f
  | Raise _ => []
  end.

End Inputs.

(** * Properties *)

Import Sokoban.

(** ** Ranges, membership and models *)

Lemma In_range (lo hi x : Z) : In x (range lo hi) <-> lo <= x < hi.
Proof.
  unfold range. rewrite in_map_iff. split.
  - intros [i [Hx Hi]]. apply in_seq in Hi. lia.
  - intros H. exists (Z.to_nat (x - lo)). split; [lia|].
    apply in_seq. lia.
Qed.

Lemma NoDup_range (lo hi : Z) : NoDup (range lo hi).
Proof.
  unfold range. apply Injective_map_NoDup.
  - intros a b H. lia.
  - apply seq_NoDup.
Qed.

Lemma range_length (lo hi : Z) : List.length (range lo hi) = Z.to_nat (hi - lo).
Proof. unfold range. now rewrite length_map, length_seq. Qed.

Lemma range_nth (lo hi : Z) (i : nat) (d : Z) :
  (i < Z.to_nat (hi - lo))%nat -> nth i (range lo hi) d = lo + Z.of_nat i.
Proof.
  intros H. unfold range.
  rewrite nth_indep with (d' := lo + Z.of_nat 0)
    by (now rewrite length_map, length_seq).
  pose proof (map_nth (fun i => lo + Z.of_nat i)
                      (seq 0 (Z.to_nat (hi - lo))) 0%nat i) as E.
  cbv beta in E. rewrite E, seq_nth by exact H. reflexivity.
Qed.

Lemma mem_In (x : Z) (l : list Z) : mem x l = true <-> In x l.
Proof.
  unfold mem. rewrite existsb_exists. split.
  - intros [y [Hy Heq]]. apply Z.eqb_eq in Heq. now subst.
  - intros H. exists x. split; [exact H | apply Z.eqb_refl].
Qed.

Lemma mem_false (x : Z) (l : list Z) : mem x l = false <-> ~ In x l.
Proof.
  rewrite <- mem_In. destruct (mem x l); split; congruence.
Qed.

Lemma model_clause (m : model) (f : CNF) (c : clause) :
  is_model m f = true -> In c f -> exists l, In l c /\ In l m.
Proof.
  unfold is_model, cnf_sat. intros H Hc.
  apply andb_true_iff in H. destruct H as [_ H].
  rewrite forallb_forall in H. specialize (H c Hc).
  unfold clause_sat in H. apply existsb_exists in H.
  destruct H as [l [Hl Hm]]. exists l. split; [exact Hl | now apply mem_In].
Qed.

Lemma model_consistent (m : model) (f : CNF) (l : Z) :
  is_model m f = true -> In l m -> ~ In (- l) m.
Proof.
  unfold is_model, consistent. intros H Hl.
  apply andb_true_iff in H. destruct H as [H _].
  rewrite forallb_forall in H. specialize (H l Hl).
  apply negb_true_iff in H. now apply mem_false.
Qed.

(** A binary clause of two negated variables forbids them together. *)
Lemma model_excludes (m : model) (f : CNF) (a b : Z) :
  is_model m f = true -> In [- a; - b] f -> In a m -> In b m -> False.
Proof.
  intros Hm Hc Ha Hb.
  destruct (model_clause m f _ Hm Hc) as [l [Hl Hlm]].
  destruct Hl as [<- | [<- | []]].
  - exact (model_consistent m f a Hm Ha Hlm).
  - exact (model_consistent m f b Hm Hb Hlm).
Qed.

(** ** Variable allocation (digit packing) *)

(** Inside a 10 x 10 grid and below 100 time steps the decimal places of
    a player variable do not overlap. *)
Lemma var_player_injective (x y t x' y' t' : Z) :
  0 <= y < 10 -> 0 <= y' < 10 -> 0 <= t < 100 -> 0 <= t' < 100 ->
  var_player x y t = var_player x' y' t' -> x = x' /\ y = y' /\ t = t'.
Proof. unfold var_player. lia. Qed.

Lemma var_box_injective (b x y t b' x' y' t' : Z) :
  0 <= x < 10 -> 0 <= x' < 10 -> 0 <= y < 10 -> 0 <= y' < 10 ->
  0 <= t < 100 -> 0 <= t' < 100 ->
  var_box b x y t = var_box b' x' y' t' -> b = b' /\ x = x' /\ y = y' /\ t = t'.
Proof. unfold var_box. lia. Qed.

Lemma var_player_box_distinct (x y t b x' y' t' : Z) :
  0 <= x < 10 -> 0 <= y < 10 -> 0 <= t < 99 ->
  0 <= b -> 0 <= x' -> 0 <= y' -> 0 <= t' ->
  var_player x y t <> var_box b x' y' t'.
Proof. unfold var_player, var_box. lia. Qed.

(** For [n <= 9] the arithmetic of the Sudoku decoder inverts [var]. *)
Lemma sudoku_var_decode (row column num : Z) :
  0 <= column <= 9 -> 0 <= num <= 9 -> 0 <= row ->
  Sudoku.var row column num mod 10 = num /\
  (Sudoku.var row column num / 10) mod 10 = column /\
  Sudoku.var row column num / 100 = row.
Proof.
  intros Hc Hn Hr. unfold Sudoku.var.
  assert (H1 : (100 * row + 10 * column + num) / 10 = 10 * row + column).
  { symmetry. apply Z.div_unique with (r := num); lia. }
  repeat split.
  - symmetry. apply Z.mod_unique with (q := 10 * row + column); lia.
  - rewrite H1. symmetry. apply Z.mod_unique with (q := row); lia.
  - symmetry. apply Z.div_unique with (r := 10 * column + num); lia.
Qed.

(** C1 (evaluated on the code). The claim asks for an injective, invertible
    allocation over the bounds of a run. With 11 columns the cells (0,10)
    and (1,0) receive the same player variable and the same box variable;
    with 11 rows a player variable equals a box variable; in a 16 x 16
    Sudoku two different (row, column, value) triples share one variable
    and the decoder's arithmetic returns neither of them exactly. *)
Theorem variable_ids_collide :
  (0 <= 0 < 2 /\ 0 <= 10 < 11 /\ 0 <= 1 < 2 /\ 0 <= 0 < 11 /\
   (0, 10) <> (1, 0) /\
   var_player 0 10 0 = var_player 1 0 0 /\
   var_box 0 0 10 0 = var_box 0 1 0 0) /\
  var_player 10 0 0 = var_box 0 0 0 1 /\
  (Sudoku.var 1 1 11 = Sudoku.var 1 2 1 /\
   (Sudoku.var 1 1 11 / 100, (Sudoku.var 1 1 11 / 10) mod 10,
    Sudoku.var 1 1 11 mod 10) = (1, 2, 1)).
Proof.
  repeat split; try lia; try reflexivity.
  intros H. discriminate H.
Qed.

(** ** The clause set of [encode] *)

Lemma In_valid_positions (e : SokobanEncoder) (x y : Z) :
  In (x, y) (valid_positions e) <->
  0 <= x < N e /\ 0 <= y < M e /\ pos_in (x, y) (walls e) = false.
Proof.
  unfold valid_positions. rewrite in_flat_map. split.
  - intros [i [Hi H]]. apply in_flat_map in H. destruct H as [j [Hj H]].
    apply In_range in Hi. apply In_range in Hj.
    destruct (pos_in (i, j) (walls e)) eqn:W; simpl in H; [contradiction|].
    destruct H as [H | []]. inversion H; subst. repeat split; try lia. exact W.
  - intros [Hx [Hy W]]. exists x. split; [apply In_range; lia|].
    apply in_flat_map. exists y. split; [apply In_range; lia|].
    rewrite W. simpl. now left.
Qed.

Lemma item_nth (l : list pos) (i : nat) : item l (Z.of_nat i) = nth i l (0, 0).
Proof. unfold item. now rewrite Nat2Z.id. Qed.

(** Two different members of a list sit at two indices [i < j]. *)
Lemma distinct_indices (l : list pos) (p q : pos) :
  In p l -> In q l -> p <> q ->
  exists i j, 0 <= i /\ i < j /\ j < len l /\
              ((item l i = p /\ item l j = q) \/ (item l i = q /\ item l j = p)).
Proof.
  intros Hp Hq Hne.
  destruct (In_nth l p (0, 0) Hp) as [a [Ha Ea]].
  destruct (In_nth l q (0, 0) Hq) as [b [Hb Eb]].
  assert (a <> b) by (intros ->; congruence).
  unfold len.
  destruct (Nat.lt_ge_cases a b).
  - exists (Z.of_nat a), (Z.of_nat b). rewrite !item_nth.
    repeat split; try lia. now left.
  - exists (Z.of_nat b), (Z.of_nat a). rewrite !item_nth.
    repeat split; try lia. now right.
Qed.

Lemma pos_eq_dec (p q : pos) : {p = q} + {p <> q}.
Proof.
  destruct p as [a b], q as [c d].
  destruct (Z.eq_dec a c) as [-> | Hac]; [|right; congruence].
  destruct (Z.eq_dec b d) as [-> | Hbd]; [left; reflexivity | right; congruence].
Qed.

Section Exclusivity.
Variables (vp : list pos) (nb horizon : Z) (f : CNF) (m : model).
Hypothesis Hmodel : is_model m f = true.

Lemma player_somewhere_sound (t : Z) :
  incl (player_somewhere vp horizon) f -> 0 <= t <= horizon ->
  exists p, In p vp /\ player_at m p t.
Proof.
  intros Hin Ht.
  assert (Hc : In (map (fun '(x, y) => var_player x y t) vp) f).
  { apply Hin. unfold player_somewhere. apply in_map_iff.
    exists t. split; [reflexivity | apply In_range; lia]. }
  destruct (model_clause m f _ Hmodel Hc) as [l [Hl Hm]].
  apply in_map_iff in Hl. destruct Hl as [[x y] [<- Hp]].
  exists (x, y). split; [exact Hp | exact Hm].
Qed.

Lemma player_at_most_one_sound (t : Z) (p q : pos) :
  incl (player_at_most_one vp horizon) f -> 0 <= t <= horizon ->
  In p vp -> In q vp -> player_at m p t -> player_at m q t -> p = q.
Proof.
  intros Hin Ht Hp Hq Ap Aq.
  destruct (pos_eq_dec p q) as [E | Hne]; [exact E | exfalso].
  destruct (distinct_indices vp p q Hp Hq Hne) as [i [j [Hi [Hij [Hj Hcase]]]]].
  assert (Hc : In [- var_player (fst (item vp i)) (snd (item vp i)) t;
                   - var_player (fst (item vp j)) (snd (item vp j)) t] f).
  { apply Hin. unfold player_at_most_one. apply in_flat_map.
    exists t. split; [apply In_range; lia|].
    apply in_flat_map. exists i. split; [apply In_range; lia|].
    apply in_map_iff. exists j. split; [reflexivity | apply In_range; lia]. }
  destruct Hcase as [[Ei Ej] | [Ei Ej]]; rewrite Ei, Ej in Hc.
  - exact (model_excludes m f _ _ Hmodel Hc Ap Aq).
  - exact (model_excludes m f _ _ Hmodel Hc Aq Ap).
Qed.

Lemma box_somewhere_sound (t b : Z) :
  incl (box_somewhere vp nb horizon) f -> 0 <= t <= horizon -> 0 <= b < nb ->
  exists p, In p vp /\ box_at m b p t.
Proof.
  intros Hin Ht Hb.
  assert (Hc : In (map (fun '(x, y) => var_box b x y t) vp) f).
  { apply Hin. unfold box_somewhere. apply in_flat_map.
    exists t. split; [apply In_range; lia|].
    apply in_map_iff. exists b. split; [reflexivity | apply In_range; lia]. }
  destruct (model_clause m f _ Hmodel Hc) as [l [Hl Hm]].
  apply in_map_iff in Hl. destruct Hl as [[x y] [<- Hp]].
  exists (x, y). split; [exact Hp | exact Hm].
Qed.

Lemma box_at_most_one_sound (t b : Z) (p q : pos) :
  incl (box_at_most_one vp nb horizon) f -> 0 <= t <= horizon -> 0 <= b < nb ->
  In p vp -> In q vp -> box_at m b p t -> box_at m b q t -> p = q.
Proof.
  intros Hin Ht Hb Hp Hq Ap Aq.
  destruct (pos_eq_dec p q) as [E | Hne]; [exact E | exfalso].
  destruct (distinct_indices vp p q Hp Hq Hne) as [i [j [Hi [Hij [Hj Hcase]]]]].
  assert (Hc : In [- var_box b (fst (item vp i)) (snd (item vp i)) t;
                   - var_box b (fst (item vp j)) (snd (item vp j)) t] f).
  { apply Hin. unfold box_at_most_one. apply in_flat_map.
    exists t. split; [apply In_range; lia|].
    apply in_flat_map. exists b. split; [apply In_range; lia|].
    apply in_flat_map. exists i. split; [apply In_range; lia|].
    apply in_map_iff. exists j. split; [reflexivity | apply In_range; lia]. }
  destruct Hcase as [[Ei Ej] | [Ei Ej]]; rewrite Ei, Ej in Hc.
  - exact (model_excludes m f _ _ Hmodel Hc Ap Aq).
  - exact (model_excludes m f _ _ Hmodel Hc Aq Ap).
Qed.

Lemma player_box_apart_sound (t b : Z) (p : pos) :
  incl (player_box_apart vp nb horizon) f -> 0 <= t <= horizon -> 0 <= b < nb ->
  In p vp -> player_at m p t -> box_at m b p t -> False.
Proof.
  intros Hin Ht Hb Hp Ap Ab. destruct p as [x y].
  assert (Hc : In [- var_player x y t; - var_box b x y t] f).
  { apply Hin. unfold player_box_apart. apply in_flat_map.
    exists t. split; [apply In_range; lia|].
    apply in_flat_map. exists (x, y). split; [exact Hp|].
    apply in_map_iff. exists b. split; [reflexivity | apply In_range; lia]. }
  exact (model_excludes m f _ _ Hmodel Hc Ap Ab).
Qed.

Lemma boxes_apart_sound (t b1 b2 : Z) (p : pos) :
  incl (boxes_apart vp nb horizon) f -> 0 <= t <= horizon ->
  0 <= b1 < nb -> 0 <= b2 < nb -> b1 <> b2 ->
  In p vp -> box_at m b1 p t -> box_at m b2 p t -> False.
Proof.
  intros Hin Ht.
  assert (Hlt : forall a b, 0 <= a -> a < b -> b < nb ->
                In p vp -> box_at m a p t -> box_at m b p t -> False).
  { intros a b Ha Hab Hb Hp Aa Ab. destruct p as [x y].
    assert (Hc : In [- var_box a x y t; - var_box b x y t] f).
    { apply Hin. unfold boxes_apart. apply in_flat_map.
      exists t. split; [apply In_range; lia|].
      apply in_flat_map. exists (x, y). split; [exact Hp|].
      apply in_flat_map. exists a. split; [apply In_range; lia|].
      apply in_map_iff. exists b. split; [reflexivity | apply In_range; lia]. }
    exact (model_excludes m f _ _ Hmodel Hc Aa Ab). }
  intros H1 H2 Hne Hp A1 A2.
  destruct (Z.lt_ge_cases b1 b2).
  - apply (Hlt b1 b2); try lia; assumption.
  - apply (Hlt b2 b1); try lia; assumption.
Qed.

End Exclusivity.

(** The clause families are all part of what [encode] returns. *)
Lemma encode_ok (e : SokobanEncoder) (f : CNF) :
  encode e = (f, Ok tt) ->
  exists ps, player_start e = Some ps /\
    f = cnf e
        ++ initial_player ps
        ++ initial_boxes (num_boxes e) (boxes e)
        ++ player_somewhere (valid_positions e) (T e)
        ++ player_at_most_one (valid_positions e) (T e)
        ++ box_somewhere (valid_positions e) (num_boxes e) (T e)
        ++ box_at_most_one (valid_positions e) (num_boxes e) (T e)
        ++ player_box_apart (valid_positions e) (num_boxes e) (T e)
        ++ boxes_apart (valid_positions e) (num_boxes e) (T e)
        ++ player_moves (valid_positions e) (T e)
        ++ pushes (valid_positions e) (num_boxes e) (T e)
        ++ box_stays (valid_positions e) (num_boxes e) (T e)
        ++ goal_condition (num_boxes e) (T e) (goals e).
Proof.
  unfold encode. destruct (player_start e) as [ps|]; intros H.
  - exists ps. split; [reflexivity|]. now inversion H.
  - inversion H.
Qed.

Ltac family :=
  intros c Hc; repeat (apply in_or_app; first [left; exact Hc | right]);
  try exact Hc.

(** C3. In every model of the clause set [encode] returns, at every time
    step in [0, T]: exactly one valid position holds the player, exactly
    one valid position holds each box, no valid position holds two
    different boxes, and none holds the player together with a box. *)
Theorem encode_exclusivity (e : SokobanEncoder) (f : CNF) (m : model) (t : Z) :
  encode e = (f, Ok tt) -> is_model m f = true -> 0 <= t <= T e ->
  (exists p, In p (valid_positions e) /\ player_at m p t /\
             forall q, In q (valid_positions e) -> player_at m q t -> q = p) /\
  (forall b, 0 <= b < num_boxes e ->
     exists p, In p (valid_positions e) /\ box_at m b p t /\
               forall q, In q (valid_positions e) -> box_at m b q t -> q = p) /\
  (forall b1 b2 p, 0 <= b1 < num_boxes e -> 0 <= b2 < num_boxes e -> b1 <> b2 ->
     In p (valid_positions e) -> ~ (box_at m b1 p t /\ box_at m b2 p t)) /\
  (forall b p, 0 <= b < num_boxes e -> In p (valid_positions e) ->
     ~ (player_at m p t /\ box_at m b p t)).
Proof.
  intros He Hm Ht.
  destruct (encode_ok e f He) as [ps [_ Hf]].
  assert (I1 : incl (player_somewhere (valid_positions e) (T e)) f)
    by (rewrite Hf; family).
  assert (I2 : incl (player_at_most_one (valid_positions e) (T e)) f)
    by (rewrite Hf; family).
  assert (I3 : incl (box_somewhere (valid_positions e) (num_boxes e) (T e)) f)
    by (rewrite Hf; family).
  assert (I4 : incl (box_at_most_one (valid_positions e) (num_boxes e) (T e)) f)
    by (rewrite Hf; family).
  assert (I5 : incl (player_box_apart (valid_positions e) (num_boxes e) (T e)) f)
    by (rewrite Hf; family).
  assert (I6 : incl (boxes_apart (valid_positions e) (num_boxes e) (T e)) f)
    by (rewrite Hf; family).
  repeat split.
  - destruct (player_somewhere_sound _ _ f m Hm t I1 Ht) as [p [Hp Ap]].
    exists p. repeat split; [exact Hp | exact Ap |].
    intros q Hq Aq.
    exact (player_at_most_one_sound _ _ f m Hm t q p I2 Ht Hq Hp Aq Ap).
  - intros b Hb.
    destruct (box_somewhere_sound _ _ _ f m Hm t b I3 Ht Hb) as [p [Hp Ap]].
    exists p. repeat split; [exact Hp | exact Ap |].
    intros q Hq Aq.
    exact (box_at_most_one_sound _ _ _ f m Hm t b q p I4 Ht Hb Hq Hp Aq Ap).
  - intros b1 b2 p H1 H2 Hne Hp [A1 A2].
    exact (boxes_apart_sound _ _ _ f m Hm t b1 b2 p I6 Ht H1 H2 Hne Hp A1 A2).
  - intros b p Hb Hp [Ap Ab].
    exact (player_box_apart_sound _ _ _ f m Hm t b p I5 Ht Hb Hp Ap Ab).
Qed.

Lemma has_clause_In (c : clause) (f : CNF) : has_clause c f = true -> In c f.
Proof.
  unfold has_clause. intros H. apply existsb_exists in H.
  destruct H as [c' [Hc' E]].
  destruct (list_eq_dec Z.eq_dec c c') as [-> | _]; [exact Hc' | discriminate].
Qed.

(** A unit clause puts its literal in every model. *)
Lemma model_unit (m : model) (f : CNF) (l : Z) :
  is_model m f = true -> In [l] f -> In l m.
Proof.
  intros Hm Hc. destruct (model_clause m f _ Hm Hc) as [l' [[<- | []] H]].
  exact H.
Qed.

(** A formula with an empty clause has no model. *)
Lemma empty_clause_unsat (m : model) (f : CNF) : In [] f -> is_model m f = false.
Proof.
  intros Hc. destruct (is_model m f) eqn:E; [|reflexivity].
  destruct (model_clause m f _ E Hc) as [l [[] _]].
Qed.

(** ** The corridor P B G with horizon 1 *)

Section Corridor.
Import Inputs.
Variable m : model.
Hypothesis Hm : is_model m corridor_cnf = true.

Ltac in_cnf := apply has_clause_In; vm_compute; reflexivity.

Lemma corridor_start : In 1 m.
Proof. apply (model_unit m corridor_cnf); [exact Hm | in_cnf]. Qed.

Lemma corridor_box_start : In 10100 m.
Proof. apply (model_unit m corridor_cnf); [exact Hm | in_cnf]. Qed.

Lemma corridor_box_end : In 10201 m.
Proof. apply (model_unit m corridor_cnf); [exact Hm | in_cnf]. Qed.

Lemma corridor_box_left : ~ In 10101 m.
Proof.
  intros H. apply (model_excludes m corridor_cnf 10101 10201 Hm);
    [in_cnf | exact H | exact corridor_box_end].
Qed.

(** The push clause leaves only the player's step onto the box's cell. *)
Lemma corridor_player_end : In 102 m.
Proof.
  assert (Hc : In [-1; -10100; 10101; 102] corridor_cnf) by in_cnf.
  destruct (model_clause m corridor_cnf _ Hm Hc) as [l [Hl Hlm]].
  destruct Hl as [<- | [<- | [<- | [<- | []]]]].
  - exfalso. exact (model_consistent m corridor_cnf 1 Hm corridor_start Hlm).
  - exfalso. exact (model_consistent m corridor_cnf 10100 Hm corridor_box_start Hlm).
  - exfalso. exact (corridor_box_left Hlm).
  - exact Hlm.
Qed.

Lemma corridor_player_not_behind : ~ In 2 m.
Proof.
  intros H. apply (model_excludes m corridor_cnf 2 102 Hm);
    [in_cnf | exact H | exact corridor_player_end].
Qed.

Lemma corridor_decode : decode m corridor_encoder = Ok ["R"%string].
Proof.
  assert (H1 : mem 1 m = true) by (apply mem_In; exact corridor_start).
  assert (H2 : mem 2 m = false) by (apply mem_false; exact corridor_player_not_behind).
  assert (H3 : mem 102 m = true) by (apply mem_In; exact corridor_player_end).
  unfold decode, extract_positions. cbv -[mem].
  rewrite H1, H2, H3. reflexivity.
Qed.

End Corridor.

(** C7. For the layout P B G with T = 1 the clause set has a model, every
    model decodes to the single move R, and so [solve_sokoban] returns
    exactly [R] with any solver that is sound and finds a model. *)
Theorem corridor_plan :
  init Inputs.corridor 1 = Ok Inputs.corridor_encoder /\
  encode Inputs.corridor_encoder = (Inputs.corridor_cnf, Ok tt) /\
  is_model Inputs.corridor_push Inputs.corridor_cnf = true /\
  (forall m, is_model m Inputs.corridor_cnf = true ->
             decode m Inputs.corridor_encoder = Ok ["R"%string]) /\
  (forall solver, sound solver -> solver Inputs.corridor_cnf <> None ->
     solve_sokoban solver Inputs.corridor 1 = Ok (PyList ["R"%string])).
Proof.
  split; [reflexivity|]. split; [reflexivity|]. split; [vm_compute; reflexivity|].
  split; [exact corridor_decode|].
  intros solver Hs Hsat. unfold solve_sokoban.
  change (init Inputs.corridor 1) with (Ok Inputs.corridor_encoder).
  cbn [bind].
  change (encode Inputs.corridor_encoder) with (Inputs.corridor_cnf, Ok tt).
  cbn [bind].
  destruct (solver Inputs.corridor_cnf) as [m|] eqn:E; [|congruence].
  pose proof (Hs _ _ E) as Hm.
  rewrite (corridor_decode m Hm).
  destruct m; [discriminate Hm | reflexivity].
Qed.

(** C6. When the clause set has no model, or the solver reports none (or
    an empty one), [solve_sokoban] returns the integer -1, which is not a
    move list, the empty one included. *)
Theorem unsat_sentinel (solver : CNF -> option model) (g : list (list string))
        (horizon : Z) (e : SokobanEncoder) (f : CNF) :
  sound solver ->
  init g horizon = Ok e -> encode e = (f, Ok tt) ->
  (forall m, is_model m f = false) \/ solver f = None \/ solver f = Some [] ->
  solve_sokoban solver g horizon = Ok (PyInt (-1)) /\
  (forall moves, Ok (PyInt (-1)) <> Ok (PyList moves)) /\
  Ok (PyInt (-1)) <> Ok (PyList []).
Proof.
  intros Hs Hi He Hcase.
  assert (Hr : solver f = None \/ solver f = Some []).
  { destruct Hcase as [Hu | Hr]; [|exact Hr].
    destruct (solver f) as [m|] eqn:E; [|now left].
    apply Hs in E. rewrite Hu in E. discriminate. }
  split.
  - unfold solve_sokoban. rewrite Hi. cbn [bind]. rewrite He. cbn [bind].
    destruct Hr as [-> | ->]; reflexivity.
  - split; [intros moves H | intros H]; discriminate H.
Qed.

Lemma unsat_sentinel_witness :
  solve_sokoban (fun _ => None) Inputs.dead_end 1 = Ok (PyInt (-1)) /\
  (forall moves, Ok (PyInt (-1)) <> Ok (PyList moves)) /\
  Ok (PyInt (-1)) <> Ok (PyList []).
Proof.
  apply (unsat_sentinel (fun _ => None) Inputs.dead_end 1
                        Inputs.dead_end_encoder Inputs.dead_end_cnf).
  - intros f m H. discriminate H.
  - reflexivity.
  - reflexivity.
  - left. intros m. apply empty_clause_unsat.
    apply has_clause_In. vm_compute. reflexivity.
Defined.

Lemma encode_exclusivity_witness :
  exists p, In p (valid_positions Inputs.corridor_encoder) /\
            player_at Inputs.corridor_push p 1 /\
            forall q, In q (valid_positions Inputs.corridor_encoder) ->
                      player_at Inputs.corridor_push q 1 -> q = p.
Proof.
  apply (encode_exclusivity Inputs.corridor_encoder Inputs.corridor_cnf
                            Inputs.corridor_push 1).
  - reflexivity.
  - vm_compute. reflexivity.
  - simpl. lia.
Defined.

(** ** decode *)

Lemma get_nonneg {A : Type} (l : list A) (i : Z) :
  0 <= i ->
  get l i = match nth_error l (Z.to_nat i) with
            | Some a => Ok a
            | None => Raise IndexError
            end.
Proof.
  intros Hi. unfold get.
  destruct (i <? 0) eqn:E; [apply Z.ltb_lt in E; lia|].
  destruct (0 <=? i) eqn:E0; [|apply Z.leb_gt in E0; lia].
  destruct (i <? len l) eqn:E1; simpl; [reflexivity|].
  apply Z.ltb_ge in E1. unfold len in E1.
  assert (H : nth_error l (Z.to_nat i) = None) by (apply nth_error_None; lia).
  now rewrite H.
Qed.

Lemma get_Ok_bound {A : Type} (l : list A) (i : Z) (a : A) :
  0 <= i -> get l i = Ok a -> i < len l.
Proof.
  intros Hi H. rewrite get_nonneg in H by exact Hi.
  destruct (nth_error l (Z.to_nat i)) eqn:E; [|discriminate].
  assert (Hn : nth_error l (Z.to_nat i) <> None) by congruence.
  apply nth_error_Some in Hn. unfold len. lia.
Qed.

Lemma get_map_range {A : Type} (c : Z -> A) (hi i : Z) :
  0 <= i < hi -> get (map c (range 0 hi)) i = Ok (c i).
Proof.
  intros Hi. rewrite get_nonneg by lia.
  rewrite nth_error_map.
  rewrite (nth_error_nth' (range 0 hi) 0) by (rewrite range_length; lia).
  rewrite range_nth by lia. simpl. f_equal. f_equal. lia.
Qed.

Lemma hd_error_filter_app {A : Type} (P : A -> bool) (l1 l2 : list A) :
  hd_error (filter P (l1 ++ l2)) =
  match hd_error (filter P l1) with
  | Some a => Some a
  | None => hd_error (filter P l2)
  end.
Proof.
  rewrite filter_app. destruct (filter P l1); reflexivity.
Qed.

Lemma scan_row_first (m : model) (x t : Z) (ys : list Z) :
  scan_row m x t ys =
  hd_error (filter (fun p => mem (var_player (fst p) (snd p) t) m)
                   (map (fun y => (x, y)) ys)).
Proof.
  induction ys as [|y ys IH]; simpl; [reflexivity|].
  destruct (mem (var_player x y t) m); [reflexivity | exact IH].
Qed.

Lemma scan_rows_first (m : model) (t : Z) (xs : list Z) (cols : Z) :
  scan_rows m t xs cols =
  hd_error (filter (fun p => mem (var_player (fst p) (snd p) t) m)
                   (flat_map (fun x => map (fun y => (x, y)) (range 0 cols)) xs)).
Proof.
  induction xs as [|x xs IH]; simpl; [reflexivity|].
  rewrite hd_error_filter_app, <- scan_row_first.
  destruct (scan_row m x t (range 0 cols)); [reflexivity | exact IH].
Qed.

(** The first loop keeps, for each time step, the first true cell of the
    scan and nothing when there is none. *)
Lemma extract_positions_first (m : model) (e : SokobanEncoder) :
  extract_positions m (N e) (M e) (T e) =
  flat_map (fun t => firstn 1 (true_cells m e t)) (range 0 (T e + 1)).
Proof.
  unfold extract_positions. apply flat_map_ext. intros t.
  rewrite scan_rows_first. unfold true_cells, grid_cells.
  destruct (filter _ _); reflexivity.
Qed.

Lemma flat_map_firstn_full {A : Type} (tc : Z -> list A) (d : A) (l : list Z) :
  (forall t, In t l -> tc t <> []) ->
  flat_map (fun t => firstn 1 (tc t)) l = map (fun t => hd d (tc t)) l.
Proof.
  induction l as [|t l IH]; intros H; cbn [flat_map map]; [reflexivity|].
  rewrite IH by (intros; apply H; now right).
  specialize (H t (or_introl eq_refl)).
  destruct (tc t); [congruence | reflexivity].
Qed.

Lemma flat_map_firstn_length {A : Type} (tc : Z -> list A) (l : list Z) :
  (List.length (flat_map (fun t => firstn 1 (tc t)) l) <= List.length l)%nat.
Proof.
  induction l as [|t l IH]; cbn [flat_map List.length]; [lia|].
  rewrite length_app. pose proof (firstn_le_length 1 (tc t)). lia.
Qed.

Lemma flat_map_firstn_short {A : Type} (tc : Z -> list A) (l : list Z) (t : Z) :
  In t l -> tc t = [] ->
  (List.length (flat_map (fun t => firstn 1 (tc t)) l) < List.length l)%nat.
Proof.
  induction l as [|u l IH]; intros Hin Ht; [contradiction|].
  cbn [flat_map List.length]. rewrite length_app. destruct Hin as [-> | Hin].
  - rewrite Ht. change (List.length (firstn 1 (@nil A))) with 0%nat.
    pose proof (flat_map_firstn_length tc l). lia.
  - specialize (IH Hin Ht). pose proof (firstn_le_length 1 (tc u)). lia.
Qed.

Lemma moves_loop_all (positions : list pos) (c : Z -> pos) (ts : list Z) :
  (forall t, In t ts -> get positions t = Ok (c t) /\
                        get positions (t + 1) = Ok (c (t + 1))) ->
  forall acc, moves_loop positions ts acc =
              Ok (acc ++ flat_map (fun t => move_of (c t) (c (t + 1))) ts).
Proof.
  induction ts as [|t ts IH]; intros H acc; simpl.
  - now rewrite app_nil_r.
  - destruct (H t (or_introl eq_refl)) as [-> ->]. simpl.
    rewrite IH by (intros; apply H; now right).
    now rewrite app_assoc.
Qed.

Lemma moves_loop_short (positions : list pos) (ts : list Z) :
  (forall t, In t ts -> 0 <= t) ->
  (exists t, In t ts /\ len positions <= t + 1) ->
  forall acc, moves_loop positions ts acc = Raise IndexError.
Proof.
  induction ts as [|t ts IH]; intros Hpos [u [Hu Hlen]] acc.
  - contradiction.
  - simpl. assert (Ht : 0 <= t) by (apply Hpos; now left).
    rewrite (get_nonneg positions t Ht).
    destruct (nth_error positions (Z.to_nat t)) as [p|] eqn:E1; simpl;
      [|reflexivity].
    destruct (get positions (t + 1)) as [q|x] eqn:E2; simpl.
    + apply get_Ok_bound in E2; [|lia].
      apply IH; [intros; apply Hpos; now right|].
      exists u. split; [|exact Hlen].
      destruct Hu as [-> | Hu]; [lia | exact Hu].
    + rewrite get_nonneg in E2 by lia.
      destruct (nth_error positions (Z.to_nat (t + 1))); congruence.
Qed.

(** When every time step has a true cell, [decode] returns the moves
    between consecutive chosen cells. *)
Lemma decode_when_found (m : model) (e : SokobanEncoder) :
  (forall t, 0 <= t <= T e -> true_cells m e t <> []) ->
  decode m e =
    Ok (flat_map (fun t => move_of (chosen m e t) (chosen m e (t + 1)))
                 (range 0 (T e))).
Proof.
  intros Hall. unfold decode. rewrite extract_positions_first.
  rewrite (flat_map_firstn_full _ (0, 0))
    by (intros t Ht; apply In_range in Ht; apply Hall; lia).
  fold (chosen m e).
  rewrite (moves_loop_all _ (chosen m e)); [reflexivity|].
  intros t Ht. apply In_range in Ht.
  split; apply (get_map_range (chosen m e)); lia.
Qed.

(** C4 (as amended). [decode] has no inconsistent-assignment error. At
    each time step it takes the first cell of the row-by-row scan of the
    whole grid whose player variable is true, whatever the number of true
    cells, and records nothing when there is none. When every time step of
    [0, T] has a true cell it returns the moves that the tests row-1,
    row+1, column-1, column+1 (in this order) give for consecutive chosen
    cells, a pair that passes none of them adding no move; when some time
    step has none and [T >= 1] it fails with IndexError. *)
Theorem decode_takes_first (m : model) (e : SokobanEncoder) :
  extract_positions m (N e) (M e) (T e) =
    flat_map (fun t => firstn 1 (true_cells m e t)) (range 0 (T e + 1)) /\
  ((forall t, 0 <= t <= T e -> true_cells m e t <> []) ->
   decode m e =
     Ok (flat_map (fun t => move_of (chosen m e t) (chosen m e (t + 1)))
                  (range 0 (T e)))) /\
  ((exists t, 0 <= t <= T e /\ true_cells m e t = []) -> 1 <= T e ->
   decode m e = Raise IndexError).
Proof.
  split; [apply extract_positions_first|]. split.
  - exact (decode_when_found m e).
  - intros [t [Ht He]] HT. unfold decode. rewrite extract_positions_first.
    apply moves_loop_short.
    + intros u Hu. apply In_range in Hu. lia.
    + exists (T e - 1). split; [apply In_range; lia|].
      pose proof (flat_map_firstn_short (true_cells m e) (range 0 (T e + 1)) t) as Hs.
      rewrite range_length in Hs. unfold len.
      assert (In t (range 0 (T e + 1))) by (apply In_range; lia).
      specialize (Hs H He). lia.
Qed.

(** C4 (the claim as stated fails). Two true player cells at time 0, a
    jump of two columns and a diagonal step are all decoded without any
    error: the first cell is taken, the jump adds no move, the diagonal is
    read as a move down. *)
Lemma decode_accepts_inconsistent :
  (true_cells Inputs.two_players Inputs.corridor_encoder 0 = [(0, 0); (0, 1)] /\
   decode Inputs.two_players Inputs.corridor_encoder = Ok []) /\
  (chosen Inputs.jump Inputs.corridor_encoder 0 = (0, 0) /\
   chosen Inputs.jump Inputs.corridor_encoder 1 = (0, 2) /\
   decode Inputs.jump Inputs.corridor_encoder = Ok []) /\
  (chosen Inputs.diagonal Inputs.room_encoder 0 = (0, 0) /\
   chosen Inputs.diagonal Inputs.room_encoder 1 = (1, 1) /\
   decode Inputs.diagonal Inputs.room_encoder = Ok ["D"%string]).
Proof. repeat split; vm_compute; reflexivity. Qed.

Lemma decode_takes_first_witness :
  decode Inputs.two_players Inputs.corridor_encoder = Ok [] /\
  decode Inputs.vanished Inputs.corridor_encoder = Raise IndexError.
Proof.
  destruct (decode_takes_first Inputs.two_players Inputs.corridor_encoder)
    as [_ [Hfull _]].
  destruct (decode_takes_first Inputs.vanished Inputs.corridor_encoder)
    as [_ [_ Hshort]].
  split.
  - rewrite Hfull; [reflexivity|].
    intros t Ht. simpl in Ht.
    assert (Hcase : t = 0 \/ t = 1) by lia.
    destruct Hcase as [-> | ->]; vm_compute; discriminate.
  - apply Hshort; [|simpl; lia].
    exists 1. split; [simpl; lia | reflexivity].
Defined.

(** ** Inputs the parsers should reject *)

Lemma get_In {A : Type} (l : list A) (i : Z) :
  0 <= i < len l -> exists a, get l i = Ok a /\ In a l.
Proof.
  intros Hi. rewrite get_nonneg by lia.
  destruct (nth_error l (Z.to_nat i)) as [a|] eqn:E.
  - exists a. split; [reflexivity | exact (nth_error_In _ _ E)].
  - apply nth_error_None in E. unfold len in Hi. lia.
Qed.


Section NoPlayer.
Variables (g : list (list string)) (width : Z).
Hypothesis Hwide : Forall (fun row => width <= len row) g.
Hypothesis Hcells : Forall (fun row => Forall (fun c => c <> "P"%string) row) g.



End NoPlayer.

Section SudokuGivens.
Variables (h : Sudoku.heap) (g : Sudoku.val) (n : Z).
Hypothesis Hcells :
  forall r c, 0 <= r < n -> 0 <= c < n -> exists v, Sudoku.cell h g r c = Ok v.

Lemma given_row_total (row : Z) (columns : list Z) (acc : CNF) :
  0 <= row < n -> (forall c, In c columns -> 0 <= c < n) ->
  exists acc', Sudoku.given_row h g row columns acc = Ok acc' /\ incl acc acc'.
Proof.
  intros Hr. revert acc.
  induction columns as [|c cs IH]; intros acc Hcs; simpl.
  - exists acc. split; [reflexivity | apply incl_refl].
  - destruct (Hcells row c Hr (Hcs c (or_introl eq_refl))) as [v ->]. simpl.
    destruct (IH (if v =? 0 then acc
                  else acc ++ [[Sudoku.var (row + 1) (c + 1) v]]))
      as [acc' [E Hincl]]; [intros; apply Hcs; now right|].
    exists acc'. split; [exact E|].
    intros x Hx. apply Hincl.
    destruct (v =? 0); [exact Hx | apply in_or_app; now left].
Qed.

Lemma given_rows_total (rows : list Z) (acc : CNF) :
  (forall r, In r rows -> 0 <= r < n) ->
  exists acc', Sudoku.given_rows h g rows n acc = Ok acc' /\ incl acc acc'.
Proof.
  revert acc. induction rows as [|r rs IH]; intros acc Hrs; simpl.
  - exists acc. split; [reflexivity | apply incl_refl].
  - destruct (given_row_total r (range 0 n) acc) as [acc1 [-> H1]];
      [apply Hrs; now left | intros c Hc; apply In_range in Hc; lia |].
    simpl. destruct (IH acc1) as [acc' [E H2]]; [intros; apply Hrs; now right|].
    exists acc'. split; [exact E | exact (incl_tran H1 H2)].
Qed.

End SudokuGivens.

(** Any grid of integer cells with at least one row is encoded. *)
Lemma sudoku_encode_total (h : Sudoku.heap) (g : Sudoku.val) (rows : list Sudoku.val) :
  Sudoku.deref h g = Ok rows -> 1 <= len rows ->
  (forall r c, 0 <= r < len rows -> 0 <= c < len rows ->
               exists v, Sudoku.cell h g r c = Ok v) ->
  exists f, Sudoku.encode h g = Ok (len rows, f) /\
            incl (Sudoku.row_clauses (len rows)) f /\
            incl (Sudoku.cell_clauses (len rows)) f.
Proof.
  intros Hrows Hn Hcells.
  unfold Sudoku.encode. rewrite Hrows. cbn [bind].
  assert (Hs : 0 < Sudoku.int_sqrt (len rows))
    by (unfold Sudoku.int_sqrt; apply Z.sqrt_pos; lia).
  unfold Sudoku.subgrid_clauses, range_step.
  destruct (Sudoku.int_sqrt (len rows) =? 0) eqn:E0;
    [apply Z.eqb_eq in E0; lia|].
  destruct (Sudoku.int_sqrt (len rows) <? 0) eqn:E1;
    [apply Z.ltb_lt in E1; lia|].
  cbn [bind].
  match goal with
  | |- context [Sudoku.given_rows h g ?rs ?k ?acc] =>
      destruct (given_rows_total h g (len rows) Hcells rs acc)
        as [f [Hf Hincl]]
  end; [intros r Hr; apply In_range in Hr; lia|].
  rewrite Hf. cbn [bind]. exists f. split; [reflexivity|]. split.
  - intros c Hc. apply Hincl. apply in_or_app. now left.
  - intros c Hc. apply Hincl. apply in_or_app. right.
    apply in_or_app. right. apply in_or_app. now right.
Qed.




(** ** The store of solve_sudoku *)

Section Update.
Context {A : Type}.

Lemma update_length (l : list A) (i : nat) (x : A) :
  List.length (Sudoku.update l i x) = List.length l.
Proof.
  revert i. induction l as [|y l IH]; intros [|i]; simpl; auto.
Qed.

Lemma update_nth_same (l : list A) (i : nat) (x d : A) :
  (i < List.length l)%nat -> nth i (Sudoku.update l i x) d = x.
Proof.
  revert i. induction l as [|y l IH]; intros [|i] H; simpl in *; try lia.
  - reflexivity.
  - apply IH. lia.
Qed.

Lemma update_nth_other (l : list A) (i j : nat) (x d : A) :
  i <> j -> nth j (Sudoku.update l i x) d = nth j l d.
Proof.
  revert i j. induction l as [|y l IH]; intros [|i] [|j] H; simpl; auto.
  congruence.
Qed.

Lemma update_app_r (l1 l2 : list A) (i : nat) (x : A) :
  Sudoku.update (l1 ++ l2) (List.length l1 + i) x = l1 ++ Sudoku.update l2 i x.
Proof.
  induction l1 as [|y l1 IH]; simpl; [reflexivity | now rewrite IH].
Qed.

Lemma update_app_l (l1 l2 : list A) (i : nat) (x : A) :
  (i < List.length l1)%nat ->
  Sudoku.update (l1 ++ l2) i x = Sudoku.update l1 i x ++ l2.
Proof.
  revert i. induction l1 as [|y l1 IH]; intros [|i] H; simpl in *; try lia.
  - reflexivity.
  - rewrite IH by lia. reflexivity.
Qed.

Lemma update_Forall (P : A -> Prop) (l : list A) (i : nat) (x : A) :
  Forall P l -> P x -> Forall P (Sudoku.update l i x).
Proof.
  intros Hl Hx. revert i.
  induction Hl as [|y l Hy Hl IH]; intros [|i]; simpl; constructor; auto.
Qed.

End Update.

Lemma update_map {A B : Type} (f : A -> B) (l : list A) (i : nat) (x : A) :
  Sudoku.update (map f l) i (f x) = map f (Sudoku.update l i x).
Proof.
  revert i. induction l as [|y l IH]; intros [|i]; simpl; auto.
  now rewrite IH.
Qed.

Lemma set_cell_length (mat : list (list Z)) (i j : nat) (v : Z) :
  List.length (Sudoku.set_cell mat i j v) = List.length mat.
Proof. apply update_length. Qed.

Lemma set_cell_square (k : nat) (mat : list (list Z)) (i j : nat) (v : Z) :
  Sudoku.square k mat -> (i < k)%nat -> Sudoku.square k (Sudoku.set_cell mat i j v).
Proof.
  intros [Hlen Hrows] Hi. split.
  - now rewrite set_cell_length.
  - apply update_Forall; [exact Hrows|].
    rewrite update_length.
    apply (proj1 (Forall_forall _ mat) Hrows). apply nth_In. lia.
Qed.

Lemma zeros_square (n : Z) : Sudoku.square (Z.to_nat n) (Sudoku.zeros n).
Proof.
  unfold Sudoku.zeros. split.
  - apply repeat_length.
  - apply Forall_forall. intros row H. apply repeat_spec in H. subst.
    apply repeat_length.
Qed.

Section Shape.
Import Sudoku.
Variable h0 : heap.

Lemma shape_outer (mat : list (list Z)) :
  deref (shape h0 mat) (VList (List.length h0 + List.length mat)) =
  Ok (map VList (seq (List.length h0) (List.length mat))).
Proof.
  unfold deref, shape.
  rewrite nth_error_app2 by lia.
  rewrite nth_error_app2 by (rewrite length_map; lia).
  rewrite length_map.
  replace (List.length h0 + List.length mat - List.length h0
           - List.length mat)%nat with 0%nat by lia.
  reflexivity.
Qed.

Lemma shape_row (mat : list (list Z)) (i : nat) :
  (i < List.length mat)%nat ->
  deref (shape h0 mat) (VList (List.length h0 + i)) = Ok (map VInt (nth i mat [])).
Proof.
  intros Hi. unfold deref, shape.
  rewrite nth_error_app2 by lia.
  rewrite nth_error_app1 by (rewrite length_map; lia).
  replace (List.length h0 + i - List.length h0)%nat with i by lia.
  rewrite nth_error_map.
  rewrite (nth_error_nth' mat []) by exact Hi. reflexivity.
Qed.

Lemma outer_get (k i : nat) :
  (i < k)%nat ->
  get (map VList (seq (List.length h0) k)) (Z.of_nat i) =
  Ok (VList (List.length h0 + i)).
Proof.
  intros Hi. rewrite get_nonneg by lia. rewrite Nat2Z.id.
  rewrite nth_error_map.
  rewrite (nth_error_nth' _ 0%nat) by (rewrite length_seq; exact Hi).
  rewrite seq_nth by exact Hi. reflexivity.
Qed.

Lemma shape_first (mat : list (list Z)) :
  firstn (List.length h0) (shape h0 mat) = h0.
Proof.
  unfold shape. rewrite firstn_app, Nat.sub_diag. simpl.
  rewrite firstn_all. apply app_nil_r.
Qed.

(** A write through [ans] changes the matrix and nothing else. *)
Lemma write_cell_shape (mat : list (list Z)) (i j : nat) (v : Z) :
  (i < List.length mat)%nat -> (j < List.length (nth i mat []))%nat ->
  write_cell (shape h0 mat) (VList (List.length h0 + List.length mat))
             (Z.of_nat i) (Z.of_nat j) (VInt v) =
  Ok (shape h0 (set_cell mat i j v)).
Proof.
  intros Hi Hj. unfold write_cell.
  rewrite shape_outer. cbn [bind].
  rewrite outer_get by exact Hi. cbn [bind].
  unfold store. rewrite shape_row by exact Hi. cbn [bind].
  destruct (Z.of_nat j <? 0) eqn:E; [apply Z.ltb_lt in E; lia|].
  assert (Hlen : len (map VInt (nth i mat [])) = Z.of_nat (List.length (nth i mat [])))
    by (unfold len; now rewrite length_map).
  rewrite Hlen.
  destruct (0 <=? Z.of_nat j) eqn:E0; [|apply Z.leb_gt in E0; lia].
  destruct (Z.of_nat j <? Z.of_nat (List.length (nth i mat []))) eqn:E1;
    [|apply Z.ltb_ge in E1; lia].
  cbn [andb]. f_equal. rewrite Nat2Z.id.
  unfold shape. rewrite update_app_r.
  rewrite update_app_l by (rewrite length_map; exact Hi).
  rewrite (update_map VInt), (update_map (map VInt)).
  unfold set_cell. rewrite update_length. reflexivity.
Qed.

Lemma cell_shape (mat : list (list Z)) (i j : nat) :
  (i < List.length mat)%nat -> (j < List.length (nth i mat []))%nat ->
  cell (shape h0 mat) (VList (List.length h0 + List.length mat))
       (Z.of_nat i) (Z.of_nat j) = Ok (nth j (nth i mat []) 0).
Proof.
  intros Hi Hj. unfold cell.
  rewrite shape_outer. cbn [bind].
  rewrite outer_get by exact Hi. cbn [bind].
  rewrite shape_row by exact Hi. cbn [bind].
  rewrite get_nonneg by lia. rewrite Nat2Z.id, nth_error_map.
  rewrite (nth_error_nth' _ 0) by exact Hj. reflexivity.
Qed.

End Shape.

Lemma new_rows_spec (n : Z) (js : list Z) (h : Sudoku.heap) (acc : list Sudoku.val) :
  Sudoku.new_rows h js n acc =
  (h ++ repeat (map Sudoku.VInt (repeat 0 (Z.to_nat n))) (List.length js),
   acc ++ map Sudoku.VList (seq (List.length h) (List.length js))).
Proof.
  revert h acc. induction js as [|j js IH]; intros h acc; simpl.
  - now rewrite !app_nil_r.
  - rewrite IH. rewrite length_app. simpl.
    replace (List.length h + 1)%nat with (S (List.length h)) by lia.
    rewrite <- !app_assoc. simpl. f_equal. f_equal. f_equal.
    unfold range. rewrite map_map, Z.sub_0_r.
    rewrite map_repeat.
    generalize (Z.to_nat n) as k. intros k. generalize 0%nat as s.
    induction k as [|k IHk]; intros s; simpl; [reflexivity | now rewrite IHk].
Qed.

Lemma new_matrix_shape (h0 : Sudoku.heap) (n : Z) :
  Sudoku.new_matrix h0 n =
  (Sudoku.shape h0 (Sudoku.zeros n),
   Sudoku.VList (List.length h0 + Z.to_nat n)).
Proof.
  unfold Sudoku.new_matrix. rewrite new_rows_spec.
  unfold Sudoku.alloc, Sudoku.shape, Sudoku.zeros.
  rewrite range_length, Z.sub_0_r. simpl.
  rewrite length_app, !repeat_length, <- app_assoc, !map_repeat.
  reflexivity.
Qed.

(** [fill] on the store is [fill_matrix] on the matrix, and it never fails. *)
Lemma fill_shape (h0 : Sudoku.heap) (n : Z) (m : model) (mat : list (list Z)) :
  Sudoku.square (Z.to_nat n) mat ->
  Sudoku.fill (Sudoku.shape h0 mat)
              (Sudoku.VList (List.length h0 + Z.to_nat n)) n m =
    Ok (Sudoku.shape h0 (Sudoku.fill_matrix n mat m)) /\
  Sudoku.square (Z.to_nat n) (Sudoku.fill_matrix n mat m).
Proof.
  revert mat. induction m as [|value rest IH]; intros mat Hsq; simpl.
  - split; [reflexivity | exact Hsq].
  - destruct (value >? 0); [|apply IH; exact Hsq].
    destruct ((1 <=? value / 100) && (value / 100 <=? n)
              && (1 <=? (value / 10) mod 10) && ((value / 10) mod 10 <=? n)
              && (1 <=? value mod 10) && (value mod 10 <=? n)) eqn:G;
      [|apply IH; exact Hsq].
    repeat (apply andb_true_iff in G; destruct G as [G ?]).
    repeat match goal with
           | H : (_ <=? _) = true |- _ => apply Z.leb_le in H
           end.
    destruct Hsq as [Hlen Hrows].
    set (i := Z.to_nat (value / 100 - 1)).
    set (j := Z.to_nat ((value / 10) mod 10 - 1)).
    assert (Hi : (i < List.length mat)%nat) by (subst i; lia).
    assert (Hj : (j < List.length (nth i mat []))%nat).
    { rewrite (proj1 (Forall_forall _ mat) Hrows (nth i mat []))
        by (apply nth_In; exact Hi).
      subst j. lia. }
    replace (value / 100 - 1) with (Z.of_nat i) by (subst i; lia).
    replace ((value / 10) mod 10 - 1) with (Z.of_nat j) by (subst j; lia).
    rewrite <- Hlen at 1.
    rewrite write_cell_shape by assumption. cbn [bind].
    rewrite <- (set_cell_length mat i j (value mod 10)) in Hlen.
    assert (Hsq' : Sudoku.square (Z.to_nat n)
                     (Sudoku.set_cell mat i j (value mod 10))).
    { apply set_cell_square; [|lia].
      split; [now rewrite set_cell_length in Hlen | exact Hrows]. }
    apply IH. exact Hsq'.
Qed.

Lemma store_rows_spec (rows : list (list Z)) (h : Sudoku.heap) (acc : list Sudoku.val) :
  Sudoku.store_rows h rows acc =
  (h ++ map (map Sudoku.VInt) rows,
   acc ++ map Sudoku.VList (seq (List.length h) (List.length rows))).
Proof.
  revert h acc. induction rows as [|r rows IH]; intros h acc; simpl.
  - now rewrite !app_nil_r.
  - rewrite IH, length_app. simpl.
    replace (List.length h + 1)%nat with (S (List.length h)) by lia.
    now rewrite <- !app_assoc.
Qed.

Lemma store_matrix_shape (h0 : Sudoku.heap) (rows : list (list Z)) :
  Sudoku.store_matrix h0 rows =
  (Sudoku.shape h0 rows, Sudoku.VList (List.length h0 + List.length rows)).
Proof.
  unfold Sudoku.store_matrix. rewrite store_rows_spec.
  unfold Sudoku.alloc, Sudoku.shape. simpl.
  now rewrite length_app, length_map, <- app_assoc.
Qed.

Lemma encode_size (h : Sudoku.heap) (g : Sudoku.val) (n : Z) (f : CNF) :
  Sudoku.encode h g = Ok (n, f) -> 0 <= n.
Proof.
  unfold Sudoku.encode. destruct (Sudoku.deref h g) as [rows|]; [|discriminate].
  cbn [bind]. destruct (Sudoku.subgrid_clauses _ _); [|discriminate].
  cbn [bind]. destruct (Sudoku.given_rows _ _ _ _ _); [|discriminate].
  cbn [bind]. intros H. inversion H. unfold len. lia.
Qed.

(** The two ways [solve_sudoku] returns. *)
Lemma solve_sudoku_unsat (solver : CNF -> option model) (h : Sudoku.heap)
      (g : Sudoku.val) (n : Z) (f : CNF) :
  Sudoku.encode h g = Ok (n, f) -> solver f = None ->
  Sudoku.solve_sudoku solver h g = (h, Ok g).
Proof.
  intros He Hs. unfold Sudoku.solve_sudoku. now rewrite He, Hs.
Qed.

Lemma solve_sudoku_sat (solver : CNF -> option model) (h : Sudoku.heap)
      (g : Sudoku.val) (n : Z) (f : CNF) (m : model) :
  Sudoku.encode h g = Ok (n, f) -> solver f = Some m ->
  Sudoku.solve_sudoku solver h g =
  (Sudoku.shape h (Sudoku.fill_matrix n (Sudoku.zeros n) m),
   Ok (Sudoku.VList (List.length h + Z.to_nat n))).
Proof.
  intros He Hs. unfold Sudoku.solve_sudoku. rewrite He, Hs.
  rewrite new_matrix_shape.
  destruct (fill_shape h n m (Sudoku.zeros n) (zeros_square n)) as [-> _].
  reflexivity.
Qed.

(** C10. [solve_sudoku] leaves every object of the caller's store as it
    was, whatever the solver answers and also when the call raises. When
    the solver reports no model the call returns the very reference it was
    given, in the same store. When the solver returns a model the returned
    reference and the rows it holds are objects that did not exist in the
    caller's store. *)
Theorem solve_sudoku_frame (solver : CNF -> option model) (h : Sudoku.heap)
        (g : Sudoku.val) :
  firstn (List.length h) (fst (Sudoku.solve_sudoku solver h g)) = h /\
  (forall n f, Sudoku.encode h g = Ok (n, f) -> solver f = None ->
     Sudoku.solve_sudoku solver h g = (h, Ok g)) /\
  (forall n f m, Sudoku.encode h g = Ok (n, f) -> solver f = Some m ->
     exists h',
       Sudoku.solve_sudoku solver h g =
         (h', Ok (Sudoku.VList (List.length h + Z.to_nat n))) /\
       Sudoku.deref h' (Sudoku.VList (List.length h + Z.to_nat n)) =
         Ok (map Sudoku.VList (seq (List.length h) (Z.to_nat n))) /\
       forall a, (List.length h <= a)%nat -> nth_error h a = None).
Proof.
  split; [|split].
  - destruct (Sudoku.encode h g) as [[n f]|x] eqn:He.
    + destruct (solver f) as [m|] eqn:Hs.
      * rewrite (solve_sudoku_sat solver h g n f m He Hs). apply shape_first.
      * rewrite (solve_sudoku_unsat solver h g n f He Hs). apply firstn_all.
    + unfold Sudoku.solve_sudoku. rewrite He. apply firstn_all.
  - intros n f He Hs. exact (solve_sudoku_unsat solver h g n f He Hs).
  - intros n f m He Hs.
    exists (Sudoku.shape h (Sudoku.fill_matrix n (Sudoku.zeros n) m)).
    split; [exact (solve_sudoku_sat solver h g n f m He Hs)|].
    destruct (fill_shape h n m (Sudoku.zeros n) (zeros_square n)) as [_ [Hlen _]].
    split.
    + rewrite <- Hlen. apply shape_outer.
    + intros a Ha. apply nth_error_None. exact Ha.
Qed.

(** C8. When the clauses built for a grid have no model, a sound solver
    makes [solve_sudoku] return the reference it was given and leave the
    store as it was: the caller gets its own grid back, cell for cell. *)
Theorem unsat_returns_input (solver : CNF -> option model) (h : Sudoku.heap)
        (g : Sudoku.val) (n : Z) (f : CNF) :
  sound solver -> Sudoku.encode h g = Ok (n, f) ->
  (forall m, is_model m f = false) ->
  Sudoku.solve_sudoku solver h g = (h, Ok g).
Proof.
  intros Hsound He Hunsat.
  apply (solve_sudoku_unsat solver h g n f He).
  destruct (solver f) as [m|] eqn:Hs; [|reflexivity].
  apply Hsound in Hs. rewrite Hunsat in Hs. discriminate.
Qed.

Lemma unsat_returns_input_witness :
  Sudoku.solve_sudoku (fun _ => None) (fst Inputs.blank2) (snd Inputs.blank2) =
  (fst Inputs.blank2, Ok (snd Inputs.blank2)).
Proof.
  apply (unsat_returns_input (fun _ => None) (fst Inputs.blank2)
                             (snd Inputs.blank2) 2 Inputs.blank2_cnf).
  - intros f m H. discriminate H.
  - reflexivity.
  - intros m. destruct (is_model m Inputs.blank2_cnf) eqn:E; [exfalso | reflexivity].
    assert (H1 : In 111 m)
      by (apply (model_unit m _ 111 E); apply has_clause_In; reflexivity).
    assert (H2 : In 112 m)
      by (apply (model_unit m _ 112 E); apply has_clause_In; reflexivity).
    apply (model_excludes m Inputs.blank2_cnf 111 112 E);
      [apply has_clause_In; reflexivity | exact H1 | exact H2].
Defined.

(** ** Columns the Sudoku decoder cannot reach *)

Lemma update_beyond {A : Type} (l : list A) (i : nat) (x : A) :
  (List.length l <= i)%nat -> Sudoku.update l i x = l.
Proof.
  revert i. induction l as [|y l IH]; intros [|i] H; simpl in *; try lia.
  - reflexivity.
  - reflexivity.
  - rewrite IH by lia. reflexivity.
Qed.

Lemma set_cell_other_column (mat : list (list Z)) (i j i' j' : nat) (v : Z) :
  j <> j' ->
  nth j (nth i (Sudoku.set_cell mat i' j' v) []) 0 = nth j (nth i mat []) 0.
Proof.
  intros Hj. unfold Sudoku.set_cell.
  destruct (Nat.eq_dec i' i) as [-> | Hi].
  - destruct (Nat.lt_ge_cases i (List.length mat)) as [Hlt | Hge].
    + rewrite update_nth_same by exact Hlt.
      apply update_nth_other. congruence.
    + now rewrite update_beyond by exact Hge.
  - now rewrite update_nth_other by exact Hi.
Qed.

(** The column the decoder computes is a decimal digit, so no write ever
    reaches the tenth column or beyond. *)
Lemma fill_matrix_column (n : Z) (m : model) (mat : list (list Z)) (i j : nat) :
  (9 <= j)%nat ->
  nth j (nth i (Sudoku.fill_matrix n mat m) []) 0 = nth j (nth i mat []) 0.
Proof.
  intros Hj. revert mat. induction m as [|value rest IH]; intros mat; simpl.
  - reflexivity.
  - destruct (value >? 0); [|apply IH].
    destruct (_ && _); [|apply IH].
    rewrite IH. apply set_cell_other_column.
    pose proof (Z.mod_pos_bound (value / 10) 10). lia.
Qed.

Lemma cell_square (h0 : Sudoku.heap) (k : nat) (mat : list (list Z)) (i j : nat) :
  Sudoku.square k mat -> (i < k)%nat -> (j < k)%nat ->
  Sudoku.cell (Sudoku.shape h0 mat) (Sudoku.VList (List.length h0 + k))
              (Z.of_nat i) (Z.of_nat j) = Ok (nth j (nth i mat []) 0).
Proof.
  intros [Hlen Hrows] Hi Hj. subst k. apply cell_shape; [exact Hi|].
  rewrite (proj1 (Forall_forall _ mat) Hrows (nth i mat []))
    by (apply nth_In; exact Hi).
  exact Hj.
Qed.

(** A stored [n] x [n] grid of integers is encoded. *)
Lemma encode_stored (h0 : Sudoku.heap) (n : Z) (mat : list (list Z)) :
  Sudoku.square (Z.to_nat n) mat -> 1 <= n ->
  exists f, Sudoku.encode (Sudoku.shape h0 mat)
              (Sudoku.VList (List.length h0 + Z.to_nat n)) = Ok (n, f).
Proof.
  intros Hsq Hn.
  assert (Hrows : Sudoku.deref (Sudoku.shape h0 mat)
                    (Sudoku.VList (List.length h0 + Z.to_nat n)) =
                  Ok (map Sudoku.VList (seq (List.length h0) (Z.to_nat n)))).
  { destruct Hsq as [Hlen _]. rewrite <- Hlen. apply shape_outer. }
  assert (Hsize : len (map Sudoku.VList (seq (List.length h0) (Z.to_nat n))) = n)
    by (unfold len; rewrite length_map, length_seq; lia).
  destruct (sudoku_encode_total _ _ _ Hrows) as [f [He _]].
  - lia.
  - rewrite Hsize. intros r c Hr Hc.
    exists (nth (Z.to_nat c) (nth (Z.to_nat r) mat []) 0).
    replace r with (Z.of_nat (Z.to_nat r)) at 1 by lia.
    replace c with (Z.of_nat (Z.to_nat c)) at 1 by lia.
    apply cell_square; [exact Hsq | lia | lia].
  - rewrite Hsize in He. exists f. exact He.
Qed.

(** Whatever the solver answers for a stored grid of side [n >= 10], a
    blank cell in the tenth column or beyond is still 0 in the result. *)
Lemma tenth_column_stays_blank (solver : CNF -> option model) (h0 : Sudoku.heap)
      (n : Z) (mat : list (list Z)) (i j : nat) :
  Sudoku.square (Z.to_nat n) mat -> 1 <= n ->
  (i < Z.to_nat n)%nat -> (9 <= j < Z.to_nat n)%nat ->
  nth j (nth i mat []) 0 = 0 ->
  exists h' v,
    Sudoku.solve_sudoku solver (Sudoku.shape h0 mat)
      (Sudoku.VList (List.length h0 + Z.to_nat n)) = (h', Ok v) /\
    Sudoku.cell h' v (Z.of_nat i) (Z.of_nat j) = Ok 0.
Proof.
  intros Hsq Hn Hi Hj Hblank.
  destruct (encode_stored h0 n mat Hsq Hn) as [f He].
  destruct (solver f) as [m|] eqn:Hs.
  - rewrite (solve_sudoku_sat solver _ _ n f m He Hs).
    do 2 eexists. split; [reflexivity|].
    destruct (fill_shape (Sudoku.shape h0 mat) n m (Sudoku.zeros n)
                (zeros_square n)) as [_ Hsq'].
    rewrite (cell_square _ (Z.to_nat n)); [|exact Hsq' | exact Hi | lia].
    rewrite fill_matrix_column by lia.
    unfold Sudoku.zeros.
    rewrite (nth_indep _ [] (repeat 0 (Z.to_nat n)))
      by (rewrite repeat_length; exact Hi).
    rewrite nth_repeat. now rewrite nth_repeat.
  - rewrite (solve_sudoku_unsat solver _ _ n f He Hs).
    do 2 eexists. split; [reflexivity|].
    rewrite (cell_square _ (Z.to_nat n)); [|exact Hsq | exact Hi | lia].
    now rewrite Hblank.
Qed.

(** C9 (evaluated on the code). The blank 16 x 16 grid is a satisfiable
    puzzle ([latin16] completes it), yet whatever the solver answers the
    matrix [solve_sudoku] returns still has 0 in row 1, column 10: either
    the input comes back as it was, or the answer is decoded with a column
    read as one decimal digit and the columns from the tenth on are never
    written. *)
Theorem blank16_not_determined (solver : CNF -> option model) :
  Reference.is_solution 16 4 Inputs.latin16 = true /\
  Reference.completes 16 Inputs.latin16 (Sudoku.zeros 16) = true /\
  exists h' v,
    Sudoku.solve_sudoku solver (fst Inputs.blank16) (snd Inputs.blank16) =
      (h', Ok v) /\
    Sudoku.cell h' v 0 9 = Ok 0.
Proof.
  split; [vm_compute; reflexivity|]. split; [vm_compute; reflexivity|].
  unfold Inputs.blank16. rewrite store_matrix_shape. cbn [fst snd].
  rewrite (proj1 (zeros_square 16)).
  apply (tenth_column_stays_blank solver [] 16 (Sudoku.zeros 16) 0 9).
  - exact (zeros_square 16).
  - lia.
  - vm_compute. lia.
  - vm_compute. lia.
  - reflexivity.
Qed.

(** ** Models given by their true variables *)

Lemma In_model_of (nv : Z) (trues : list Z) (l : Z) :
  In l (model_of nv trues) <->
  (1 <= l <= nv /\ mem l trues = true) \/
  (1 <= - l <= nv /\ mem (- l) trues = false).
Proof.
  unfold model_of. rewrite in_map_iff. split.
  - intros [v [Hv Hin]]. apply In_range in Hin.
    destruct (mem v trues) eqn:E; subst l.
    + left. split; [lia | exact E].
    + right. rewrite Z.opp_involutive. split; [lia | exact E].
  - intros [[Hl E] | [Hl E]].
    + exists l. rewrite E. split; [reflexivity | apply In_range; lia].
    + exists (- l). rewrite E. split; [lia | apply In_range; lia].
Qed.

Lemma mem_model_of (nv : Z) (trues : list Z) (l : Z) :
  mem l (model_of nv trues) = holds nv trues l.
Proof.
  unfold holds.
  destruct (mem l (model_of nv trues)) eqn:E.
  - apply mem_In, In_model_of in E. destruct E as [[Hl E] | [Hl E]].
    + destruct (0 <? l) eqn:E0; [|apply Z.ltb_ge in E0; lia].
      rewrite E. destruct (l <=? nv) eqn:E1; [reflexivity|].
      apply Z.leb_gt in E1. lia.
    + destruct (0 <? l) eqn:E0; [apply Z.ltb_lt in E0; lia|].
      destruct (l <? 0) eqn:E1; [|apply Z.ltb_ge in E1; lia].
      rewrite E. destruct (- l <=? nv) eqn:E2; [reflexivity|].
      apply Z.leb_gt in E2. lia.
  - apply mem_false in E. rewrite In_model_of in E.
    destruct (0 <? l) eqn:E0.
    + apply Z.ltb_lt in E0.
      destruct (l <=? nv) eqn:E1; [|reflexivity]. apply Z.leb_le in E1.
      destruct (mem l trues) eqn:E2; [|reflexivity].
      exfalso. apply E. left. split; [lia | reflexivity].
    + destruct (l <? 0) eqn:E1; [|reflexivity]. apply Z.ltb_lt in E1.
      destruct (- l <=? nv) eqn:E2; [|reflexivity]. apply Z.leb_le in E2.
      destruct (mem (- l) trues) eqn:E3; [reflexivity|].
      exfalso. apply E. right. split; [lia | reflexivity].
Qed.

Lemma model_of_consistent (nv : Z) (trues : list Z) :
  consistent (model_of nv trues) = true.
Proof.
  unfold consistent. apply forallb_forall. intros l Hl.
  apply negb_true_iff, mem_false. intros Hn.
  apply In_model_of in Hl. apply In_model_of in Hn.
  rewrite Z.opp_involutive in Hn.
  destruct Hl as [[H1 E1] | [H1 E1]], Hn as [[H2 E2] | [H2 E2]];
    try lia; congruence.
Qed.

Lemma model_of_total (nv : Z) (trues : list Z) :
  total_over nv (model_of nv trues) = true.
Proof.
  unfold total_over, model_of.
  destruct (list_eq_dec Z.eq_dec _ _) as [_ | Hne]; [reflexivity|].
  exfalso. apply Hne. rewrite map_map.
  rewrite <- (map_id (range 1 (nv + 1))) at 2.
  apply map_ext_in. intros v Hv. apply In_range in Hv.
  destruct (mem v trues); lia.
Qed.

(** A model given by its true variables is checked literal by literal. *)
Lemma model_of_is_model (nv : Z) (trues : list Z) (f : CNF) :
  forallb (fun c => existsb (holds nv trues) c) f = true ->
  is_model (model_of nv trues) f = true.
Proof.
  intros H. unfold is_model. rewrite model_of_consistent. simpl.
  unfold cnf_sat. rewrite forallb_forall in *. intros c Hc.
  specialize (H c Hc). unfold clause_sat.
  rewrite existsb_exists in *. destruct H as [l [Hl E]].
  exists l. split; [exact Hl | now rewrite mem_model_of].
Qed.

(** ** The corridor in an 11-column grid *)

Section Shifted.
Import Inputs.
Variable m : model.
Hypothesis Hm : is_model m shifted_cnf = true.

Ltac in_cnf := apply has_clause_In; vm_compute; reflexivity.

Lemma shifted_start : In 1001 m.
Proof. apply (model_unit m shifted_cnf); [exact Hm | in_cnf]. Qed.

Lemma shifted_box_start : In 11100 m.
Proof. apply (model_unit m shifted_cnf); [exact Hm | in_cnf]. Qed.

Lemma shifted_box_end : In 11201 m.
Proof. apply (model_unit m shifted_cnf); [exact Hm | in_cnf]. Qed.

Lemma shifted_box_left : ~ In 11101 m.
Proof.
  intros H. apply (model_excludes m shifted_cnf 11101 11201 Hm);
    [in_cnf | exact H | exact shifted_box_end].
Qed.

Lemma shifted_player_end : In 1102 m.
Proof.
  assert (Hc : In [-1001; -11100; 11101; 1102] shifted_cnf) by in_cnf.
  destruct (model_clause m shifted_cnf _ Hm Hc) as [l [Hl Hlm]].
  destruct Hl as [<- | [<- | [<- | [<- | []]]]].
  - exfalso. exact (model_consistent m shifted_cnf 1001 Hm shifted_start Hlm).
  - exfalso. exact (model_consistent m shifted_cnf 11100 Hm shifted_box_start Hlm).
  - exfalso. exact (shifted_box_left Hlm).
  - exact Hlm.
Qed.

Lemma shifted_player_not_behind : ~ In 1002 m.
Proof.
  intros H. apply (model_excludes m shifted_cnf 1002 1102 Hm);
    [in_cnf | exact H | exact shifted_player_end].
Qed.

(** With the variables of the wall cells of row 0 false, the scan stops at
    the wall cell (0,10), whose variable is the one of the player's real
    cell (1,0), and the step to (1,1) is read as a move down. *)
Lemma shifted_decode :
  (forall y t, 0 <= y < 10 -> 0 <= t <= 1 -> mem (var_player 0 y t) m = false) ->
  decode m shifted_encoder = Ok ["D"%string].
Proof.
  intros Hwall.
  assert (H1 : mem (var_player 0 10 0) m = true)
    by (apply mem_In; exact shifted_start).
  assert (H2 : mem (var_player 0 10 1) m = false)
    by (apply mem_false; exact shifted_player_not_behind).
  assert (H3 : mem (var_player 1 1 1) m = true)
    by (apply mem_In; exact shifted_player_end).
  assert (H2' : mem (var_player 1 0 1) m = false) by exact H2.
  assert (Hpos : extract_positions m 2 11 1 = [(0, 10); (1, 1)]).
  { unfold extract_positions.
    replace (range 0 (1 + 1)) with [0; 1] by reflexivity.
    replace (range 0 2) with [0; 1] by reflexivity.
    cbn [flat_map scan_rows].
    replace (range 0 11) with [0; 1; 2; 3; 4; 5; 6; 7; 8; 9; 10] by reflexivity.
    cbn [scan_row].
    rewrite H1, H2, H2', H3. rewrite !Hwall by lia. reflexivity. }
  unfold decode. cbn [N M T shifted_encoder].
  rewrite Hpos. reflexivity.
Qed.

End Shifted.

(** C2 (evaluated on the code). The layout [shifted] is the corridor
    P B G in a grid 11 columns wide. Its clause set has the model of the
    push to the right; on that model, and on every model that leaves the
    variables of the wall cells of row 0 false, [decode] returns the plan
    [D], and [solve_sokoban] returns it; replaying [D] leaves the box off
    the goal, while [R] would have solved the puzzle. *)
Theorem shifted_plan_fails :
  init Inputs.shifted 1 = Ok Inputs.shifted_encoder /\
  encode Inputs.shifted_encoder = (Inputs.shifted_cnf, Ok tt) /\
  is_model Inputs.shifted_push Inputs.shifted_cnf = true /\
  total_over 11201 Inputs.shifted_push = true /\
  (forall m, is_model m Inputs.shifted_cnf = true ->
     (forall y t, 0 <= y < 10 -> 0 <= t <= 1 -> mem (var_player 0 y t) m = false) ->
     decode m Inputs.shifted_encoder = Ok ["D"%string]) /\
  decode Inputs.shifted_push Inputs.shifted_encoder = Ok ["D"%string] /\
  (forall solver, solver Inputs.shifted_cnf = Some Inputs.shifted_push ->
     solve_sokoban solver Inputs.shifted 1 = Ok (PyList ["D"%string])) /\
  Reference.plan_solves Inputs.shifted_encoder ["D"%string] = false /\
  Reference.plan_solves Inputs.shifted_encoder ["R"%string] = true.
Proof.
  assert (Hmodel : is_model Inputs.shifted_push Inputs.shifted_cnf = true)
    by (apply model_of_is_model; vm_compute; reflexivity).
  assert (Hdec : decode Inputs.shifted_push Inputs.shifted_encoder = Ok ["D"%string]).
  { apply (shifted_decode _ Hmodel). intros y t Hy Ht.
    unfold Inputs.shifted_push. rewrite mem_model_of.
    unfold holds, var_player.
    destruct (0 <? 1 + 1000 * 0 + 100 * y + t) eqn:E0;
      [|apply Z.ltb_ge in E0; lia].
    destruct (1 + 1000 * 0 + 100 * y + t <=? 11201) eqn:E1;
      [|apply Z.leb_gt in E1; lia].
    cbn [andb]. apply mem_false. intros Hin. cbn [In] in Hin. lia. }
  split; [vm_compute; reflexivity|]. split; [reflexivity|].
  split; [exact Hmodel|]. split; [apply model_of_total|].
  split; [exact shifted_decode|]. split; [exact Hdec|].
  split; [|split; vm_compute; reflexivity].
  intros solver Hs. unfold solve_sokoban.
  replace (init Inputs.shifted 1) with (Ok Inputs.shifted_encoder)
    by (vm_compute; reflexivity).
  cbn [bind].
  change (encode Inputs.shifted_encoder) with (Inputs.shifted_cnf, Ok tt).
  cbn [bind]. rewrite Hs, Hdec.
  unfold Inputs.shifted_push, model_of.
  destruct (map _ (range 1 (11201 + 1))) eqn:E; [|reflexivity].
  apply (f_equal (@List.length Z)) in E. rewrite length_map, range_length in E.
  simpl in E. lia.
Qed.

(** ** Sudoku grids of side at most 9 *)

Section SmallSudoku.
Variables (n : Z) (f : CNF) (m : model).
Hypothesis Hm : is_model m f = true.
Hypothesis Hrowsf : incl (Sudoku.row_clauses n) f.
Hypothesis Hcellsf : incl (Sudoku.cell_clauses n) f.

Lemma column_of_spec (r num : Z) :
  1 <= r <= n -> 1 <= num <= n ->
  1 <= Sudoku.column_of n m r num <= n /\ In (Sudoku.var r (Sudoku.column_of n m r num) num) m.
Proof.
  intros Hr Hnum. unfold Sudoku.column_of.
  destruct (find _ _) as [c|] eqn:E.
  - apply find_some in E. destruct E as [Hc Hmem].
    apply In_range in Hc. apply mem_In in Hmem. split; [lia | exact Hmem].
  - exfalso.
    assert (Hc : In (map (fun column => Sudoku.var r column num) (range 1 (n + 1))) f).
    { apply Hrowsf. unfold Sudoku.row_clauses. apply in_flat_map.
      exists r. split; [apply In_range; lia|].
      apply in_map_iff. exists num. split; [reflexivity | apply In_range; lia]. }
    destruct (model_clause m f _ Hm Hc) as [l [Hl Hlm]].
    apply in_map_iff in Hl. destruct Hl as [c [<- Hc']].
    pose proof (find_none _ _ E c Hc') as Hf. cbv beta in Hf.
    apply mem_false in Hf. contradiction.
Qed.

Lemma one_value_per_cell (r c num1 num2 : Z) :
  1 <= r <= n -> 1 <= c <= n -> 1 <= num1 <= n -> 1 <= num2 <= n ->
  In (Sudoku.var r c num1) m -> In (Sudoku.var r c num2) m -> num1 = num2.
Proof.
  intros Hr Hc H1 H2 A1 A2.
  assert (Hlt : forall a b, 1 <= a -> a < b -> b <= n ->
                  In (Sudoku.var r c a) m -> In (Sudoku.var r c b) m -> False).
  { intros a b Ha Hab Hb Aa Ab.
    apply (model_excludes m f (Sudoku.var r c a) (Sudoku.var r c b) Hm);
      [|exact Aa | exact Ab].
    apply Hcellsf. unfold Sudoku.cell_clauses. apply in_flat_map.
    exists r. split; [apply In_range; lia|].
    apply in_flat_map. exists c. split; [apply In_range; lia|].
    apply in_flat_map. exists a. split; [apply In_range; lia|].
    apply in_map_iff. exists b. split; [reflexivity | apply In_range; lia]. }
  destruct (Z.lt_trichotomy num1 num2) as [H | [H | H]]; [exfalso | exact H | exfalso].
  - apply (Hlt num1 num2); assumption || lia.
  - apply (Hlt num2 num1); assumption || lia.
Qed.

(** [n] values spread over the [n] cells of a row, one per cell at most,
    leave no cell empty. *)
Lemma every_cell_has_a_value (r c : Z) :
  1 <= r <= n -> 1 <= c <= n ->
  exists num, 1 <= num <= n /\ In (Sudoku.var r c num) m.
Proof.
  intros Hr Hc.
  assert (Hnodup : NoDup (map (Sudoku.column_of n m r) (range 1 (n + 1)))).
  { apply Injective_map_NoDup_in; [|apply NoDup_range].
    intros a b Ha Hb E. apply In_range in Ha. apply In_range in Hb.
    destruct (column_of_spec r a) as [Ca Aa]; [lia | lia |].
    destruct (column_of_spec r b) as [Cb Ab]; [lia | lia |].
    rewrite E in Aa, Ca.
    apply (one_value_per_cell r (Sudoku.column_of n m r b) a b); assumption || lia. }
  assert (Hincl : incl (map (Sudoku.column_of n m r) (range 1 (n + 1))) (range 1 (n + 1))).
  { intros x Hx. apply in_map_iff in Hx. destruct Hx as [num [<- Hnum]].
    apply In_range in Hnum. apply In_range.
    destruct (column_of_spec r num); lia. }
  assert (Hc' : In c (map (Sudoku.column_of n m r) (range 1 (n + 1)))).
  { refine (NoDup_length_incl Hnodup _ Hincl c _).
    - now rewrite length_map.
    - apply In_range. lia. }
  apply in_map_iff in Hc'. destruct Hc' as [num [E Hnum]].
  apply In_range in Hnum. exists num. split; [lia|].
  subst c. apply column_of_spec; lia.
Qed.

End SmallSudoku.

Lemma set_cell_same (k : nat) (mat : list (list Z)) (i j : nat) (v : Z) :
  Sudoku.square k mat -> (i < k)%nat -> (j < k)%nat ->
  nth j (nth i (Sudoku.set_cell mat i j v) []) 0 = v.
Proof.
  intros [Hlen Hrows] Hi Hj. unfold Sudoku.set_cell.
  rewrite update_nth_same by lia. apply update_nth_same.
  rewrite (proj1 (Forall_forall _ mat) Hrows (nth i mat []))
    by (apply nth_In; lia).
  exact Hj.
Qed.

Lemma set_cell_other_row (mat : list (list Z)) (i j i' j' : nat) (v : Z) :
  i <> i' ->
  nth j (nth i (Sudoku.set_cell mat i' j' v) []) 0 = nth j (nth i mat []) 0.
Proof.
  intros Hi. unfold Sudoku.set_cell. rewrite update_nth_other by congruence.
  reflexivity.
Qed.

(** A cell that holds a value of [1..n], or that some positive literal of
    the model addresses, holds a value of [1..n] after [fill]. *)
Lemma fill_matrix_range (n : Z) (m : model) (mat : list (list Z)) (i j : nat) :
  Sudoku.square (Z.to_nat n) mat ->
  (i < Z.to_nat n)%nat -> (j < Z.to_nat n)%nat ->
  1 <= nth j (nth i mat []) 0 <= n \/
  (exists value, In value m /\ 0 < value /\
     1 <= value / 100 <= n /\ 1 <= (value / 10) mod 10 <= n /\
     1 <= value mod 10 <= n /\
     Z.to_nat (value / 100 - 1) = i /\ Z.to_nat ((value / 10) mod 10 - 1) = j) ->
  1 <= nth j (nth i (Sudoku.fill_matrix n mat m) []) 0 <= n.
Proof.
  intros Hsq Hi Hj. revert mat Hsq.
  induction m as [|value rest IH]; intros mat Hsq H; simpl.
  - destruct H as [H | [v [[] _]]]. exact H.
  - assert (Hskip : 1 <= nth j (nth i mat []) 0 <= n \/
                    (exists v, In v rest /\ 0 < v /\
                       1 <= v / 100 <= n /\ 1 <= (v / 10) mod 10 <= n /\
                       1 <= v mod 10 <= n /\
                       Z.to_nat (v / 100 - 1) = i /\
                       Z.to_nat ((v / 10) mod 10 - 1) = j) \/
                    (0 < value /\ 1 <= value / 100 <= n /\
                     1 <= (value / 10) mod 10 <= n /\ 1 <= value mod 10 <= n /\
                     Z.to_nat (value / 100 - 1) = i /\
                     Z.to_nat ((value / 10) mod 10 - 1) = j)).
    { destruct H as [H | [v [[<- | Hin] Hv]]].
      - now left.
      - right. right. exact Hv.
      - right. left. exists v. split; assumption. }
    destruct (value >? 0) eqn:Epos.
    + destruct ((1 <=? value / 100) && (value / 100 <=? n)
                && (1 <=? (value / 10) mod 10) && ((value / 10) mod 10 <=? n)
                && (1 <=? value mod 10) && (value mod 10 <=? n)) eqn:G.
      * repeat (apply andb_true_iff in G; destruct G as [G ?]).
        repeat match goal with
               | H : (_ <=? _) = true |- _ => apply Z.leb_le in H
               end.
        apply IH.
        { apply set_cell_square; [exact Hsq | lia]. }
        destruct (Nat.eq_dec (Z.to_nat (value / 100 - 1)) i) as [Ei | Ei];
          [destruct (Nat.eq_dec (Z.to_nat ((value / 10) mod 10 - 1)) j) as [Ej | Ej]|].
        -- left. rewrite Ei, Ej.
           rewrite (set_cell_same (Z.to_nat n)) by assumption. lia.
        -- destruct Hskip as [Hk | [Hk | Hk]].
           ++ left. rewrite set_cell_other_column by congruence. exact Hk.
           ++ right. exact Hk.
           ++ exfalso. apply Ej. apply Hk.
        -- destruct Hskip as [Hk | [Hk | Hk]].
           ++ left. rewrite set_cell_other_row by congruence. exact Hk.
           ++ right. exact Hk.
           ++ exfalso. apply Ei. apply Hk.
      * apply IH; [exact Hsq|].
        destruct Hskip as [Hk | [Hk | Hk]]; [now left | now right | exfalso].
        destruct Hk as [_ [[? ?] [[? ?] [[? ?] _]]]].
        repeat (apply andb_false_iff in G; destruct G as [G | G]);
          try (apply Z.leb_gt in G; lia).
    + apply IH; [exact Hsq|].
      destruct Hskip as [Hk | [Hk | Hk]]; [now left | now right | exfalso].
      rewrite Z.gtb_ltb in Epos. apply Z.ltb_ge in Epos. lia.
Qed.

(** For a stored grid of side [1 <= n <= 9] and a solver that returns a
    model of the clauses, every cell of the matrix [solve_sudoku] returns
    holds a value of [1..n]. *)
Lemma small_sudoku_determined (solver : CNF -> option model) (h0 : Sudoku.heap)
      (n : Z) (mat : list (list Z)) (m : model) :
  Sudoku.square (Z.to_nat n) mat -> 1 <= n <= 9 ->
  (forall f, Sudoku.encode (Sudoku.shape h0 mat)
               (Sudoku.VList (List.length h0 + Z.to_nat n)) = Ok (n, f) ->
             solver f = Some m /\ is_model m f = true) ->
  exists h' v,
    Sudoku.solve_sudoku solver (Sudoku.shape h0 mat)
      (Sudoku.VList (List.length h0 + Z.to_nat n)) = (h', Ok v) /\
    forall i j, (i < Z.to_nat n)%nat -> (j < Z.to_nat n)%nat ->
      exists x, Sudoku.cell h' v (Z.of_nat i) (Z.of_nat j) = Ok x /\ 1 <= x <= n.
Proof.
  intros Hsq Hn Hsolver.
  assert (Hrows : Sudoku.deref (Sudoku.shape h0 mat)
                    (Sudoku.VList (List.length h0 + Z.to_nat n)) =
                  Ok (map Sudoku.VList (seq (List.length h0) (Z.to_nat n)))).
  { destruct Hsq as [Hlen _]. rewrite <- Hlen. apply shape_outer. }
  assert (Hsize : len (map Sudoku.VList (seq (List.length h0) (Z.to_nat n))) = n)
    by (unfold len; rewrite length_map, length_seq; lia).
  destruct (sudoku_encode_total _ _ _ Hrows) as [f [He [Hr Hc]]].
  - lia.
  - rewrite Hsize. intros r c Hr Hc.
    exists (nth (Z.to_nat c) (nth (Z.to_nat r) mat []) 0).
    replace r with (Z.of_nat (Z.to_nat r)) at 1 by lia.
    replace c with (Z.of_nat (Z.to_nat c)) at 1 by lia.
    apply cell_square; [exact Hsq | lia | lia].
  - rewrite Hsize in He, Hr, Hc.
    destruct (Hsolver f He) as [Hs Hm].
    rewrite (solve_sudoku_sat solver _ _ n f m He Hs).
    do 2 eexists. split; [reflexivity|].
    intros i j Hi Hj.
    destruct (fill_shape (Sudoku.shape h0 mat) n m (Sudoku.zeros n)
                (zeros_square n)) as [_ Hsq'].
    rewrite (cell_square _ (Z.to_nat n)); [|exact Hsq' | exact Hi | exact Hj].
    eexists. split; [reflexivity|].
    apply fill_matrix_range; [apply zeros_square | exact Hi | exact Hj |].
    right.
    destruct (every_cell_has_a_value n f m Hm Hr Hc
                (Z.of_nat i + 1) (Z.of_nat j + 1)) as [num [Hnum Hin]];
      [lia | lia |].
    exists (Sudoku.var (Z.of_nat i + 1) (Z.of_nat j + 1) num).
    destruct (sudoku_var_decode (Z.of_nat i + 1) (Z.of_nat j + 1) num)
      as [D1 [D2 D3]]; [lia | lia | lia |].
    rewrite D1, D2, D3.
    split; [exact Hin|]. split; [unfold Sudoku.var; lia|].
    repeat split; lia.
Qed.

(** ** Encoders built by [__init__] are well formed *)

Lemma pos_eqb_eq (p q : pos) : pos_eqb p q = true <-> p = q.
Proof.
  destruct p as [a b], q as [c d]. unfold pos_eqb. cbn [fst snd].
  rewrite andb_true_iff, !Z.eqb_eq. split.
  - intros [-> ->]. reflexivity.
  - intros E. inversion E. split; reflexivity.
Qed.

Lemma pos_in_In (p : pos) (l : list pos) : pos_in p l = true <-> In p l.
Proof.
  unfold pos_in. rewrite existsb_exists. split.
  - intros [q [Hq E]]. unfold pos_eqb in E.
    apply andb_true_iff in E. destruct E as [E1 E2].
    apply Z.eqb_eq in E1. apply Z.eqb_eq in E2.
    destruct p, q; simpl in *; subst. exact Hq.
  - intros H. exists p. split; [exact H|].
    unfold pos_eqb. now rewrite !Z.eqb_refl.
Qed.

Lemma pos_in_false (p : pos) (l : list pos) : pos_in p l = false <-> ~ In p l.
Proof.
  rewrite <- pos_in_In. destruct (pos_in p l); split; congruence.
Qed.

Section Parse.
Variables (g : list (list string)) (rows cols : Z).

Lemma parse_cell_inv (i j : Z) (c : string) (st : parsed) :
  cell_of g (i, j) = Some c -> 0 <= i < rows -> 0 <= j < cols ->
  parse_inv g rows cols st -> parse_inv g rows cols (parse_cell i j c st).
Proof.
  intros Hc Hi Hj [Hg [Hb [Hw Hp]]]. unfold parse_cell.
  assert (Hhere : 0 <= fst (i, j) < rows /\ 0 <= snd (i, j) < cols)
    by (cbn [fst snd]; lia).
  destruct (String.eqb c "G") eqn:EG.
  { apply String.eqb_eq in EG. subst c.
    split; [|split; [|split]]; cbn [p_goals p_boxes p_walls p_player];
      [|exact Hb | exact Hw | exact Hp].
    intros p H. apply in_app_or in H. destruct H as [H | [<- | []]].
    - exact (Hg p H).
    - split; [exact Hc | exact Hhere]. }
  destruct (String.eqb c "B") eqn:EB.
  { apply String.eqb_eq in EB. subst c.
    split; [|split; [|split]]; cbn [p_goals p_boxes p_walls p_player];
      [exact Hg | | exact Hw | exact Hp].
    intros p H. apply in_app_or in H. destruct H as [H | [<- | []]].
    - exact (Hb p H).
    - split; [exact Hc | exact Hhere]. }
  destruct (String.eqb c "P") eqn:EP.
  { apply String.eqb_eq in EP. subst c.
    split; [|split; [|split]]; cbn [p_goals p_boxes p_walls p_player];
      [exact Hg | exact Hb | exact Hw |].
    intros p H. inversion H. subst p.
    split; [exact Hc | exact Hhere]. }
  destruct (String.eqb c "#") eqn:EW.
  { apply String.eqb_eq in EW. subst c.
    split; [|split; [|split]]; cbn [p_goals p_boxes p_walls p_player];
      [exact Hg | exact Hb | | exact Hp].
    intros p H. apply in_app_or in H. destruct H as [H | [<- | []]].
    - exact (Hw p H).
    - exact Hc. }
  split; [exact Hg | split; [exact Hb | split; [exact Hw | exact Hp]]].
Qed.

Lemma parse_row_inv (i : Z) (js : list Z) (st st' : parsed) :
  0 <= i < rows -> (forall j, In j js -> 0 <= j < cols) ->
  parse_inv g rows cols st -> parse_row g i js st = Ok st' -> parse_inv g rows cols st'.
Proof.
  intros Hi. revert st.
  induction js as [|j js IH]; intros st Hjs Hinv H; simpl in H.
  - inversion H. subst. exact Hinv.
  - destruct (get g i) as [row|] eqn:Er; [|discriminate]. cbn [bind] in H.
    destruct (get row j) as [c|] eqn:Ec; [|discriminate]. cbn [bind] in H.
    apply (IH (parse_cell i j c st)); [intros; apply Hjs; now right | | exact H].
    apply parse_cell_inv; [|exact Hi | apply Hjs; now left | exact Hinv].
    unfold cell_of. cbn [fst snd]. now rewrite Er, Ec.
Qed.

Lemma parse_rows_inv (rs : list Z) (st st' : parsed) :
  (forall i, In i rs -> 0 <= i < rows) ->
  parse_inv g rows cols st -> parse_rows g rs cols st = Ok st' -> parse_inv g rows cols st'.
Proof.
  revert st. induction rs as [|i rs IH]; intros st Hrs Hinv H; simpl in H.
  - inversion H. subst. exact Hinv.
  - destruct (parse_row g i (range 0 cols) st) as [st1|] eqn:E1; [|discriminate].
    cbn [bind] in H.
    apply (IH st1); [intros; apply Hrs; now right | | exact H].
    apply (parse_row_inv i (range 0 cols) st st1);
      [apply Hrs; now left | intros j Hj; apply In_range in Hj; lia
       | exact Hinv | exact E1].
Qed.

End Parse.

Lemma init_well_formed (g : list (list string)) (horizon : Z) (e : SokobanEncoder) :
  init g horizon = Ok e -> well_formed e /\ T e = horizon /\ cnf e = [].
Proof.
  unfold init. destruct (get g 0) as [row0|] eqn:E0; [|discriminate].
  cbn [bind]. unfold _parse_grid.
  destruct (parse_rows g (range 0 (len g)) (len row0) (mkParsed [] [] [] None))
    as [st|] eqn:Ep; [|discriminate].
  cbn [bind]. intros H. inversion H. subst e. clear H.
  split; [|split; reflexivity].
  assert (Hinv : parse_inv g (len g) (len row0) st).
  { apply (parse_rows_inv g (len g) (len row0) (range 0 (len g))
                          (mkParsed [] [] [] None) st).
    - intros i Hi. apply In_range in Hi. lia.
    - repeat split; simpl; intros; try contradiction; discriminate.
    - exact Ep. }
  destruct Hinv as [Hg [Hb [Hw Hp]]].
  assert (Hvalid : forall p c, cell_of g p = Some c -> c <> "#"%string ->
                     0 <= fst p < len g -> 0 <= snd p < len row0 ->
                     In p (valid_positions
                             (mkEncoder g horizon (len g) (len row0) (p_goals st)
                                (p_boxes st) (p_walls st) (p_player st)
                                (len (p_boxes st)) []))).
  { intros [x y] c Hc Hne Hx Hy. apply In_valid_positions.
    cbn [N M walls fst snd] in *. repeat split; try lia.
    apply pos_in_false. intros Hin. apply Hw in Hin. congruence. }
  unfold well_formed. cbn [num_boxes boxes player_start goals].
  split; [reflexivity|]. split; [|split].
  - intros p Hpl. destruct (Hp p Hpl) as [Hc [Hx Hy]].
    apply (Hvalid p "P"%string); [exact Hc | discriminate | exact Hx | exact Hy].
  - intros p Hin. destruct (Hb p Hin) as [Hc [Hx Hy]].
    apply (Hvalid p "B"%string); [exact Hc | discriminate | exact Hx | exact Hy].
  - intros p Hin. destruct (Hg p Hin) as [Hc [Hx Hy]].
    apply (Hvalid p "G"%string); [exact Hc | discriminate | exact Hx | exact Hy].
Qed.

(** ** Models that ignore wall cells decode to valid plans *)

Lemma encode_includes (e : SokobanEncoder) (f : CNF) :
  encode e = (f, Ok tt) ->
  exists ps, player_start e = Some ps /\
    incl (initial_player ps) f /\
    incl (initial_boxes (num_boxes e) (boxes e)) f /\
    incl (player_somewhere (valid_positions e) (T e)) f /\
    incl (player_at_most_one (valid_positions e) (T e)) f /\
    incl (box_somewhere (valid_positions e) (num_boxes e) (T e)) f /\
    incl (box_at_most_one (valid_positions e) (num_boxes e) (T e)) f /\
    incl (player_box_apart (valid_positions e) (num_boxes e) (T e)) f /\
    incl (boxes_apart (valid_positions e) (num_boxes e) (T e)) f /\
    incl (player_moves (valid_positions e) (T e)) f /\
    incl (pushes (valid_positions e) (num_boxes e) (T e)) f /\
    incl (box_stays (valid_positions e) (num_boxes e) (T e)) f /\
    incl (goal_condition (num_boxes e) (T e) (goals e)) f.
Proof.
  intros He. destruct (encode_ok e f He) as [ps [Hps Hf]].
  exists ps. split; [exact Hps|].
  repeat split; rewrite Hf; family.
Qed.

Lemma In_grid_cells (n cols x y : Z) :
  In (x, y) (grid_cells n cols) <-> 0 <= x < n /\ 0 <= y < cols.
Proof.
  unfold grid_cells. rewrite in_flat_map. split.
  - intros [i [Hi H]]. apply in_map_iff in H. destruct H as [j [E Hj]].
    inversion E; subst. apply In_range in Hi. apply In_range in Hj. lia.
  - intros [Hx Hy]. exists x. split; [apply In_range; lia|].
    apply in_map_iff. exists y. split; [reflexivity | apply In_range; lia].
Qed.

(** The head of a non-empty list all of whose members equal [p] is [p]. *)
Lemma hd_unique (l : list pos) (p : pos) :
  In p l -> (forall q, In q l -> q = p) -> hd (0, 0) l = p.
Proof.
  intros Hin Hall. destruct l as [|q l]; [contradiction|].
  simpl. apply Hall. now left.
Qed.

Lemma map_nth_seq_from (l0 l : list pos) :
  map (fun i => nth i (l0 ++ l) (0, 0)) (seq (List.length l0) (List.length l)) = l.
Proof.
  revert l0. induction l as [|p l IH]; intros l0; [reflexivity|].
  cbn [List.length seq map]. rewrite nth_middle. f_equal.
  specialize (IH (l0 ++ [p])).
  rewrite <- app_assoc, length_app in IH. cbn [List.length app] in IH.
  rewrite Nat.add_1_r in IH. exact IH.
Qed.

Lemma map_item_range (l : list pos) : map (item l) (range 0 (len l)) = l.
Proof.
  unfold range, len. rewrite Z.sub_0_r, Nat2Z.id, map_map.
  transitivity (map (fun i => nth i ([] ++ l) (0, 0))
                    (seq (List.length (@nil pos)) (List.length l)));
    [|apply map_nth_seq_from].
  apply map_ext. intros i. cbn [Z.add app]. apply item_nth.
Qed.

Section Plan.
Import Reference.
Variables (e : SokobanEncoder) (f : CNF) (m : model) (ps : pos).
Hypothesis Hps : player_start e = Some ps.
Hypothesis Hm : is_model m f = true.
Hypothesis Hwf : well_formed e.
Hypothesis Hclean : ignores_walls m e.
Hypothesis I_init : incl (initial_player ps) f.
Hypothesis I_boxes : incl (initial_boxes (num_boxes e) (boxes e)) f.
Hypothesis I_palo : incl (player_somewhere (valid_positions e) (T e)) f.
Hypothesis I_pamo : incl (player_at_most_one (valid_positions e) (T e)) f.
Hypothesis I_balo : incl (box_somewhere (valid_positions e) (num_boxes e) (T e)) f.
Hypothesis I_bamo : incl (box_at_most_one (valid_positions e) (num_boxes e) (T e)) f.
Hypothesis I_pb : incl (player_box_apart (valid_positions e) (num_boxes e) (T e)) f.
Hypothesis I_bb : incl (boxes_apart (valid_positions e) (num_boxes e) (T e)) f.
Hypothesis I_move : incl (player_moves (valid_positions e) (T e)) f.
Hypothesis I_push : incl (pushes (valid_positions e) (num_boxes e) (T e)) f.
Hypothesis I_stay : incl (box_stays (valid_positions e) (num_boxes e) (T e)) f.
Hypothesis I_goal : incl (goal_condition (num_boxes e) (T e) (goals e)) f.

Lemma player_unique (t : Z) (p : pos) :
  0 <= t <= T e -> In p (valid_positions e) -> player_at m p t ->
  chosen m e t = p.
Proof.
  intros Ht Hp Ap. unfold chosen. apply hd_unique.
  - unfold true_cells. apply filter_In. split.
    + destruct p as [x y]. apply In_valid_positions in Hp.
      apply In_grid_cells. lia.
    + apply mem_In. exact Ap.
  - intros [x y] Hq. unfold true_cells in Hq. apply filter_In in Hq.
    destruct Hq as [Hgrid Hq]. apply mem_In in Hq. cbn [fst snd] in Hq.
    apply In_grid_cells in Hgrid.
    assert (Hv : In (x, y) (valid_positions e)).
    { apply In_valid_positions. repeat split; try lia.
      destruct (pos_in (x, y) (walls e)) eqn:W; [exfalso | reflexivity].
      apply (Hclean x y t); try lia; assumption. }
    exact (player_at_most_one_sound _ _ f m Hm t (x, y) p I_pamo Ht Hv Hp Hq Ap).
Qed.

Lemma player_found (t : Z) :
  0 <= t <= T e ->
  In (chosen m e t) (valid_positions e) /\ player_at m (chosen m e t) t.
Proof.
  intros Ht.
  destruct (player_somewhere_sound _ _ f m Hm t I_palo Ht) as [p [Hp Ap]].
  rewrite (player_unique t p Ht Hp Ap). split; assumption.
Qed.

Lemma box_unique (b t : Z) (p : pos) :
  0 <= t <= T e -> 0 <= b < num_boxes e ->
  In p (valid_positions e) -> box_at m b p t -> box_pos m e b t = p.
Proof.
  intros Ht Hb Hp Ap. unfold box_pos. apply hd_unique.
  - apply filter_In. split; [exact Hp | apply mem_In; exact Ap].
  - intros q Hq. apply filter_In in Hq. destruct Hq as [Hv Hq].
    apply mem_In in Hq.
    exact (box_at_most_one_sound _ _ _ f m Hm t b q p I_bamo Ht Hb Hv Hp Hq Ap).
Qed.

Lemma box_found (b t : Z) :
  0 <= t <= T e -> 0 <= b < num_boxes e ->
  In (box_pos m e b t) (valid_positions e) /\ box_at m b (box_pos m e b t) t.
Proof.
  intros Ht Hb.
  destruct (box_somewhere_sound _ _ _ f m Hm t b I_balo Ht Hb) as [p [Hp Ap]].
  rewrite (box_unique b t p Ht Hb Hp Ap). split; assumption.
Qed.

(** At time 0 the model describes the parsed layout. *)
Lemma state_at_start : 0 <= T e -> state_at m e 0 = initial_state e.
Proof.
  intros HT. destruct Hwf as [Hnb [Hpl [Hbx _]]].
  unfold state_at, initial_state. rewrite Hps. f_equal.
  - apply player_unique; [lia | apply Hpl; exact Hps |].
    apply (model_unit m f); [exact Hm | apply I_init; now left].
  - rewrite Hnb. rewrite <- (map_item_range (boxes e)) at 2.
    apply map_ext_in. intros b Hb. apply In_range in Hb.
    assert (Hin : In (item (boxes e) b) (boxes e)).
    { unfold item. apply nth_In. unfold len in Hb. lia. }
    apply box_unique; [lia | lia | apply Hbx; exact Hin |].
    apply (model_unit m f); [exact Hm|]. apply I_boxes.
    unfold initial_boxes. apply in_map_iff.
    exists b. split; [reflexivity | apply In_range; lia].
Qed.

(** The player stays or steps to an orthogonal valid neighbour. *)
Lemma player_step (t : Z) :
  0 <= t < T e ->
  chosen m e (t + 1) = chosen m e t \/
  exists d, In d DIRS_values /\ chosen m e (t + 1) = shift (chosen m e t) d.
Proof.
  intros Ht.
  destruct (player_found t) as [Hv Ap]; [lia|].
  destruct (chosen m e t) as [x y] eqn:Ec.
  assert (Hc : In ([- var_player x y t; var_player x y (t + 1)]
                   ++ flat_map (fun '(dx, dy) =>
                        let npx := x + dx in
                        let npy := y + dy in
                        if pos_in (npx, npy) (valid_positions e)
                        then [var_player npx npy (t + 1)] else [])
                      DIRS_values) f).
  { apply I_move. unfold player_moves. apply in_flat_map.
    exists t. split; [apply In_range; lia|].
    apply in_map_iff. exists (x, y). split; [reflexivity | exact Hv]. }
  destruct (model_clause m f _ Hm Hc) as [l [Hl Hlm]].
  apply in_app_or in Hl. destruct Hl as [[<- | [<- | []]] | Hl].
  - exfalso. exact (model_consistent m f _ Hm Ap Hlm).
  - left. apply player_unique; [lia | exact Hv | exact Hlm].
  - right. apply in_flat_map in Hl. destruct Hl as [[dx dy] [Hd Hl]].
    cbv zeta in Hl.
    destruct (pos_in (x + dx, y + dy) (valid_positions e)) eqn:V; [|contradiction].
    destruct Hl as [<- | []]. apply pos_in_In in V.
    exists (dx, dy). split; [exact Hd|].
    apply player_unique; [lia | exact V | exact Hlm].
Qed.

(** A box stays, or is pushed one cell by the player, who takes its place. *)
Lemma box_step (b t : Z) :
  0 <= t < T e -> 0 <= b < num_boxes e ->
  box_pos m e b (t + 1) = box_pos m e b t \/
  exists d, In d DIRS_values /\
    shift (chosen m e t) d = box_pos m e b t /\
    chosen m e (t + 1) = box_pos m e b t /\
    box_pos m e b (t + 1) = shift (box_pos m e b t) d.
Proof.
  intros Ht Hb.
  destruct (box_found b t) as [Hv Ab]; [lia | lia |].
  destruct (box_pos m e b t) as [x y] eqn:Eb.
  assert (Hc : In ([- var_box b x y t; var_box b x y (t + 1)]
                   ++ flat_map (fun '(dx, dy) =>
                        let px := x - dx in
                        let py := y - dy in
                        let nx := x + dx in
                        let ny := y + dy in
                        if pos_in (px, py) (valid_positions e)
                           && pos_in (nx, ny) (valid_positions e)
                        then [var_player px py t] else [])
                      DIRS_values) f).
  { apply I_stay. unfold box_stays. apply in_flat_map.
    exists t. split; [apply In_range; lia|].
    apply in_flat_map. exists b. split; [apply In_range; lia|].
    apply in_map_iff. exists (x, y). split; [reflexivity | exact Hv]. }
  destruct (model_clause m f _ Hm Hc) as [l [Hl Hlm]].
  apply in_app_or in Hl. destruct Hl as [[<- | [<- | []]] | Hl].
  - exfalso. exact (model_consistent m f _ Hm Ab Hlm).
  - left. apply box_unique; [lia | lia | exact Hv | exact Hlm].
  - apply in_flat_map in Hl. destruct Hl as [[dx dy] [Hd Hl]].
    cbv zeta in Hl.
    destruct (pos_in (x - dx, y - dy) (valid_positions e)) eqn:V1;
      [|contradiction].
    destruct (pos_in (x + dx, y + dy) (valid_positions e)) eqn:V2;
      [|contradiction].
    destruct Hl as [<- | []].
    apply pos_in_In in V1. apply pos_in_In in V2.
    assert (Hpl : chosen m e t = (x - dx, y - dy))
      by (apply player_unique; [lia | exact V1 | exact Hlm]).
    assert (Hpush : In [- var_player (x - dx) (y - dy) t; - var_box b x y t;
                        var_box b x y (t + 1); var_player x y (t + 1)] f /\
                    In [- var_player (x - dx) (y - dy) t; - var_box b x y t;
                        var_box b x y (t + 1);
                        var_box b (x + dx) (y + dy) (t + 1)] f).
    { assert (Hfam : forall c,
                In c [[- var_player (x - dx) (y - dy) t; - var_box b x y t;
                       var_box b x y (t + 1); var_player x y (t + 1)];
                      [- var_player (x - dx) (y - dy) t; - var_box b x y t;
                       var_box b x y (t + 1);
                       var_box b (x + dx) (y + dy) (t + 1)]] -> In c f).
      { intros c Hin. apply I_push. unfold pushes. apply in_flat_map.
        exists t. split; [apply In_range; lia|].
        apply in_flat_map. exists b. split; [apply In_range; lia|].
        apply in_flat_map. exists (x - dx, y - dy). split; [exact V1|].
        apply in_flat_map. exists (dx, dy). split; [exact Hd|].
        cbv zeta.
        replace (x - dx + dx) with x by lia.
        replace (y - dy + dy) with y by lia.
        replace (x - dx + 2 * dx) with (x + dx) by lia.
        replace (y - dy + 2 * dy) with (y + dy) by lia.
        apply pos_in_In in Hv. apply pos_in_In in V2. rewrite Hv, V2.
        exact Hin. }
      split; apply Hfam; [now left | right; now left]. }
    destruct Hpush as [Hc1 Hc2].
    destruct (model_clause m f _ Hm Hc2) as [l2 [Hl2 Hlm2]].
    destruct Hl2 as [<- | [<- | [<- | [<- | []]]]].
    + exfalso. exact (model_consistent m f _ Hm Hlm Hlm2).
    + exfalso. exact (model_consistent m f _ Hm Ab Hlm2).
    + left. apply box_unique; [lia | lia | exact Hv | exact Hlm2].
    + assert (Hnew : box_pos m e b (t + 1) = (x + dx, y + dy))
        by (apply box_unique; [lia | lia | exact V2 | exact Hlm2]).
      destruct (pos_eq_dec (x + dx, y + dy) (x, y)) as [E | Hne].
      { left. rewrite Hnew. exact E. }
      right. exists (dx, dy). split; [exact Hd|].
      rewrite Hpl. unfold shift. cbn [fst snd].
      split; [f_equal; lia|]. split; [|exact Hnew].
      destruct (model_clause m f _ Hm Hc1) as [l1 [Hl1 Hlm1]].
      destruct Hl1 as [<- | [<- | [<- | [<- | []]]]].
      * exfalso. exact (model_consistent m f _ Hm Hlm Hlm1).
      * exfalso. exact (model_consistent m f _ Hm Ab Hlm1).
      * exfalso. apply Hne.
        rewrite <- Hnew. apply box_unique; [lia | lia | exact Hv | exact Hlm1].
      * apply player_unique; [lia | exact Hv | exact Hlm1].
Qed.

Lemma true_cells_found (t : Z) : 0 <= t <= T e -> true_cells m e t <> [].
Proof.
  intros Ht.
  destruct (player_somewhere_sound _ _ f m Hm t I_palo Ht) as [[x y] [Hp Ap]].
  assert (Hin : In (x, y) (true_cells m e t)).
  { unfold true_cells. apply filter_In. split.
    - apply In_valid_positions in Hp. apply In_grid_cells. lia.
    - apply mem_In. exact Ap. }
  intros E. rewrite E in Hin. contradiction.
Qed.

Lemma box_not_under_player (b t : Z) :
  0 <= t <= T e -> 0 <= b < num_boxes e -> box_pos m e b t <> chosen m e t.
Proof.
  intros Ht Hb E.
  destruct (player_found t Ht) as [Hv Ap].
  destruct (box_found b t Ht Hb) as [_ Ab]. rewrite E in Ab.
  exact (player_box_apart_sound _ _ _ f m Hm t b _ I_pb Ht Hb Hv Ap Ab).
Qed.

Lemma boxes_differ (b1 b2 t : Z) :
  0 <= t <= T e -> 0 <= b1 < num_boxes e -> 0 <= b2 < num_boxes e ->
  b1 <> b2 -> box_pos m e b1 t <> box_pos m e b2 t.
Proof.
  intros Ht H1 H2 Hne E.
  destruct (box_found b1 t Ht H1) as [Hv A1].
  destruct (box_found b2 t Ht H2) as [_ A2]. rewrite <- E in A2.
  exact (boxes_apart_sound _ _ _ f m Hm t b1 b2 _ I_bb Ht H1 H2 Hne Hv A1 A2).
Qed.

Lemma shift_moves (p d : pos) : In d DIRS_values -> shift p d <> p.
Proof.
  destruct p as [x y]. unfold shift. cbn [fst snd].
  intros [<- | [<- | [<- | [<- | []]]]] E; inversion E; lia.
Qed.

Lemma shift_injective (p d d' : pos) : shift p d = shift p d' -> d = d'.
Proof.
  destruct p as [x y], d as [a b], d' as [a' b']. unfold shift. cbn [fst snd].
  intros E. inversion E. f_equal; lia.
Qed.

Lemma move_of_same (p : pos) : move_of p p = [].
Proof.
  destruct p as [x y]. unfold move_of.
  destruct (x =? x - 1) eqn:E1; [apply Z.eqb_eq in E1; lia|].
  destruct (x =? x + 1) eqn:E2; [apply Z.eqb_eq in E2; lia|].
  destruct (y =? y - 1) eqn:E3; [apply Z.eqb_eq in E3; lia|].
  destruct (y =? y + 1) eqn:E4; [apply Z.eqb_eq in E4; lia|].
  reflexivity.
Qed.

(** A step to a neighbour is decoded as the move in that direction. *)
Lemma move_of_shift (p d : pos) :
  In d DIRS_values ->
  exists mv, move_of p (shift p d) = [mv] /\ direction mv = d.
Proof.
  destruct p as [x y]. unfold shift, move_of. cbn [fst snd].
  intros [<- | [<- | [<- | [<- | []]]]]; cbn [fst snd].
  - exists "U"%string. split; [|reflexivity].
    replace (x + -1) with (x - 1) by lia. now rewrite Z.eqb_refl.
  - exists "D"%string. split; [|reflexivity].
    destruct (x + 1 =? x - 1) eqn:E1; [apply Z.eqb_eq in E1; lia|].
    now rewrite Z.eqb_refl.
  - exists "L"%string. split; [|reflexivity].
    replace (x + 0) with x by lia. replace (y + -1) with (y - 1) by lia.
    destruct (x =? x - 1) eqn:E1; [apply Z.eqb_eq in E1; lia|].
    destruct (x =? x + 1) eqn:E2; [apply Z.eqb_eq in E2; lia|].
    now rewrite Z.eqb_refl.
  - exists "R"%string. split; [|reflexivity].
    replace (x + 0) with x by lia.
    destruct (x =? x - 1) eqn:E1; [apply Z.eqb_eq in E1; lia|].
    destruct (x =? x + 1) eqn:E2; [apply Z.eqb_eq in E2; lia|].
    destruct (y + 1 =? y - 1) eqn:E3; [apply Z.eqb_eq in E3; lia|].
    now rewrite Z.eqb_refl.
Qed.

(** A box on the cell the player steps onto moves one cell further. *)
Lemma box_pushed (b t : Z) (d : pos) :
  0 <= t < T e -> 0 <= b < num_boxes e -> In d DIRS_values ->
  chosen m e (t + 1) = shift (chosen m e t) d ->
  box_pos m e b t = chosen m e (t + 1) ->
  box_pos m e b (t + 1) = shift (box_pos m e b t) d.
Proof.
  intros Ht Hb Hd Hstep Hon.
  destruct (box_step b t Ht Hb) as [Hstay | [d' [Hd' [Hbehind [_ Hnew]]]]].
  - exfalso. apply (box_not_under_player b (t + 1)); [lia | exact Hb|].
    now rewrite Hstay.
  - rewrite Hon, Hstep in Hbehind. apply shift_injective in Hbehind.
    subst d'. exact Hnew.
Qed.

(** A box elsewhere stays where it is. *)
Lemma box_left_alone (b t : Z) :
  0 <= t < T e -> 0 <= b < num_boxes e ->
  box_pos m e b t <> chosen m e (t + 1) ->
  box_pos m e b (t + 1) = box_pos m e b t.
Proof.
  intros Ht Hb Hoff.
  destruct (box_step b t Ht Hb) as [Hstay | [d' [_ [_ [Hon _]]]]].
  - exact Hstay.
  - exfalso. apply Hoff. now rewrite Hon.
Qed.

Lemma In_crates (t : Z) (p : pos) :
  In p (crates (state_at m e t)) <->
  exists b, 0 <= b < num_boxes e /\ box_pos m e b t = p.
Proof.
  unfold state_at. cbn [crates]. rewrite in_map_iff. split.
  - intros [b [E Hb]]. apply In_range in Hb. exists b. split; [lia | exact E].
  - intros [b [Hb E]]. exists b. split; [exact E | apply In_range; lia].
Qed.

(** One time step of the model is the replay of the move decoded for it. *)
Lemma model_step_is_replay (t : Z) :
  0 <= t < T e ->
  run (valid_positions e) (state_at m e t)
      (move_of (chosen m e t) (chosen m e (t + 1))) = state_at m e (t + 1).
Proof.
  intros Ht.
  destruct (player_step t Ht) as [Hsame | [d [Hd Hstep]]].
  - rewrite Hsame, move_of_same. unfold run. cbn [fold_left].
    unfold state_at. rewrite Hsame. f_equal.
    apply map_ext_in. intros b Hb. apply In_range in Hb.
    symmetry. apply box_left_alone; [exact Ht | lia|].
    rewrite Hsame. apply box_not_under_player; lia.
  - destruct (move_of_shift (chosen m e t) d Hd) as [mv [Hmv Hdir]].
    rewrite Hstep, Hmv. unfold run. cbn [fold_left].
    unfold step. rewrite Hdir.
    change (player (state_at m e t)) with (chosen m e t).
    rewrite <- Hstep.
    destruct (player_found (t + 1)) as [Hv _]; [lia|].
    apply pos_in_In in Hv. rewrite Hv. cbn [negb].
    destruct (pos_in (chosen m e (t + 1)) (crates (state_at m e t))) eqn:C.
    + apply pos_in_In, In_crates in C. destruct C as [b0 [Hb0 Hon0]].
      pose proof (box_pushed b0 t d Ht Hb0 Hd Hstep Hon0) as Hnew0.
      rewrite Hon0 in Hnew0.
      destruct (box_found b0 (t + 1)) as [Hv0 _]; [lia | exact Hb0|].
      rewrite Hnew0 in Hv0. apply pos_in_In in Hv0. rewrite Hv0. cbn [andb].
      assert (Hfree : pos_in (shift (chosen m e (t + 1)) d)
                             (crates (state_at m e t)) = false).
      { apply pos_in_false. intros Hin. apply In_crates in Hin.
        destruct Hin as [b1 [Hb1 Hon1]].
        destruct (Z.eq_dec b1 b0) as [-> | Hne].
        - rewrite Hon0 in Hon1. symmetry in Hon1.
          exact (shift_moves _ _ Hd Hon1).
        - apply (boxes_differ b1 b0 (t + 1)); [lia | exact Hb1 | exact Hb0 | exact Hne|].
          rewrite Hnew0, <- Hon1. apply box_left_alone; [exact Ht | exact Hb1|].
          rewrite Hon1. exact (shift_moves _ _ Hd). }
      rewrite Hfree. cbn [negb]. unfold state_at. f_equal.
      cbn [crates]. rewrite map_map. apply map_ext_in.
      intros b Hb. apply In_range in Hb.
      destruct (pos_eqb (box_pos m e b t) (chosen m e (t + 1))) eqn:E.
      * assert (Hon : box_pos m e b t = chosen m e (t + 1))
          by (apply pos_eqb_eq; exact E).
        rewrite <- Hon. symmetry.
        apply box_pushed; [exact Ht | lia | exact Hd | exact Hstep | exact Hon].
      * symmetry. apply box_left_alone; [exact Ht | lia|].
        intros Hon. rewrite Hon in E. unfold pos_eqb in E.
        now rewrite !Z.eqb_refl in E.
    + unfold state_at. f_equal. cbn [crates].
      apply map_ext_in. intros b Hb. apply In_range in Hb.
      symmetry. apply box_left_alone; [exact Ht | lia|].
      intros Hon. apply pos_in_false in C. apply C.
      apply In_crates. exists b. split; [lia | exact Hon].
Qed.

Lemma range_snoc (k : Z) : 0 <= k -> range 0 (k + 1) = range 0 k ++ [k].
Proof.
  intros Hk. unfold range. rewrite !Z.sub_0_r.
  replace (Z.to_nat (k + 1)) with (S (Z.to_nat k)) by lia.
  rewrite seq_S, map_app. cbn [map Nat.add Z.add]. f_equal. f_equal. lia.
Qed.

Lemma run_app (vp : list pos) (s : state) (l1 l2 : list string) :
  run vp s (l1 ++ l2) = run vp (run vp s l1) l2.
Proof. unfold run. apply fold_left_app. Qed.

(** Replaying the moves decoded for the first [k] steps leads to the
    state the model describes at time [k]. *)
Lemma replay_follows_model (k : nat) :
  Z.of_nat k <= T e ->
  run (valid_positions e) (state_at m e 0)
      (flat_map (fun t => move_of (chosen m e t) (chosen m e (t + 1)))
                (range 0 (Z.of_nat k))) = state_at m e (Z.of_nat k).
Proof.
  induction k as [|k IH]; intros Hk.
  - reflexivity.
  - replace (Z.of_nat (S k)) with (Z.of_nat k + 1) by lia.
    rewrite range_snoc by lia. rewrite flat_map_app, run_app, IH by lia.
    cbn [flat_map]. rewrite app_nil_r.
    apply model_step_is_replay. lia.
Qed.

Lemma reaches_goal_run (vp gs : list pos) (s : state) (moves : list string) :
  solved gs (run vp s moves) = true -> reaches_goal vp gs s moves = true.
Proof.
  revert s. induction moves as [|mv rest IH]; intros s H; cbn [reaches_goal].
  - unfold run in H. cbn [fold_left] in H. now rewrite H.
  - apply orb_true_iff. right. apply IH. exact H.
Qed.

(** At the horizon every box is on a goal cell. *)
Lemma goal_reached : 0 <= T e -> solved (goals e) (state_at m e (T e)) = true.
Proof.
  intros HT. unfold solved. apply forallb_forall. intros q Hq.
  apply In_crates in Hq. destruct Hq as [b [Hb <-]].
  assert (Hc : In (map (fun '(gx, gy) => var_box b gx gy (T e)) (goals e)) f).
  { apply I_goal. unfold goal_condition. apply in_map_iff.
    exists b. split; [reflexivity | apply In_range; lia]. }
  destruct (model_clause m f _ Hm Hc) as [l [Hl Hlm]].
  apply in_map_iff in Hl. destruct Hl as [[gx gy] [<- Hg]].
  destruct Hwf as [_ [_ [_ Hgoals]]].
  rewrite (box_unique b (T e) (gx, gy)); [| lia | exact Hb | apply Hgoals; exact Hg
                                          | exact Hlm].
  apply pos_in_In. exact Hg.
Qed.

Lemma decoded_plan_solves :
  0 <= T e ->
  decode m e = Ok (decoded_plan m e) /\ plan_solves e (decoded_plan m e) = true.
Proof.
  intros HT. split.
  - apply decode_when_found. intros t Ht. apply true_cells_found. exact Ht.
  - unfold plan_solves. rewrite <- state_at_start by exact HT.
    apply reaches_goal_run. unfold decoded_plan.
    pose proof (replay_follows_model (Z.to_nat (T e))) as Hrun.
    rewrite Z2Nat.id in Hrun by lia. rewrite Hrun by lia.
    apply goal_reached. exact HT.
Qed.

End Plan.

(** X6. For every layout [__init__] accepts and every horizon [T >= 0]: a
    model of the clause set that makes no player variable of a wall cell
    true is decoded without error, and replaying the decoded plan from the
    parsed layout puts every box on a goal cell. (The 11-column layout
    [Inputs.shifted] has no such model: there the variable of the wall
    cell (0,10) is the variable of the player's start.) *)
Theorem plan_valid_when_walls_ignored (g : list (list string)) (horizon : Z)
      (e : SokobanEncoder) (f : CNF) (m : model) :
  init g horizon = Ok e -> encode e = (f, Ok tt) -> 0 <= horizon ->
  is_model m f = true -> Reference.ignores_walls m e ->
  decode m e = Ok (Reference.decoded_plan m e) /\
  Reference.plan_solves e (Reference.decoded_plan m e) = true.
Proof.
  intros Hinit Henc HT Hm Hclean.
  destruct (init_well_formed g horizon e Hinit) as [Hwf [HTe _]].
  destruct (encode_includes e f Henc)
    as [ps [Hps [I1 [I2 [I3 [I4 [I5 [I6 [I7 [I8 [I9 [I10 [I11 I12]]]]]]]]]]]]].
  apply (decoded_plan_solves e f m ps); try assumption.
  rewrite HTe. exact HT.
Qed.

(** The hypothesis on wall cells is needed in small grids as well: no
    clause mentions the player variables of a wall cell, and a model that
    makes them true sends [decode] to the wall. *)
Lemma wall_variable_misleads :
  init Inputs.walled 1 = Ok Inputs.walled_encoder /\
  is_model Inputs.walled_model Inputs.walled_cnf = true /\
  total_over 10301 Inputs.walled_model = true /\
  decode Inputs.walled_model Inputs.walled_encoder = Ok [] /\
  Reference.plan_solves Inputs.walled_encoder [] = false.
Proof.
  split; [reflexivity|].
  split; [apply model_of_is_model; vm_compute; reflexivity|].
  split; [apply model_of_total|].
  split; vm_compute; reflexivity.
Qed.

(** ** Instances *)

Lemma proposing_sound (m : model) : sound (proposing m).
Proof.
  intros f m' H. unfold proposing in H.
  destruct (is_model m f) eqn:E; [|discriminate].
  inversion H. subst. exact E.
Qed.

Lemma corridor_plan_witness :
  decode Inputs.corridor_push Inputs.corridor_encoder = Ok ["R"%string] /\
  solve_sokoban (proposing Inputs.corridor_push) Inputs.corridor 1 =
    Ok (PyList ["R"%string]).
Proof.
  destruct corridor_plan as [_ [_ [Hmodel [Hdec Hsolve]]]]. split.
  - apply Hdec. exact Hmodel.
  - apply Hsolve; [apply proposing_sound|].
    unfold proposing. rewrite Hmodel. discriminate.
Defined.

Lemma solve_sudoku_frame_witness :
  firstn 2 (fst (Sudoku.solve_sudoku (proposing [111]) (fst Inputs.single)
                                     (snd Inputs.single))) = fst Inputs.single /\
  Sudoku.solve_sudoku (proposing [111]) (fst Inputs.single) (snd Inputs.single) =
    ([[Sudoku.VInt 0]; [Sudoku.VList 0]; [Sudoku.VInt 1]; [Sudoku.VList 2]],
     Ok (Sudoku.VList 3)) /\
  Sudoku.solve_sudoku (proposing [-111]) (fst Inputs.single) (snd Inputs.single) =
    (fst Inputs.single, Ok (snd Inputs.single)).
Proof.
  destruct (solve_sudoku_frame (proposing [111]) (fst Inputs.single)
                               (snd Inputs.single)) as [Hkeep [_ Hsat]].
  destruct (solve_sudoku_frame (proposing [-111]) (fst Inputs.single)
                               (snd Inputs.single)) as [_ [Hunsat _]].
  split; [exact Hkeep|]. split.
  - destruct (Hsat 1 [[111]; [111]; [111]] [111]) as [h' [Hres _]];
      [reflexivity | reflexivity|].
    rewrite Hres. f_equal. inversion Hres. reflexivity.
  - apply (Hunsat 1 [[111]; [111]; [111]]); reflexivity.
Defined.

(** The encoders written out in [Inputs] are the ones [__init__] builds. *)
Lemma inputs_as_parsed :
  init Inputs.corridor 1 = Ok Inputs.corridor_encoder /\
  init Inputs.dead_end 1 = Ok Inputs.dead_end_encoder /\
  init Inputs.room 1 = Ok Inputs.room_encoder /\
  init Inputs.no_player 1 = Ok Inputs.no_player_encoder /\
  init Inputs.shifted 1 = Ok Inputs.shifted_encoder /\
  init Inputs.walled 1 = Ok Inputs.walled_encoder.
Proof. repeat split; vm_compute; reflexivity. Qed.

(** The plan decoded for the corridor from its push model solves it. *)
Lemma corridor_plan_replayed :
  decode Inputs.corridor_push Inputs.corridor_encoder =
    Ok (Reference.decoded_plan Inputs.corridor_push Inputs.corridor_encoder) /\
  Reference.plan_solves Inputs.corridor_encoder
    (Reference.decoded_plan Inputs.corridor_push Inputs.corridor_encoder) = true.
Proof.
  apply (plan_valid_when_walls_ignored Inputs.corridor 1 Inputs.corridor_encoder
                                       Inputs.corridor_cnf Inputs.corridor_push).
  - reflexivity.
  - reflexivity.
  - lia.
  - vm_compute. reflexivity.
  - intros x y t _ _ Hwall. discriminate Hwall.
Defined.

(** The single-cell grid is filled with 1. *)
Lemma single_cell_determined :
  exists h' v,
    Sudoku.solve_sudoku (proposing [111]) (fst Inputs.single) (snd Inputs.single) =
      (h', Ok v) /\
    forall i j, (i < 1)%nat -> (j < 1)%nat ->
      exists x, Sudoku.cell h' v (Z.of_nat i) (Z.of_nat j) = Ok x /\ 1 <= x <= 1.
Proof.
  unfold Inputs.single. rewrite store_matrix_shape. cbn [fst snd].
  change (List.length [[0]]) with (Z.to_nat 1).
  apply (small_sudoku_determined (proposing [111]) [] 1 [[0]] [111]).
  - split; [reflexivity | repeat constructor].
  - lia.
  - intros f Hf. vm_compute in Hf. inversion Hf. subst f.
    split; reflexivity.
Qed.

(** * Further properties of the code *)

(** ** decode and solve_sokoban on arbitrary assignments *)

Lemma move_of_short (p q : pos) :
  (List.length (move_of p q) <= 1)%nat /\
  Forall (fun mv => In mv ["U"; "D"; "L"; "R"]%string) (move_of p q).
Proof.
  destruct p as [x y], q as [nx ny]. unfold move_of.
  destruct (nx =? x - 1); [split; [simpl; lia | repeat constructor; simpl; tauto]|].
  destruct (nx =? x + 1); [split; [simpl; lia | repeat constructor; simpl; tauto]|].
  destruct (ny =? y - 1); [split; [simpl; lia | repeat constructor; simpl; tauto]|].
  destruct (ny =? y + 1); [split; [simpl; lia | repeat constructor; simpl; tauto]|].
  split; [simpl; lia | constructor].
Qed.

Lemma moves_loop_bounded (positions : list pos) (ts : list Z) :
  forall acc moves,
    moves_loop positions ts acc = Ok moves ->
    exists rest, moves = acc ++ rest /\
                 (List.length rest <= List.length ts)%nat /\
                 Forall (fun mv => In mv ["U"; "D"; "L"; "R"]%string) rest.
Proof.
  induction ts as [|t ts IH]; intros acc moves H; simpl in H.
  - inversion H. exists []. rewrite app_nil_r.
    split; [reflexivity | split; [simpl; lia | constructor]].
  - destruct (get positions t) as [p|]; [|discriminate]. cbn [bind] in H.
    destruct (get positions (t + 1)) as [q|]; [|discriminate]. cbn [bind] in H.
    destruct (IH _ _ H) as [rest [E [Hlen Hall]]].
    destruct (move_of_short p q) as [H1 H2].
    exists (move_of p q ++ rest). rewrite app_assoc. split; [exact E|].
    split; [rewrite length_app; simpl; lia | apply Forall_app; split; assumption].
Qed.

Lemma decode_bounded (m : model) (e : SokobanEncoder) (moves : list string) :
  decode m e = Ok moves ->
  (List.length moves <= Z.to_nat (T e))%nat /\
  Forall (fun mv => In mv ["U"; "D"; "L"; "R"]%string) moves.
Proof.
  unfold decode. intros H.
  destruct (moves_loop_bounded _ _ _ _ H) as [rest [E [Hlen Hall]]].
  cbn [app] in E. subst rest. rewrite range_length, Z.sub_0_r in Hlen.
  split; assumption.
Qed.

(** X1. Whatever assignment it is given, a plan [decode] returns has at
    most [T] moves, each one of U, D, L, R. *)
Theorem decode_plan_bounded (m : model) (e : SokobanEncoder) (moves : list string) :
  decode m e = Ok moves ->
  (List.length moves <= Z.to_nat (T e))%nat /\
  Forall (fun mv => In mv ["U"; "D"; "L"; "R"]%string) moves.
Proof. exact (decode_bounded m e moves). Qed.

Lemma decode_plan_bounded_witness :
  (List.length ["R"%string] <= Z.to_nat (T Inputs.corridor_encoder))%nat /\
  Forall (fun mv => In mv ["U"; "D"; "L"; "R"]%string) ["R"%string].
Proof.
  apply (decode_plan_bounded Inputs.corridor_push Inputs.corridor_encoder).
  vm_compute. reflexivity.
Defined.




(** ** What [_parse_grid] collects *)

Section Collect.
Variable g : list (list string).

Lemma parse_cell_collects (i j : Z) (c : string) (st : parsed) :
  cell_of g (i, j) = Some c ->
  p_goals (parse_cell i j c st) =
    p_goals st ++ filter (holds_char g "G") [(i, j)] /\
  p_boxes (parse_cell i j c st) =
    p_boxes st ++ filter (holds_char g "B") [(i, j)] /\
  p_walls (parse_cell i j c st) =
    p_walls st ++ filter (holds_char g "#") [(i, j)] /\
  p_player (parse_cell i j c st) =
    latest (filter (holds_char g "P") [(i, j)]) (p_player st).
Proof.
  intros Hc. unfold parse_cell. cbn [filter]. unfold holds_char. rewrite Hc.
  destruct (String.eqb c "G") eqn:EG.
  { apply String.eqb_eq in EG. subst c. cbn.
    now rewrite !app_nil_r. }
  destruct (String.eqb c "B") eqn:EB.
  { apply String.eqb_eq in EB. subst c. cbn.
    now rewrite !app_nil_r. }
  destruct (String.eqb c "P") eqn:EP.
  { apply String.eqb_eq in EP. subst c. cbn.
    now rewrite !app_nil_r. }
  destruct (String.eqb c "#") eqn:EW.
  { apply String.eqb_eq in EW. subst c. cbn.
    now rewrite !app_nil_r. }
  cbn. now rewrite !app_nil_r.
Qed.

Lemma latest_app (l1 l2 : list pos) (d : option pos) :
  latest (l1 ++ l2) d = latest l2 (latest l1 d).
Proof.
  revert d. induction l1 as [|p l1 IH]; intros d; simpl; [reflexivity | apply IH].
Qed.

Lemma parse_row_collects (i : Z) (js : list Z) (st st' : parsed) :
  parse_row g i js st = Ok st' ->
  p_goals st' = p_goals st ++ filter (holds_char g "G") (map (fun j => (i, j)) js) /\
  p_boxes st' = p_boxes st ++ filter (holds_char g "B") (map (fun j => (i, j)) js) /\
  p_walls st' = p_walls st ++ filter (holds_char g "#") (map (fun j => (i, j)) js) /\
  p_player st' =
    latest (filter (holds_char g "P") (map (fun j => (i, j)) js)) (p_player st).
Proof.
  revert st. induction js as [|j js IH]; intros st H; simpl in H.
  - inversion H. subst. cbn. now rewrite !app_nil_r.
  - destruct (get g i) as [row|] eqn:Er; [|discriminate]. cbn [bind] in H.
    destruct (get row j) as [c|] eqn:Ec; [|discriminate]. cbn [bind] in H.
    assert (Hc : cell_of g (i, j) = Some c)
      by (unfold cell_of; cbn [fst snd]; now rewrite Er, Ec).
    destruct (parse_cell_collects i j c st Hc) as [G1 [B1 [W1 P1]]].
    destruct (IH _ H) as [G2 [B2 [W2 P2]]].
    rewrite G2, B2, W2, P2, G1, B1, W1, P1.
    change (map (fun j0 => (i, j0)) (j :: js))
      with ([(i, j)] ++ map (fun j0 => (i, j0)) js).
    rewrite !filter_app, !latest_app, <- !app_assoc. repeat split.
Qed.

Lemma parse_rows_collects (rs : list Z) (cols : Z) (st st' : parsed) :
  parse_rows g rs cols st = Ok st' ->
  let cells := flat_map (fun x => map (fun y => (x, y)) (range 0 cols)) rs in
  p_goals st' = p_goals st ++ filter (holds_char g "G") cells /\
  p_boxes st' = p_boxes st ++ filter (holds_char g "B") cells /\
  p_walls st' = p_walls st ++ filter (holds_char g "#") cells /\
  p_player st' = latest (filter (holds_char g "P") cells) (p_player st).
Proof.
  revert st. induction rs as [|i rs IH]; intros st H; simpl in H.
  - inversion H. subst. cbn. now rewrite !app_nil_r.
  - destruct (parse_row g i (range 0 cols) st) as [st1|] eqn:E1; [|discriminate].
    cbn [bind] in H.
    destruct (parse_row_collects _ _ _ _ E1) as [G1 [B1 [W1 P1]]].
    destruct (IH _ H) as [G2 [B2 [W2 P2]]].
    cbv zeta in *. cbn [flat_map].
    rewrite G2, B2, W2, P2, G1, B1, W1, P1.
    rewrite !filter_app, !latest_app, <- !app_assoc. repeat split.
Qed.

End Collect.

Lemma get_head {A : Type} (l : list A) (a : A) : get l 0 = Ok a <-> hd_error l = Some a.
Proof.
  rewrite get_nonneg by lia. destruct l as [|b l]; simpl; split; congruence.
Qed.

(** X3. The encoder [__init__] builds records the dimensions of the
    layout (the width is that of the first row) and collects, in scan
    order over rows and the first-row width, exactly the cells marked G
    as goals, B as boxes and # as walls; the player's start is the last
    cell marked P, or None when there is none; the clause accumulator
    starts empty. *)
Theorem init_collects (g : list (list string)) (horizon : Z) (e : SokobanEncoder) :
  init g horizon = Ok e ->
  grid e = g /\ T e = horizon /\ N e = len g /\
  (exists row0, hd_error g = Some row0 /\ M e = len row0) /\
  goals e = cells_with g "G" (N e) (M e) /\
  boxes e = cells_with g "B" (N e) (M e) /\
  walls e = cells_with g "#" (N e) (M e) /\
  player_start e = latest (cells_with g "P" (N e) (M e)) None /\
  num_boxes e = len (boxes e) /\ cnf e = [].
Proof.
  unfold init. destruct (get g 0) as [row0|] eqn:E0; [|discriminate].
  cbn [bind]. unfold _parse_grid.
  destruct (parse_rows g (range 0 (len g)) (len row0) (mkParsed [] [] [] None))
    as [st|] eqn:Ep; [|discriminate].
  cbn [bind]. intros H. inversion H. subst e. clear H.
  destruct (parse_rows_collects g _ _ _ _ Ep) as [G1 [B1 [W1 P1]]].
  cbn [grid T N M goals boxes walls player_start num_boxes cnf].
  cbn [p_goals p_boxes p_walls p_player app] in G1, B1, W1, P1.
  repeat split; try assumption.
  exists row0. split; [apply get_head; exact E0 | reflexivity].
Qed.

Lemma init_collects_witness :
  goals Inputs.shifted_encoder = cells_with Inputs.shifted "G" 2 11 /\
  walls Inputs.shifted_encoder = cells_with Inputs.shifted "#" 2 11 /\
  player_start Inputs.shifted_encoder =
    latest (cells_with Inputs.shifted "P" 2 11) None.
Proof.
  destruct (init_collects Inputs.shifted 1 Inputs.shifted_encoder)
    as [_ [_ [_ [_ [Hg [_ [Hw [Hp _]]]]]]]].
  - vm_compute. reflexivity.
  - repeat split; assumption.
Defined.

(** ** The valid positions *)

Lemma NoDup_grid (xs ys : list Z) :
  NoDup xs -> NoDup ys ->
  NoDup (flat_map (fun x => map (fun y => (x, y)) ys) xs).
Proof.
  intros Hx Hy. induction Hx as [|x xs Hnotin Hx IH]; cbn [flat_map].
  - constructor.
  - apply NoDup_app.
    + apply Injective_map_NoDup; [|exact Hy]. intros a b E. now inversion E.
    + exact IH.
    + intros [a b] Hin Hin'. apply in_map_iff in Hin.
      destruct Hin as [y [E _]]. inversion E; subst.
      apply in_flat_map in Hin'. destruct Hin' as [x' [Hx' Hin']].
      apply in_map_iff in Hin'. destruct Hin' as [y' [E' _]].
      inversion E'; subst. contradiction.
Qed.

Lemma NoDup_grid_cells (n cols : Z) : NoDup (grid_cells n cols).
Proof. unfold grid_cells. apply NoDup_grid; apply NoDup_range. Qed.

(** The valid positions are the cells of the grid outside [walls], in
    scan order. *)
Lemma valid_positions_filter (e : SokobanEncoder) :
  valid_positions e =
  filter (fun p => negb (pos_in p (walls e))) (grid_cells (N e) (M e)).
Proof.
  unfold valid_positions, grid_cells.
  induction (range 0 (N e)) as [|i rs IH]; cbn [flat_map]; [reflexivity|].
  rewrite filter_app, IH. f_equal. clear IH.
  induction (range 0 (M e)) as [|j js IHj]; cbn [flat_map map filter];
    [reflexivity|].
  rewrite IHj. destruct (negb (pos_in (i, j) (walls e))); reflexivity.
Qed.

Lemma valid_positions_NoDup (e : SokobanEncoder) : NoDup (valid_positions e).
Proof.
  rewrite valid_positions_filter. apply NoDup_filter, NoDup_grid_cells.
Qed.

(** X4. For an encoder built by [__init__], the valid positions that
    [encode] computes are exactly the cells of the layout not marked #,
    each once, in scan order; in particular the player's start, every box
    and every goal is one of them. *)
Theorem valid_positions_open_cells (g : list (list string)) (horizon : Z)
        (e : SokobanEncoder) :
  init g horizon = Ok e ->
  valid_positions e =
    filter (fun p => negb (holds_char g "#" p)) (grid_cells (N e) (M e)) /\
  NoDup (valid_positions e) /\
  (forall p, player_start e = Some p \/ In p (boxes e) \/ In p (goals e) ->
             In p (valid_positions e)).
Proof.
  intros Hinit.
  destruct (init_well_formed g horizon e Hinit) as [[_ [Hp [Hb Hg]]] _].
  split; [|split].
  - rewrite valid_positions_filter. apply filter_ext_in. intros p Hp'.
    f_equal.
    assert (Hw : walls e = cells_with g "#" (N e) (M e)).
    { unfold init in Hinit.
      destruct (get g 0) as [row0|]; [|discriminate]. cbn [bind] in Hinit.
      unfold _parse_grid in Hinit.
      destruct (parse_rows g (range 0 (len g)) (len row0) (mkParsed [] [] [] None))
        as [st|] eqn:Ep; [|discriminate].
      cbn [bind] in Hinit. inversion Hinit. subst e. clear Hinit.
      destruct (parse_rows_collects g _ _ _ _ Ep) as [_ [_ [W1 _]]].
      exact W1. }
    rewrite Hw. unfold cells_with.
    destruct (holds_char g "#" p) eqn:E.
    + apply pos_in_In. apply filter_In. split; assumption.
    + apply pos_in_false. intros Hin. apply filter_In in Hin.
      destruct Hin as [_ Hin]. congruence.
  - apply valid_positions_NoDup.
  - intros p [H | [H | H]]; [apply Hp | apply Hb | apply Hg]; exact H.
Qed.

Lemma valid_positions_open_cells_witness :
  valid_positions Inputs.walled_encoder =
    filter (fun p => negb (holds_char Inputs.walled "#" p)) (grid_cells 1 4) /\
  NoDup (valid_positions Inputs.walled_encoder).
Proof.
  destruct (valid_positions_open_cells Inputs.walled 1 Inputs.walled_encoder)
    as [H1 [H2 _]].
  - reflexivity.
  - split; assumption.
Defined.

(** ** When [__init__] fails *)

Lemma get_raises {A : Type} (l : list A) (i : Z) (x : exn) :
  get l i = Raise x -> x = IndexError.
Proof.
  unfold get. destruct (_ && _); [destruct (nth_error _ _)|]; congruence.
Qed.

Section ParseOutcome.
Variable g : list (list string).

Lemma parse_row_raises (i : Z) (js : list Z) (st : parsed) (x : exn) :
  parse_row g i js st = Raise x -> x = IndexError.
Proof.
  revert st. induction js as [|j js IH]; intros st H; simpl in H; [discriminate|].
  destruct (get g i) as [row|] eqn:Er; cbn [bind] in H;
    [|inversion H; subst; exact (get_raises _ _ _ Er)].
  destruct (get row j) as [c|] eqn:Ec; cbn [bind] in H;
    [|inversion H; subst; exact (get_raises _ _ _ Ec)].
  exact (IH _ H).
Qed.

Lemma parse_rows_raises (rs : list Z) (cols : Z) (st : parsed) (x : exn) :
  parse_rows g rs cols st = Raise x -> x = IndexError.
Proof.
  revert st. induction rs as [|i rs IH]; intros st H; simpl in H; [discriminate|].
  destruct (parse_row g i (range 0 cols) st) as [st1|] eqn:E1; cbn [bind] in H.
  - exact (IH _ H).
  - inversion H; subst. exact (parse_row_raises _ _ _ _ E1).
Qed.

Lemma parse_row_reads (i : Z) (js : list Z) (st st' : parsed) :
  parse_row g i js st = Ok st' ->
  forall j, In j js -> exists row c, get g i = Ok row /\ get row j = Ok c.
Proof.
  revert st. induction js as [|j js IH]; intros st H k Hk; [contradiction|].
  simpl in H.
  destruct (get g i) as [row|] eqn:Er; [|discriminate]. cbn [bind] in H.
  destruct (get row j) as [c|] eqn:Ec; [|discriminate]. cbn [bind] in H.
  destruct Hk as [<- | Hk].
  - exists row, c. split; [reflexivity | exact Ec].
  - destruct (IH _ H k Hk) as [row' [c' [Hr Hc]]].
    exists row', c'. split; assumption.
Qed.

Lemma parse_rows_reads (rs : list Z) (cols : Z) (st st' : parsed) :
  parse_rows g rs cols st = Ok st' ->
  forall i j, In i rs -> 0 <= j < cols ->
    exists row c, get g i = Ok row /\ get row j = Ok c.
Proof.
  revert st. induction rs as [|i rs IH]; intros st H k j Hk Hj; [contradiction|].
  simpl in H.
  destruct (parse_row g i (range 0 cols) st) as [st1|] eqn:E1; [|discriminate].
  cbn [bind] in H. destruct Hk as [<- | Hk].
  - apply (parse_row_reads _ _ _ _ E1). apply In_range. lia.
  - exact (IH _ H k j Hk Hj).
Qed.

Lemma parse_row_succeeds (i : Z) (js : list Z) (st : parsed) (row : list string) :
  get g i = Ok row -> (forall j, In j js -> 0 <= j < len row) ->
  exists st', parse_row g i js st = Ok st'.
Proof.
  intros Hrow. revert st. induction js as [|j js IH]; intros st Hjs; simpl.
  - now exists st.
  - rewrite Hrow. cbn [bind].
    destruct (get_In row j (Hjs j (or_introl eq_refl))) as [c [-> _]].
    cbn [bind]. apply IH. intros k Hk. apply Hjs. now right.
Qed.

Lemma parse_rows_succeeds (rs : list Z) (cols : Z) (st : parsed) :
  (forall i, In i rs -> 0 <= i < len g) ->
  Forall (fun row => cols <= len row) g ->
  exists st', parse_rows g rs cols st = Ok st'.
Proof.
  intros Hrs Hwide. revert st Hrs.
  induction rs as [|i rs IH]; intros st Hrs; simpl.
  - now exists st.
  - destruct (get_In g i (Hrs i (or_introl eq_refl))) as [row [Hrow Hin]].
    pose proof (proj1 (Forall_forall _ g) Hwide row Hin) as Hw. cbv beta in Hw.
    destruct (parse_row_succeeds i (range 0 cols) st row Hrow) as [st1 ->].
    + intros j Hj. apply In_range in Hj. lia.
    + cbn [bind]. apply IH. intros k Hk. apply Hrs. now right.
Qed.

End ParseOutcome.

(** X5. [__init__] succeeds exactly on a layout that has a first row
    and no row shorter than it (longer rows are accepted); on any other
    layout it raises IndexError, and it raises nothing else. *)
Theorem init_outcome (g : list (list string)) (horizon : Z) :
  ((exists e, init g horizon = Ok e) <->
   (exists row0, hd_error g = Some row0 /\
                 Forall (fun row => len row0 <= len row) g)) /\
  (forall x, init g horizon = Raise x -> x = IndexError).
Proof.
  split; [split|].
  - intros [e He]. unfold init in He.
    destruct (get g 0) as [row0|] eqn:E0; [|discriminate]. cbn [bind] in He.
    unfold _parse_grid in He.
    destruct (parse_rows g (range 0 (len g)) (len row0) (mkParsed [] [] [] None))
      as [st|] eqn:Ep; [|discriminate].
    exists row0. split; [apply get_head; exact E0|].
    apply Forall_forall. intros row Hin.
    destruct (Z.lt_ge_cases (len row) (len row0)) as [Hshort | Hok]; [exfalso | lia].
    destruct (In_nth_error _ _ Hin) as [k Hk].
    assert (Hklt : (k < List.length g)%nat)
      by (apply nth_error_Some; congruence).
    destruct (parse_rows_reads g _ _ _ _ Ep (Z.of_nat k) (len row))
      as [row' [c [Hr Hc]]].
    + apply In_range. unfold len. lia.
    + unfold len in *. lia.
    + rewrite get_nonneg in Hr by lia. rewrite Nat2Z.id, Hk in Hr.
      inversion Hr. subst row'.
      apply get_Ok_bound in Hc; [lia | unfold len; lia].
  - intros [row0 [Hhd Hwide]]. unfold init.
    apply get_head in Hhd. rewrite Hhd. cbn [bind]. unfold _parse_grid.
    destruct (parse_rows_succeeds g (range 0 (len g)) (len row0)
                (mkParsed [] [] [] None)) as [st ->].
    + intros i Hi. apply In_range in Hi. lia.
    + exact Hwide.
    + cbn [bind]. eexists. reflexivity.
  - intros x H. unfold init in H.
    destruct (get g 0) as [row0|] eqn:E0; cbn [bind] in H;
      [|inversion H; subst; exact (get_raises _ _ _ E0)].
    unfold _parse_grid in H.
    destruct (parse_rows g (range 0 (len g)) (len row0) (mkParsed [] [] [] None))
      as [st|] eqn:Ep; cbn [bind] in H; [discriminate|].
    inversion H; subst. exact (parse_rows_raises g _ _ _ _ Ep).
Qed.

(** ** The variable numbering within its digits *)

(** X7. On a grid of at most 10 rows and 10 columns with a horizon of
    at most 98, the numbering is faithful: two player variables, or two
    box variables, are equal only when they name the same box, cell and
    time, and no player variable is a box variable. All of them are
    positive, so none is the literal 0. *)
Theorem packing_injective_within_digits (e : SokobanEncoder) :
  N e <= 10 -> M e <= 10 -> T e <= 98 ->
  forall x y t x' y' t' b b',
    0 <= x < N e -> 0 <= y < M e -> 0 <= t <= T e ->
    0 <= x' < N e -> 0 <= y' < M e -> 0 <= t' <= T e ->
    0 <= b -> 0 <= b' ->
    (var_player x y t = var_player x' y' t' -> (x, y, t) = (x', y', t')) /\
    (var_box b x y t = var_box b' x' y' t' -> (b, x, y, t) = (b', x', y', t')) /\
    var_player x y t <> var_box b x' y' t' /\
    0 < var_player x y t /\ 0 < var_box b x y t.
Proof.
  intros HN HM HT x y t x' y' t' b b' Hx Hy Ht Hx' Hy' Ht' Hb Hb'.
  split; [|split; [|split; [|split]]].
  - intros E. apply var_player_injective in E; try lia.
    destruct E as [-> [-> ->]]. reflexivity.
  - intros E. apply var_box_injective in E; try lia.
    destruct E as [-> [-> [-> ->]]]. reflexivity.
  - apply var_player_box_distinct; lia.
  - unfold var_player. lia.
  - unfold var_box. lia.
Qed.

Lemma packing_injective_within_digits_witness :
  var_player 0 1 0 <> var_box 0 0 2 1 /\
  (var_box 0 0 1 0 = var_box 0 0 1 0 -> (0, 0, 1, 0) = (0, 0, 1, 0)).
Proof.
  destruct (packing_injective_within_digits Inputs.corridor_encoder)
    with (x := 0) (y := 1) (t := 0) (x' := 0) (y' := 2) (t' := 1)
         (b := 0) (b' := 0) as [_ [_ [H _]]];
    try (cbn; lia).
  split; [exact H|].
  destruct (packing_injective_within_digits Inputs.corridor_encoder)
    with (x := 0) (y := 1) (t := 0) (x' := 0) (y' := 1) (t' := 0)
         (b := 0) (b' := 0) as [_ [H' _]];
    try (cbn; lia).
  exact H'.
Defined.

(** ** The clauses of a stored Sudoku grid *)

Section GivenClauses.
Variables (h : Sudoku.heap) (g : Sudoku.val) (ent : Z -> Z -> Z).

Lemma given_row_exact (row : Z) (columns : list Z) (acc : CNF) :
  (forall c, In c columns -> Sudoku.cell h g row c = Ok (ent row c)) ->
  Sudoku.given_row h g row columns acc =
  Ok (acc ++ flat_map (fun c => if ent row c =? 0 then []
                                else [[Sudoku.var (row + 1) (c + 1) (ent row c)]])
                      columns).
Proof.
  revert acc. induction columns as [|c cs IH]; intros acc Hcs; simpl.
  - now rewrite app_nil_r.
  - rewrite (Hcs c (or_introl eq_refl)). cbn [bind].
    rewrite IH by (intros; apply Hcs; now right).
    destruct (ent row c =? 0); [reflexivity|].
    now rewrite <- app_assoc.
Qed.

Lemma given_rows_exact (rows : list Z) (n : Z) (acc : CNF) :
  (forall r c, In r rows -> 0 <= c < n -> Sudoku.cell h g r c = Ok (ent r c)) ->
  Sudoku.given_rows h g rows n acc =
  Ok (acc ++ flat_map (fun r =>
                flat_map (fun c => if ent r c =? 0 then []
                                   else [[Sudoku.var (r + 1) (c + 1) (ent r c)]])
                         (range 0 n))
              rows).
Proof.
  revert acc. induction rows as [|r rs IH]; intros acc Hrs; simpl.
  - now rewrite app_nil_r.
  - rewrite given_row_exact
      by (intros c Hc; apply In_range in Hc; apply Hrs; [now left | lia]).
    cbn [bind]. rewrite IH by (intros; apply Hrs; [now right | assumption]).
    now rewrite <- app_assoc.
Qed.

End GivenClauses.

(** The clause set of a stored [n] x [n] grid, family by family. *)
Lemma encode_stored_exact (h0 : Sudoku.heap) (n : Z) (mat : list (list Z)) :
  Sudoku.square (Z.to_nat n) mat -> 1 <= n ->
  exists bl,
    Sudoku.subgrid_clauses n (Sudoku.int_sqrt n) = Ok bl /\
    Sudoku.encode (Sudoku.shape h0 mat)
                  (Sudoku.VList (List.length h0 + Z.to_nat n)) =
    Ok (n, Sudoku.row_clauses n ++ Sudoku.column_clauses n ++ bl
           ++ Sudoku.cell_clauses n ++ Sudoku.given_clauses n mat).
Proof.
  intros Hsq Hn.
  assert (Hrows : Sudoku.deref (Sudoku.shape h0 mat)
                    (Sudoku.VList (List.length h0 + Z.to_nat n)) =
                  Ok (map Sudoku.VList (seq (List.length h0) (Z.to_nat n)))).
  { destruct Hsq as [Hlen _]. rewrite <- Hlen. apply shape_outer. }
  assert (Hsize : len (map Sudoku.VList (seq (List.length h0) (Z.to_nat n))) = n)
    by (unfold len; rewrite length_map, length_seq; lia).
  unfold Sudoku.encode. rewrite Hrows. cbn [bind]. rewrite Hsize.
  assert (Hs : 0 < Sudoku.int_sqrt n)
    by (unfold Sudoku.int_sqrt; apply Z.sqrt_pos; lia).
  destruct (Sudoku.subgrid_clauses n (Sudoku.int_sqrt n)) as [bl|x] eqn:Ebl.
  - exists bl. split; [reflexivity|]. cbn [bind].
    rewrite (given_rows_exact _ _
               (fun r c => nth (Z.to_nat c) (nth (Z.to_nat r) mat []) 0)).
    + cbn [bind]. unfold Sudoku.given_clauses.
      now rewrite <- !app_assoc.
    + intros r c Hr Hc. apply In_range in Hr.
      replace r with (Z.of_nat (Z.to_nat r)) at 1 by lia.
      replace c with (Z.of_nat (Z.to_nat c)) at 1 by lia.
      apply cell_square; [exact Hsq | lia | lia].
  - exfalso. unfold Sudoku.subgrid_clauses, range_step in Ebl.
    destruct (Sudoku.int_sqrt n =? 0) eqn:E0; [apply Z.eqb_eq in E0; lia|].
    destruct (Sudoku.int_sqrt n <? 0); discriminate.
Qed.

(** ** Reading a stored matrix back *)

Lemma read_cells (row : list Z) :
  fold_right (fun v acc =>
                zs <- acc ;;
                match v with
                | Sudoku.VInt z => Ok (z :: zs)
                | Sudoku.VList _ => Raise TypeError
                end)
             (Ok []) (map Sudoku.VInt row) = Ok row.
Proof.
  induction row as [|z row IH]; simpl; [reflexivity|]. now rewrite IH.
Qed.

Lemma read_rows_shape (h0 : Sudoku.heap) (mat : list (list Z)) (l : list nat) :
  (forall i, In i l -> (i < List.length mat)%nat) ->
  fold_right (fun r acc =>
                rest <- acc ;;
                zs <- Sudoku.read_row (Sudoku.shape h0 mat) r ;;
                Ok (zs :: rest))
             (Ok []) (map (fun i => Sudoku.VList (List.length h0 + i)) l) =
  Ok (map (fun i => nth i mat []) l).
Proof.
  induction l as [|i l IH]; intros Hl; simpl; [reflexivity|].
  rewrite IH by (intros; apply Hl; now right). cbn [bind].
  unfold Sudoku.read_row. rewrite shape_row by (apply Hl; now left).
  cbn [bind]. rewrite read_cells. reflexivity.
Qed.

Lemma map_nth_all {A : Type} (l : list A) (d : A) :
  map (fun i => nth i l d) (seq 0 (List.length l)) = l.
Proof.
  apply (nth_ext _ _ d d).
  - now rewrite length_map, length_seq.
  - intros k Hk. rewrite length_map, length_seq in Hk.
    rewrite (nth_indep _ d (nth 0 l d)) by (now rewrite length_map, length_seq).
    pose proof (map_nth (fun i => nth i l d) (seq 0 (List.length l)) 0%nat k) as E.
    cbv beta in E. rewrite E, seq_nth by exact Hk. reflexivity.
Qed.

Lemma read_matrix_shape (h0 : Sudoku.heap) (mat : list (list Z)) :
  Sudoku.read_matrix (Sudoku.shape h0 mat)
                     (Sudoku.VList (List.length h0 + List.length mat)) = Ok mat.
Proof.
  unfold Sudoku.read_matrix. rewrite shape_outer. cbn [bind].
  replace (map Sudoku.VList (seq (List.length h0) (List.length mat)))
    with (map (fun i => Sudoku.VList (List.length h0 + i))
              (seq 0 (List.length mat))).
  - rewrite read_rows_shape by (intros i Hi; apply in_seq in Hi; lia).
    now rewrite map_nth_all.
  - rewrite <- (map_map (fun i => (List.length h0 + i)%nat) Sudoku.VList).
    f_equal.
    assert (Hshift : forall k s, map (fun i => (List.length h0 + i)%nat) (seq s k) =
                                 seq (List.length h0 + s) k).
    { induction k as [|k IH]; intros s; cbn [seq map]; [reflexivity|].
      f_equal. rewrite IH. f_equal. lia. }
    rewrite Hshift. f_equal. lia.
Qed.

(** ** The answer decoded from a model *)

Lemma digits_of (value : Z) :
  value = Sudoku.var (value / 100) ((value / 10) mod 10) (value mod 10).
Proof. unfold Sudoku.var. Z.div_mod_to_equations. lia. Qed.

(** When every literal of the model that is written to a cell carries
    the same value, and one is written or the cell holds it already, the
    cell holds that value in the end. *)
Lemma fill_matrix_value (n : Z) (m : model) (mat : list (list Z)) (i j : nat) (v : Z) :
  Sudoku.square (Z.to_nat n) mat -> (i < Z.to_nat n)%nat -> (j < Z.to_nat n)%nat ->
  (forall value, In value m -> Sudoku.written n value i j -> value mod 10 = v) ->
  nth j (nth i mat []) 0 = v \/
  (exists value, In value m /\ Sudoku.written n value i j) ->
  nth j (nth i (Sudoku.fill_matrix n mat m) []) 0 = v.
Proof.
  intros Hsq Hi Hj. revert mat Hsq.
  induction m as [|value rest IH]; intros mat Hsq Huniq H; simpl.
  - destruct H as [H | [v0 [[] _]]]. exact H.
  - assert (Hrest : forall value0, In value0 rest ->
                      Sudoku.written n value0 i j -> value0 mod 10 = v)
      by (intros; apply Huniq; [now right | assumption]).
    assert (Hskip : ~ Sudoku.written n value i j ->
                    nth j (nth i mat []) 0 = v \/
                    exists value0, In value0 rest /\ Sudoku.written n value0 i j).
    { intros Hnot. destruct H as [H | [v0 [[<- | Hin] Hv]]];
        [now left | contradiction | right; exists v0; split; assumption]. }
    destruct (value >? 0) eqn:Epos.
    + destruct ((1 <=? value / 100) && (value / 100 <=? n)
                && (1 <=? (value / 10) mod 10) && ((value / 10) mod 10 <=? n)
                && (1 <=? value mod 10) && (value mod 10 <=? n)) eqn:G.
      * repeat (apply andb_true_iff in G; destruct G as [G ?]).
        repeat match goal with
               | H : (_ <=? _) = true |- _ => apply Z.leb_le in H
               end.
        rewrite Z.gtb_ltb in Epos. apply Z.ltb_lt in Epos.
        apply IH; [apply set_cell_square; [exact Hsq | lia] | exact Hrest |].
        destruct (Nat.eq_dec (Z.to_nat (value / 100 - 1)) i) as [Ei | Ei];
          [destruct (Nat.eq_dec (Z.to_nat ((value / 10) mod 10 - 1)) j) as [Ej | Ej]|].
        -- left. rewrite Ei, Ej.
           rewrite (set_cell_same (Z.to_nat n)) by assumption.
           apply Huniq; [now left|]. unfold Sudoku.written.
           repeat split; lia || assumption.
        -- destruct Hskip as [Hk | Hk].
           ++ intros [_ [_ [_ [_ [_ Hw]]]]]. contradiction.
           ++ left. rewrite set_cell_other_column by congruence. exact Hk.
           ++ right. exact Hk.
        -- destruct Hskip as [Hk | Hk].
           ++ intros [_ [_ [_ [_ [Hw _]]]]]. contradiction.
           ++ left. rewrite set_cell_other_row by congruence. exact Hk.
           ++ right. exact Hk.
      * apply IH; [exact Hsq | exact Hrest|]. apply Hskip.
        intros [Hp [[? ?] [[? ?] [[? ?] _]]]].
        repeat (apply andb_false_iff in G; destruct G as [G | G]);
          try (apply Z.leb_gt in G; lia).
    + apply IH; [exact Hsq | exact Hrest|]. apply Hskip.
      intros [Hp _]. rewrite Z.gtb_ltb in Epos. apply Z.ltb_ge in Epos. lia.
Qed.

Lemma square_entry_range (k : nat) (n : Z) (mat : list (list Z)) (r c : Z) :
  Sudoku.square k mat -> Forall (Forall (fun v => 0 <= v <= n)) mat ->
  0 <= r < Z.of_nat k -> 0 <= c < Z.of_nat k ->
  0 <= Reference.entry mat r c <= n.
Proof.
  intros [Hlen Hrows] Hrange Hr Hc. unfold Reference.entry.
  assert (Hin : In (nth (Z.to_nat r) mat []) mat) by (apply nth_In; lia).
  pose proof (proj1 (Forall_forall _ mat) Hrows _ Hin) as Hl. cbv beta in Hl.
  pose proof (proj1 (Forall_forall _ mat) Hrange _ Hin) as Hv. cbv beta in Hv.
  apply (proj1 (Forall_forall _ _) Hv). apply nth_In. lia.
Qed.

Section SudokuAnswer.
Variables (n : Z) (f : CNF) (m : model).
Hypothesis Hn : 1 <= n <= 9.
Hypothesis Hm : is_model m f = true.
Hypothesis Hcellsf : incl (Sudoku.cell_clauses n) f.

(** A variable of the model names the value its cell gets. *)
Lemma answer_entry (r c num : Z) :
  1 <= r <= n -> 1 <= c <= n -> 1 <= num <= n -> In (Sudoku.var r c num) m ->
  Reference.entry (Sudoku.answer n m) (r - 1) (c - 1) = num.
Proof.
  intros Hr Hc Hnum Hin. unfold Reference.entry, Sudoku.answer.
  apply fill_matrix_value; [apply zeros_square | lia | lia | |].
  - intros value Hv [Hp [Hr' [Hc' [Hnum' [Er Ec]]]]].
    assert (E1 : value / 100 = r) by lia.
    assert (E2 : (value / 10) mod 10 = c) by lia.
    pose proof (digits_of value) as D. rewrite E1, E2 in D.
    apply (one_value_per_cell n f m Hm Hcellsf r c (value mod 10) num);
      try lia; [|exact Hin].
    rewrite <- D. exact Hv.
  - right. exists (Sudoku.var r c num). split; [exact Hin|].
    destruct (sudoku_var_decode r c num) as [D1 [D2 D3]]; try lia.
    unfold Sudoku.written. rewrite D1, D2, D3.
    repeat split; try lia. unfold Sudoku.var. lia.
Qed.

Lemma answer_rows (r : Z) :
  incl (Sudoku.row_clauses n) f -> 0 <= r < n ->
  Reference.holds_all n (map (Reference.entry (Sudoku.answer n m) r) (range 0 n)) = true.
Proof.
  intros Hrowsf Hr. unfold Reference.holds_all. apply forallb_forall.
  intros num Hnum. apply In_range in Hnum. apply mem_In.
  assert (Hc : In (map (fun column => Sudoku.var (r + 1) column num) (range 1 (n + 1))) f).
  { apply Hrowsf. unfold Sudoku.row_clauses. apply in_flat_map.
    exists (r + 1). split; [apply In_range; lia|].
    apply in_map_iff. exists num. split; [reflexivity | apply In_range; lia]. }
  destruct (model_clause m f _ Hm Hc) as [l [Hl Hlm]].
  apply in_map_iff in Hl. destruct Hl as [c [<- Hc']]. apply In_range in Hc'.
  apply in_map_iff. exists (c - 1). split; [|apply In_range; lia].
  replace r with (r + 1 - 1) at 1 by lia.
  apply answer_entry; assumption || lia.
Qed.

Lemma answer_columns (c : Z) :
  incl (Sudoku.column_clauses n) f -> 0 <= c < n ->
  Reference.holds_all n
    (map (fun r => Reference.entry (Sudoku.answer n m) r c) (range 0 n)) = true.
Proof.
  intros Hcolsf Hc. unfold Reference.holds_all. apply forallb_forall.
  intros num Hnum. apply In_range in Hnum. apply mem_In.
  assert (Hcl : In (map (fun row => Sudoku.var row (c + 1) num) (range 1 (n + 1))) f).
  { apply Hcolsf. unfold Sudoku.column_clauses. apply in_flat_map.
    exists (c + 1). split; [apply In_range; lia|].
    apply in_map_iff. exists num. split; [reflexivity | apply In_range; lia]. }
  destruct (model_clause m f _ Hm Hcl) as [l [Hl Hlm]].
  apply in_map_iff in Hl. destruct Hl as [r [<- Hr']]. apply In_range in Hr'.
  apply in_map_iff. exists (r - 1). split; [|apply In_range; lia].
  replace c with (c + 1 - 1) at 1 by lia.
  apply answer_entry; assumption || lia.
Qed.

Lemma answer_blocks (bl : CNF) (br bc : Z) :
  Sudoku.subgrid_clauses n (Sudoku.int_sqrt n) = Ok bl -> incl bl f ->
  0 <= br < Sudoku.int_sqrt n -> 0 <= bc < Sudoku.int_sqrt n ->
  Reference.holds_all n
    (flat_map (fun dr =>
       map (fun dc => Reference.entry (Sudoku.answer n m)
                        (Sudoku.int_sqrt n * br + dr) (Sudoku.int_sqrt n * bc + dc))
           (range 0 (Sudoku.int_sqrt n)))
       (range 0 (Sudoku.int_sqrt n))) = true.
Proof.
  intros Hbl Hblf Hbr Hbc.
  set (s := Sudoku.int_sqrt n) in *.
  assert (Hs : s * s <= n) by (apply (Z.sqrt_spec n); lia).
  assert (Hstart : forall b, 0 <= b < s ->
            exists starts, range_step 1 (n + 1) s = Ok starts /\ In (1 + s * b) starts).
  { intros b Hb. unfold range_step.
    destruct (s =? 0) eqn:E0; [apply Z.eqb_eq in E0; lia|].
    destruct (s <? 0) eqn:E1; [apply Z.ltb_lt in E1; lia|].
    eexists. split; [reflexivity|].
    apply in_map_iff. exists (Z.to_nat b). split; [f_equal; lia|].
    apply in_seq.
    assert (s <= (n + 1 - 1 + s - 1) / s) by (apply Z.div_le_lower_bound; nia).
    lia. }
  unfold Reference.holds_all. apply forallb_forall.
  intros num Hnum. apply In_range in Hnum. apply mem_In.
  destruct (Hstart br Hbr) as [starts [Est Hrs]].
  destruct (Hstart bc Hbc) as [starts' [Est' Hcs]].
  rewrite Est in Est'. inversion Est'. subst starts'. clear Est'.
  unfold Sudoku.subgrid_clauses in Hbl. fold s in Hbl. rewrite Est in Hbl.
  cbn [bind] in Hbl. inversion Hbl as [Ebl]. clear Hbl.
  assert (Hcl : In (flat_map (fun dr =>
                      map (fun dc => Sudoku.var (1 + s * br + dr) (1 + s * bc + dc) num)
                          (range 0 s)) (range 0 s)) f).
  { apply Hblf. rewrite <- Ebl. apply in_flat_map.
    exists (1 + s * br). split; [exact Hrs|].
    apply in_flat_map. exists (1 + s * bc). split; [exact Hcs|].
    apply in_map_iff. exists num. split; [reflexivity | apply In_range; lia]. }
  destruct (model_clause m f _ Hm Hcl) as [l [Hl Hlm]].
  apply in_flat_map in Hl. destruct Hl as [dr [Hdr Hl]].
  apply in_map_iff in Hl. destruct Hl as [dc [<- Hdc]].
  apply In_range in Hdr. apply In_range in Hdc.
  apply in_flat_map. exists dr. split; [apply In_range; lia|].
  apply in_map_iff. exists dc. split; [|apply In_range; lia].
  replace (s * br + dr) with (1 + s * br + dr - 1) by lia.
  replace (s * bc + dc) with (1 + s * bc + dc - 1) by lia.
  apply answer_entry; try assumption; nia.
Qed.

Lemma answer_completes (mat : list (list Z)) :
  Sudoku.square (Z.to_nat n) mat ->
  Forall (Forall (fun v => 0 <= v <= n)) mat ->
  incl (Sudoku.given_clauses n mat) f ->
  Reference.completes n (Sudoku.answer n m) mat = true.
Proof.
  intros Hsq Hrange Hgivf. unfold Reference.completes.
  apply forallb_forall. intros r Hr. apply forallb_forall. intros c Hc.
  apply In_range in Hr. apply In_range in Hc.
  destruct (Reference.entry mat r c =? 0) eqn:E0; [reflexivity|].
  cbn [orb]. apply Z.eqb_eq. apply Z.eqb_neq in E0.
  pose proof (square_entry_range _ n mat r c Hsq Hrange) as Hv.
  symmetry.
  replace r with (r + 1 - 1) at 1 by lia.
  replace c with (c + 1 - 1) at 1 by lia.
  apply answer_entry; try lia.
  apply (model_unit m f _ Hm). apply Hgivf.
  unfold Sudoku.given_clauses. apply in_flat_map.
  exists r. split; [apply In_range; lia|].
  apply in_flat_map. exists c. split; [apply In_range; lia|].
  fold (Reference.entry mat r c).
  destruct (Reference.entry mat r c =? 0) eqn:E; [apply Z.eqb_eq in E; lia|].
  now left.
Qed.

End SudokuAnswer.

Lemma answer_square (n : Z) (m : model) :
  Sudoku.square (Z.to_nat n) (Sudoku.answer n m).
Proof.
  destruct (fill_shape [] n m (Sudoku.zeros n) (zeros_square n)) as [_ H].
  exact H.
Qed.

(** What a model of the clauses of a stored grid decodes to. *)
Lemma answer_is_solution (h0 : Sudoku.heap) (n : Z) (mat : list (list Z))
      (f : CNF) (m : model) :
  Sudoku.square (Z.to_nat n) mat -> 1 <= n <= 9 ->
  Forall (Forall (fun v => 0 <= v <= n)) mat ->
  Sudoku.encode (Sudoku.shape h0 mat)
                (Sudoku.VList (List.length h0 + Z.to_nat n)) = Ok (n, f) ->
  is_model m f = true ->
  Reference.is_solution n (Sudoku.int_sqrt n) (Sudoku.answer n m) = true /\
  Reference.completes n (Sudoku.answer n m) mat = true.
Proof.
  intros Hsq Hn Hrange He Hm.
  destruct (encode_stored_exact h0 n mat Hsq) as [bl [Hbl He']]; [lia|].
  rewrite He' in He. inversion He as [Ef]. clear He He'.
  assert (I1 : incl (Sudoku.row_clauses n) f)
    by (subst f; intros c Hc; apply in_or_app; now left).
  assert (I2 : incl (Sudoku.column_clauses n) f)
    by (subst f; intros c Hc; apply in_or_app; right; apply in_or_app; now left).
  assert (I3 : incl bl f)
    by (subst f; intros c Hc; do 2 (apply in_or_app; right);
        apply in_or_app; now left).
  assert (I4 : incl (Sudoku.cell_clauses n) f)
    by (subst f; intros c Hc; do 3 (apply in_or_app; right);
        apply in_or_app; now left).
  assert (I5 : incl (Sudoku.given_clauses n mat) f)
    by (subst f; intros c Hc; do 4 (apply in_or_app; right); exact Hc).
  clear Ef. split.
  - destruct (answer_square n m) as [Hlen Hrows].
    unfold Reference.is_solution. repeat (apply andb_true_iff; split).
    + apply Z.eqb_eq. unfold len. lia.
    + apply forallb_forall. intros row Hrow. apply Z.eqb_eq.
      pose proof (proj1 (Forall_forall _ _) Hrows row Hrow) as Hl.
      cbv beta in Hl. unfold len. lia.
    + apply forallb_forall. intros r Hr. apply In_range in Hr.
      apply (answer_rows n f m Hn Hm I4 r I1). lia.
    + apply forallb_forall. intros c Hc. apply In_range in Hc.
      apply (answer_columns n f m Hn Hm I4 c I2). lia.
    + apply forallb_forall. intros br Hbr. apply forallb_forall. intros bc Hbc.
      apply In_range in Hbr. apply In_range in Hbc.
      apply (answer_blocks n f m Hn Hm I4 bl br bc Hbl I3); lia.
  - apply (answer_completes n f m Hn Hm I4 mat Hsq Hrange I5).
Qed.

(** X8. Soundness of [solve_sudoku] on grids of side at most 9: for a
    stored [n] x [n] grid with cells in [0..n] and a sound solver that
    returns a model, the call returns a matrix in which every row, every
    column and every block of side [int(sqrt(n))] holds each of [1..n],
    and which agrees with the grid on every given cell. *)
Theorem sudoku_answer_is_solution (solver : CNF -> option model)
        (h0 h : Sudoku.heap) (g : Sudoku.val) (n : Z) (mat : list (list Z))
        (f : CNF) (m : model) :
  Sudoku.square (Z.to_nat n) mat -> 1 <= n <= 9 ->
  Forall (Forall (fun v => 0 <= v <= n)) mat ->
  Sudoku.store_matrix h0 mat = (h, g) ->
  sound solver -> Sudoku.encode h g = Ok (n, f) -> solver f = Some m ->
  exists h' v sol,
    Sudoku.solve_sudoku solver h g = (h', Ok v) /\
    Sudoku.read_matrix h' v = Ok sol /\
    Reference.is_solution n (Sudoku.int_sqrt n) sol = true /\
    Reference.completes n sol mat = true.
Proof.
  intros Hsq Hn Hrange Hst Hsound He Hs.
  rewrite store_matrix_shape in Hst. inversion Hst. subst h g. clear Hst.
  destruct Hsq as [Hlen Hrows]. rewrite Hlen in *.
  rewrite (solve_sudoku_sat solver _ _ n f m He Hs).
  do 2 eexists. exists (Sudoku.answer n m). split; [reflexivity|]. split.
  - destruct (answer_square n m) as [Hl _].
    pose proof (read_matrix_shape (Sudoku.shape h0 mat) (Sudoku.answer n m)) as R.
    rewrite Hl in R. exact R.
  - apply (answer_is_solution h0 n mat f m); try assumption.
    + split; assumption.
    + apply Hsound. exact Hs.
Qed.

Lemma sudoku_answer_is_solution_witness :
  exists h' v sol,
    Sudoku.solve_sudoku (proposing (Reference.model_for 4 Inputs.solution4))
      (fst Inputs.puzzle4_stored) (snd Inputs.puzzle4_stored) = (h', Ok v) /\
    Sudoku.read_matrix h' v = Ok sol /\
    Reference.is_solution 4 (Sudoku.int_sqrt 4) sol = true /\
    Reference.completes 4 sol Inputs.puzzle4 = true.
Proof.
  apply (sudoku_answer_is_solution
           (proposing (Reference.model_for 4 Inputs.solution4)) []
           (fst Inputs.puzzle4_stored) (snd Inputs.puzzle4_stored) 4
           Inputs.puzzle4 Inputs.puzzle4_cnf
           (Reference.model_for 4 Inputs.solution4)).
  - split; [reflexivity | repeat constructor].
  - lia.
  - repeat constructor; lia.
  - reflexivity.
  - apply proposing_sound.
  - vm_compute. reflexivity.
  - vm_compute. reflexivity.
Defined.

(** ** A solution is a model, and is decoded to itself *)

Lemma square_ext (k : nat) (a b : list (list Z)) :
  Sudoku.square k a -> Sudoku.square k b ->
  (forall i j, (i < k)%nat -> (j < k)%nat ->
               nth j (nth i a []) 0 = nth j (nth i b []) 0) ->
  a = b.
Proof.
  intros [La Ra] [Lb Rb] H. apply (nth_ext _ _ [] []); [congruence|].
  intros i Hi.
  assert (Ha : List.length (nth i a []) = k)
    by (apply (proj1 (Forall_forall _ a) Ra); apply nth_In; lia).
  assert (Hb : List.length (nth i b []) = k)
    by (apply (proj1 (Forall_forall _ b) Rb); apply nth_In; lia).
  apply (nth_ext _ _ 0 0); [congruence|].
  intros j Hj. apply H; lia.
Qed.

Section SudokuModel.
Variables (n : Z) (sol : list (list Z)).
Hypothesis Hn : 1 <= n <= 9.
Hypothesis Hsol : Reference.is_solution n (Sudoku.int_sqrt n) sol = true.

Lemma solution_square : Sudoku.square (Z.to_nat n) sol.
Proof.
  unfold Reference.is_solution in Hsol.
  repeat (apply andb_true_iff in Hsol; destruct Hsol as [Hsol ?]).
  apply Z.eqb_eq in Hsol. unfold len in Hsol. split; [lia|].
  apply Forall_forall. intros row Hrow.
  match goal with
  | H : forallb (fun row => len row =? n) sol = true |- _ =>
      pose proof (proj1 (forallb_forall _ _) H row Hrow) as Hl
  end.
  cbv beta in Hl. apply Z.eqb_eq in Hl. unfold len in Hl. lia.
Qed.

Lemma solution_rows (r num : Z) :
  0 <= r < n -> 1 <= num <= n ->
  exists c, 0 <= c < n /\ Reference.entry sol r c = num.
Proof.
  intros Hr Hnum. unfold Reference.is_solution in Hsol.
  repeat (apply andb_true_iff in Hsol; destruct Hsol as [Hsol ?]).
  match goal with
  | H : forallb (fun r => Reference.holds_all n (map (Reference.entry sol r) _)) _
        = true |- _ =>
      pose proof (proj1 (forallb_forall _ _) H r) as Hrow
  end.
  cbv beta in Hrow. specialize (Hrow (proj2 (In_range 0 n r) Hr)).
  unfold Reference.holds_all in Hrow.
  pose proof (proj1 (forallb_forall _ _) Hrow num) as Hin. cbv beta in Hin.
  specialize (Hin (proj2 (In_range 1 (n + 1) num) ltac:(lia))).
  apply mem_In, in_map_iff in Hin. destruct Hin as [c [E Hc]].
  apply In_range in Hc. exists c. split; [lia | exact E].
Qed.

Lemma solution_columns (c num : Z) :
  0 <= c < n -> 1 <= num <= n ->
  exists r, 0 <= r < n /\ Reference.entry sol r c = num.
Proof.
  intros Hc Hnum. unfold Reference.is_solution in Hsol.
  repeat (apply andb_true_iff in Hsol; destruct Hsol as [Hsol ?]).
  match goal with
  | H : forallb (fun c => Reference.holds_all n
                            (map (fun r => Reference.entry sol r c) _)) _ = true |- _ =>
      pose proof (proj1 (forallb_forall _ _) H c) as Hcol
  end.
  cbv beta in Hcol. specialize (Hcol (proj2 (In_range 0 n c) Hc)).
  unfold Reference.holds_all in Hcol.
  pose proof (proj1 (forallb_forall _ _) Hcol num) as Hin. cbv beta in Hin.
  specialize (Hin (proj2 (In_range 1 (n + 1) num) ltac:(lia))).
  apply mem_In, in_map_iff in Hin. destruct Hin as [r [E Hr]].
  apply In_range in Hr. exists r. split; [lia | exact E].
Qed.

Lemma solution_blocks (br bc num : Z) :
  0 <= br < Sudoku.int_sqrt n -> 0 <= bc < Sudoku.int_sqrt n -> 1 <= num <= n ->
  exists dr dc, 0 <= dr < Sudoku.int_sqrt n /\ 0 <= dc < Sudoku.int_sqrt n /\
    Reference.entry sol (Sudoku.int_sqrt n * br + dr) (Sudoku.int_sqrt n * bc + dc) = num.
Proof.
  intros Hbr Hbc Hnum. unfold Reference.is_solution in Hsol.
  apply andb_true_iff in Hsol. destruct Hsol as [_ Hblocks].
  pose proof (proj1 (forallb_forall _ _) Hblocks br) as H1. cbv beta in H1.
  specialize (H1 (proj2 (In_range 0 _ br) Hbr)).
  pose proof (proj1 (forallb_forall _ _) H1 bc) as H2. cbv beta in H2.
  specialize (H2 (proj2 (In_range 0 _ bc) Hbc)).
  unfold Reference.holds_all in H2.
  pose proof (proj1 (forallb_forall _ _) H2 num) as Hin. cbv beta in Hin.
  specialize (Hin (proj2 (In_range 1 (n + 1) num) ltac:(lia))).
  apply mem_In, in_flat_map in Hin. destruct Hin as [dr [Hdr Hin]].
  apply in_map_iff in Hin. destruct Hin as [dc [E Hdc]].
  apply In_range in Hdr. apply In_range in Hdc.
  exists dr, dc. repeat split; lia || exact E.
Qed.

(** [n] cells that hold each of [1..n] hold nothing else. *)
Lemma solution_entries (r c : Z) :
  0 <= r < n -> 0 <= c < n -> 1 <= Reference.entry sol r c <= n.
Proof.
  intros Hr Hc.
  assert (Hincl : incl (range 1 (n + 1)) (map (Reference.entry sol r) (range 0 n))).
  { intros num Hnum. apply In_range in Hnum.
    destruct (solution_rows r num) as [c' [Hc' E]]; [lia | lia |].
    apply in_map_iff. exists c'. split; [exact E | apply In_range; lia]. }
  assert (Hback : incl (map (Reference.entry sol r) (range 0 n)) (range 1 (n + 1))).
  { apply (NoDup_length_incl (NoDup_range 1 (n + 1))); [|exact Hincl].
    rewrite length_map, !range_length. lia. }
  assert (Hin : In (Reference.entry sol r c) (range 1 (n + 1))).
  { apply Hback. apply in_map. apply In_range. lia. }
  apply In_range in Hin. lia.
Qed.

Lemma trues_of_spec (r c num : Z) :
  1 <= r <= n -> 1 <= c <= n -> 0 <= num <= 9 ->
  In (Sudoku.var r c num) (Reference.trues_of n sol) <->
  Reference.entry sol (r - 1) (c - 1) = num.
Proof.
  intros Hr Hc Hnum. unfold Reference.trues_of. split.
  - intros Hin. apply in_flat_map in Hin. destruct Hin as [r' [Hr' Hin]].
    apply in_map_iff in Hin. destruct Hin as [c' [E Hc']].
    apply In_range in Hr'. apply In_range in Hc'.
    pose proof (solution_entries r' c' ltac:(lia) ltac:(lia)) as He.
    unfold Sudoku.var in E.
    assert (r' = r - 1 /\ c' = c - 1 /\ Reference.entry sol r' c' = num) by lia.
    destruct H as [-> [-> H]]. exact H.
  - intros E. apply in_flat_map. exists (r - 1). split; [apply In_range; lia|].
    apply in_map_iff. exists (c - 1). split; [|apply In_range; lia].
    rewrite E. f_equal; lia.
Qed.

Lemma model_for_pos (r c num : Z) :
  1 <= r <= n -> 1 <= c <= n -> 1 <= num <= n ->
  Reference.entry sol (r - 1) (c - 1) = num ->
  holds (Sudoku.var n n n) (Reference.trues_of n sol) (Sudoku.var r c num) = true.
Proof.
  intros Hr Hc Hnum E. unfold holds.
  destruct (0 <? Sudoku.var r c num) eqn:E0;
    [|apply Z.ltb_ge in E0; unfold Sudoku.var in E0; lia].
  apply andb_true_iff. split.
  - apply Z.leb_le. unfold Sudoku.var. lia.
  - apply mem_In. apply trues_of_spec; assumption || lia.
Qed.

Lemma model_for_neg (r c num : Z) :
  1 <= r <= n -> 1 <= c <= n -> 1 <= num <= n ->
  Reference.entry sol (r - 1) (c - 1) <> num ->
  holds (Sudoku.var n n n) (Reference.trues_of n sol) (- Sudoku.var r c num) = true.
Proof.
  intros Hr Hc Hnum E. unfold holds.
  destruct (0 <? - Sudoku.var r c num) eqn:E0;
    [apply Z.ltb_lt in E0; unfold Sudoku.var in E0; lia|].
  destruct (- Sudoku.var r c num <? 0) eqn:E1;
    [|apply Z.ltb_ge in E1; unfold Sudoku.var in E1; lia].
  rewrite Z.opp_involutive. apply andb_true_iff. split.
  - apply Z.leb_le. unfold Sudoku.var. lia.
  - apply negb_true_iff. apply mem_false. intros Hin. apply E.
    apply trues_of_spec in Hin; assumption || lia.
Qed.

(** The assignment that describes [sol] is decoded to [sol]. *)
Lemma model_for_decoded : Sudoku.answer n (Reference.model_for n sol) = sol.
Proof.
  apply (square_ext (Z.to_nat n)); [apply answer_square | apply solution_square|].
  intros i j Hi Hj. unfold Sudoku.answer.
  pose proof (solution_entries (Z.of_nat i) (Z.of_nat j) ltac:(lia) ltac:(lia)) as He.
  unfold Reference.entry in He. rewrite !Nat2Z.id in He.
  apply fill_matrix_value; [apply zeros_square | exact Hi | exact Hj | |].
  - intros value Hin [Hp [Hr [Hc [Hnum [Er Ec]]]]].
    apply In_model_of in Hin. destruct Hin as [[_ Hin] | [Hneg _]]; [|lia].
    apply mem_In in Hin.
    rewrite (digits_of value) in Hin.
    apply trues_of_spec in Hin; [|lia | lia | lia].
    unfold Reference.entry in Hin. rewrite Er, Ec in Hin. congruence.
  - right. exists (Sudoku.var (Z.of_nat i + 1) (Z.of_nat j + 1)
                              (nth j (nth i sol []) 0)).
    destruct (sudoku_var_decode (Z.of_nat i + 1) (Z.of_nat j + 1)
                                (nth j (nth i sol []) 0)) as [D1 [D2 D3]];
      try lia.
    split.
    + apply In_model_of. left. split; [unfold Sudoku.var; lia|].
      apply mem_In. apply trues_of_spec; try lia.
      unfold Reference.entry. f_equal; [|f_equal]; lia.
    + unfold Sudoku.written. rewrite D1, D2, D3.
      repeat split; try lia. unfold Sudoku.var. lia.
Qed.

(** The assignment that describes [sol] satisfies the clauses of every
    grid that [sol] completes. *)
Lemma solution_is_model (h0 : Sudoku.heap) (mat : list (list Z)) (f : CNF) :
  Sudoku.int_sqrt n * Sudoku.int_sqrt n = n ->
  Sudoku.square (Z.to_nat n) mat ->
  Reference.completes n sol mat = true ->
  Sudoku.encode (Sudoku.shape h0 mat)
                (Sudoku.VList (List.length h0 + Z.to_nat n)) = Ok (n, f) ->
  is_model (Reference.model_for n sol) f = true.
Proof.
  intros Hs Hsq Hcomp He.
  destruct (encode_stored_exact h0 n mat Hsq) as [bl [Hbl He']]; [lia|].
  rewrite He' in He. inversion He as [Ef]. clear He He' Ef f.
  assert (Hspos : 0 < Sudoku.int_sqrt n)
    by (unfold Sudoku.int_sqrt; apply Z.sqrt_pos; lia).
  set (s := Sudoku.int_sqrt n) in *.
  unfold Reference.model_for. apply model_of_is_model.
  rewrite !forallb_app. repeat (apply andb_true_iff; split).
  - apply forallb_forall. intros cl Hcl. unfold Sudoku.row_clauses in Hcl.
    apply in_flat_map in Hcl. destruct Hcl as [row [Hrow Hcl]].
    apply in_map_iff in Hcl. destruct Hcl as [num [<- Hnum]].
    apply In_range in Hrow. apply In_range in Hnum.
    destruct (solution_rows (row - 1) num) as [c [Hc E]]; [lia | lia |].
    apply existsb_exists. exists (Sudoku.var row (c + 1) num). split.
    + apply in_map_iff. exists (c + 1). split; [reflexivity | apply In_range; lia].
    + apply model_for_pos; try lia. rewrite <- E. f_equal. lia.
  - apply forallb_forall. intros cl Hcl. unfold Sudoku.column_clauses in Hcl.
    apply in_flat_map in Hcl. destruct Hcl as [column [Hcol Hcl]].
    apply in_map_iff in Hcl. destruct Hcl as [num [<- Hnum]].
    apply In_range in Hcol. apply In_range in Hnum.
    destruct (solution_columns (column - 1) num) as [r [Hr E]]; [lia | lia |].
    apply existsb_exists. exists (Sudoku.var (r + 1) column num). split.
    + apply in_map_iff. exists (r + 1). split; [reflexivity | apply In_range; lia].
    + apply model_for_pos; try lia. rewrite <- E. f_equal. lia.
  - unfold Sudoku.subgrid_clauses, range_step in Hbl.
    destruct (s =? 0) eqn:E0; [apply Z.eqb_eq in E0; lia|].
    destruct (s <? 0) eqn:E1; [apply Z.ltb_lt in E1; lia|].
    cbn [bind] in Hbl. inversion Hbl as [Ebl]. clear Hbl Ebl.
    assert (Hcount : (n + 1 - 1 + s - 1) / s = s).
    { symmetry. apply Z.div_unique with (r := s - 1); [lia | nia]. }
    rewrite Hcount.
    apply forallb_forall. intros cl Hcl.
    apply in_flat_map in Hcl. destruct Hcl as [rownums [Hrn Hcl]].
    apply in_flat_map in Hcl. destruct Hcl as [colnums [Hcn Hcl]].
    apply in_map_iff in Hcl. destruct Hcl as [num [<- Hnum]].
    apply in_map_iff in Hrn. destruct Hrn as [br [<- Hbr]].
    apply in_map_iff in Hcn. destruct Hcn as [bc [<- Hbc]].
    apply in_seq in Hbr. apply in_seq in Hbc. apply In_range in Hnum.
    destruct (solution_blocks (Z.of_nat br) (Z.of_nat bc) num)
      as [dr [dc [Hdr [Hdc E]]]]; [fold s; lia | fold s; lia | lia |].
    fold s in Hdr, Hdc, E.
    apply existsb_exists.
    exists (Sudoku.var (1 + s * Z.of_nat br + dr) (1 + s * Z.of_nat bc + dc) num).
    split.
    + apply in_flat_map. exists dr. split; [apply In_range; lia|].
      apply in_map_iff. exists dc. split; [reflexivity | apply In_range; lia].
    + apply model_for_pos; try nia. rewrite <- E. f_equal; lia.
  - apply forallb_forall. intros cl Hcl. unfold Sudoku.cell_clauses in Hcl.
    apply in_flat_map in Hcl. destruct Hcl as [row [Hrow Hcl]].
    apply in_flat_map in Hcl. destruct Hcl as [column [Hcol Hcl]].
    apply in_flat_map in Hcl. destruct Hcl as [num1 [Hn1 Hcl]].
    apply in_map_iff in Hcl. destruct Hcl as [num2 [<- Hn2]].
    apply In_range in Hrow. apply In_range in Hcol.
    apply In_range in Hn1. apply In_range in Hn2.
    apply existsb_exists.
    destruct (Z.eq_dec (Reference.entry sol (row - 1) (column - 1)) num1) as [E | E].
    + exists (- Sudoku.var row column num2). split; [right; now left|].
      apply model_for_neg; lia.
    + exists (- Sudoku.var row column num1). split; [now left|].
      apply model_for_neg; assumption || lia.
  - apply forallb_forall. intros cl Hcl. unfold Sudoku.given_clauses in Hcl.
    apply in_flat_map in Hcl. destruct Hcl as [r [Hr Hcl]].
    apply in_flat_map in Hcl. destruct Hcl as [c [Hc Hcl]].
    fold (Reference.entry mat r c) in Hcl.
    destruct (Reference.entry mat r c =? 0) eqn:E0; [contradiction|].
    destruct Hcl as [<- | []].
    unfold Reference.completes in Hcomp.
    pose proof (proj1 (forallb_forall _ _) Hcomp r Hr) as H1. cbv beta in H1.
    pose proof (proj1 (forallb_forall _ _) H1 c Hc) as H2. cbv beta in H2.
    rewrite E0 in H2. cbn [orb] in H2. apply Z.eqb_eq in H2.
    apply In_range in Hr. apply In_range in Hc.
    pose proof (solution_entries r c ltac:(lia) ltac:(lia)) as He.
    cbn [existsb]. rewrite orb_false_r.
    apply model_for_pos; try lia. rewrite H2. f_equal; lia.
Qed.

End SudokuModel.

(** X9. Completeness of the Sudoku encoding for the grid sizes 1, 4
    and 9: when a filled grid [sol] is a valid solution that agrees with
    the givens of the stored grid, the assignment that describes [sol]
    (one literal for each variable up to [var n n n]) satisfies the clause
    set, and a solver that answers with it makes [solve_sudoku] return
    [sol] itself. *)
Theorem sudoku_solution_round_trip (h0 h : Sudoku.heap) (g : Sudoku.val) (n : Z)
        (mat sol : list (list Z)) (f : CNF) :
  Sudoku.square (Z.to_nat n) mat -> 1 <= n <= 9 ->
  Sudoku.int_sqrt n * Sudoku.int_sqrt n = n ->
  Sudoku.store_matrix h0 mat = (h, g) -> Sudoku.encode h g = Ok (n, f) ->
  Reference.is_solution n (Sudoku.int_sqrt n) sol = true ->
  Reference.completes n sol mat = true ->
  is_model (Reference.model_for n sol) f = true /\
  total_over (Sudoku.var n n n) (Reference.model_for n sol) = true /\
  forall solver, solver f = Some (Reference.model_for n sol) ->
    exists h' v, Sudoku.solve_sudoku solver h g = (h', Ok v) /\
                 Sudoku.read_matrix h' v = Ok sol.
Proof.
  intros Hsq Hn Hs Hst He Hsol Hcomp.
  rewrite store_matrix_shape in Hst. inversion Hst. subst h g. clear Hst.
  pose proof Hsq as [Hlen _]. rewrite Hlen in *.
  split; [|split].
  - apply (solution_is_model n sol Hn Hsol h0 mat f); assumption.
  - apply model_of_total.
  - intros solver Hsolver.
    rewrite (solve_sudoku_sat solver _ _ n f _ He Hsolver).
    do 2 eexists. split; [reflexivity|].
    fold (Sudoku.answer n (Reference.model_for n sol)).
    rewrite (model_for_decoded n sol Hn Hsol).
    destruct (solution_square n sol Hn Hsol) as [Hl _].
    pose proof (read_matrix_shape (Sudoku.shape h0 mat) sol) as R.
    rewrite Hl in R. exact R.
Qed.

Lemma sudoku_solution_round_trip_witness :
  is_model (Reference.model_for 4 Inputs.solution4) Inputs.puzzle4_cnf = true /\
  total_over 444 (Reference.model_for 4 Inputs.solution4) = true /\
  forall solver, solver Inputs.puzzle4_cnf = Some (Reference.model_for 4 Inputs.solution4) ->
    exists h' v,
      Sudoku.solve_sudoku solver (fst Inputs.puzzle4_stored)
                          (snd Inputs.puzzle4_stored) = (h', Ok v) /\
      Sudoku.read_matrix h' v = Ok Inputs.solution4.
Proof.
  apply (sudoku_solution_round_trip [] (fst Inputs.puzzle4_stored)
           (snd Inputs.puzzle4_stored) 4 Inputs.puzzle4 Inputs.solution4
           Inputs.puzzle4_cnf).
  - split; [reflexivity | repeat constructor].
  - lia.
  - reflexivity.
  - reflexivity.
  - vm_compute. reflexivity.
  - vm_compute. reflexivity.
  - vm_compute. reflexivity.
Defined.

(** X10. [solve_sudoku] decides puzzles of side 1, 4 and 9: with a
    solver that is sound, and that finds a model of the grid's clause set
    when there is one, the call returns a valid completion of the stored
    grid whenever one exists, and returns the grid it was given when none
    exists. *)
Theorem sudoku_decides (solver : CNF -> option model) (h0 h : Sudoku.heap)
        (g : Sudoku.val) (n : Z) (mat : list (list Z)) (f : CNF) :
  Sudoku.square (Z.to_nat n) mat -> 1 <= n <= 9 ->
  Sudoku.int_sqrt n * Sudoku.int_sqrt n = n ->
  Forall (Forall (fun v => 0 <= v <= n)) mat ->
  Sudoku.store_matrix h0 mat = (h, g) -> Sudoku.encode h g = Ok (n, f) ->
  sound solver -> Reference.complete_on solver f ->
  ((exists sol, Reference.is_solution n (Sudoku.int_sqrt n) sol = true /\
                Reference.completes n sol mat = true) ->
   exists h' v sol',
     Sudoku.solve_sudoku solver h g = (h', Ok v) /\
     Sudoku.read_matrix h' v = Ok sol' /\
     Reference.is_solution n (Sudoku.int_sqrt n) sol' = true /\
     Reference.completes n sol' mat = true) /\
  ((forall sol, Reference.is_solution n (Sudoku.int_sqrt n) sol = true ->
                Reference.completes n sol mat = false) ->
   Sudoku.solve_sudoku solver h g = (h, Ok g)).
Proof.
  intros Hsq Hn Hs Hrange Hst He Hsound Hcomplete.
  rewrite store_matrix_shape in Hst. inversion Hst. subst h g. clear Hst.
  pose proof Hsq as [Hlen _]. rewrite Hlen in *.
  assert (Hanswer : forall m, solver f = Some m ->
            Sudoku.solve_sudoku solver (Sudoku.shape h0 mat)
              (Sudoku.VList (List.length h0 + Z.to_nat n)) =
              (Sudoku.shape (Sudoku.shape h0 mat) (Sudoku.answer n m),
               Ok (Sudoku.VList (List.length (Sudoku.shape h0 mat) + Z.to_nat n))) /\
            Reference.is_solution n (Sudoku.int_sqrt n) (Sudoku.answer n m) = true /\
            Reference.completes n (Sudoku.answer n m) mat = true).
  { intros m Hm. split.
    - exact (solve_sudoku_sat solver _ _ n f m He Hm).
    - apply (answer_is_solution h0 n mat f m); try assumption.
      apply Hsound. exact Hm. }
  split.
  - intros [sol [Hsol Hcomp]].
    pose proof (solution_is_model n sol Hn Hsol h0 mat f Hs Hsq Hcomp He) as Hmodel.
    destruct (solver f) as [m|] eqn:Hsolver;
      [|exfalso; exact (Hcomplete _ Hmodel Hsolver)].
    destruct (Hanswer m eq_refl) as [Hcall [H1 H2]].
    do 2 eexists. exists (Sudoku.answer n m).
    split; [exact Hcall|]. split; [|split; assumption].
    destruct (answer_square n m) as [Hl _].
    pose proof (read_matrix_shape (Sudoku.shape h0 mat) (Sudoku.answer n m)) as R.
    rewrite Hl in R. exact R.
  - intros Hnone.
    destruct (solver f) as [m|] eqn:Hsolver.
    + destruct (Hanswer m eq_refl) as [_ [H1 H2]].
      rewrite (Hnone _ H1) in H2. discriminate.
    + exact (solve_sudoku_unsat solver _ _ n f He Hsolver).
Qed.

Lemma sudoku_decides_witness :
  exists h' v sol',
    Sudoku.solve_sudoku (proposing (Reference.model_for 4 Inputs.solution4))
      (fst Inputs.puzzle4_stored) (snd Inputs.puzzle4_stored) = (h', Ok v) /\
    Sudoku.read_matrix h' v = Ok sol' /\
    Reference.is_solution 4 (Sudoku.int_sqrt 4) sol' = true /\
    Reference.completes 4 sol' Inputs.puzzle4 = true.
Proof.
  destruct (sudoku_decides (proposing (Reference.model_for 4 Inputs.solution4)) []
              (fst Inputs.puzzle4_stored) (snd Inputs.puzzle4_stored) 4
              Inputs.puzzle4 Inputs.puzzle4_cnf) as [H _].
  - split; [reflexivity | repeat constructor].
  - lia.
  - reflexivity.
  - repeat constructor; lia.
  - reflexivity.
  - vm_compute. reflexivity.
  - apply proposing_sound.
  - intros m _. vm_compute. discriminate.
  - apply H. exists Inputs.solution4. split; vm_compute; reflexivity.
Defined.

(** ** When [solve_sudoku] raises *)


Section GivenOutcome.
Variables (h : Sudoku.heap) (g : Sudoku.val).





End GivenOutcome.


(** ** The physics keeps states legal *)

Section Physics.
Import Reference.
Variable vp : list pos.

Lemma direction_cases (mv : string) :
  direction mv = (0, 0) \/ In (direction mv) DIRS_values.
Proof.
  unfold direction. destruct (find _ DIRS) as [d|] eqn:E; [|now left].
  apply find_some in E. right. unfold DIRS_values. apply in_map. tauto.
Qed.

Lemma shift_zero (p : pos) : shift p (0, 0) = p.
Proof. destruct p as [x y]. unfold shift. cbn [fst snd]. f_equal; lia. Qed.

(** One move: nothing happens, the player walks, or the player pushes. *)
Lemma step_cases (s : state) (mv : string) :
  legal vp s ->
  step vp s mv = s \/
  (exists d, In d DIRS_values /\
     In (shift (player s) d) vp /\ ~ In (shift (player s) d) (crates s) /\
     step vp s mv = mkState (shift (player s) d) (crates s)) \/
  (exists d, In d DIRS_values /\
     In (shift (player s) d) (crates s) /\
     In (shift (shift (player s) d) d) vp /\
     ~ In (shift (shift (player s) d) d) (crates s) /\
     step vp s mv =
       mkState (shift (player s) d)
               (map (fun b => if pos_eqb b (shift (player s) d)
                              then shift (shift (player s) d) d else b)
                    (crates s))).
Proof.
  intros [Hp [Hc [Hpc Hnd]]]. unfold step.
  destruct (direction_cases mv) as [E | Hd].
  - rewrite E, shift_zero.
    rewrite (proj2 (pos_in_In _ _) Hp), (proj2 (pos_in_false _ _) Hpc).
    left. destruct s; reflexivity.
  - destruct (pos_in (shift (player s) (direction mv)) vp) eqn:Ev; [|now left].
    cbn [negb]. apply pos_in_In in Ev.
    destruct (pos_in (shift (player s) (direction mv)) (crates s)) eqn:Ec.
    + destruct (pos_in (shift (shift (player s) (direction mv)) (direction mv)) vp
                && negb (pos_in (shift (shift (player s) (direction mv)) (direction mv))
                                (crates s))) eqn:Eb; [|now left].
      apply andb_true_iff in Eb. destruct Eb as [Eb1 Eb2].
      apply pos_in_In in Eb1. apply negb_true_iff, pos_in_false in Eb2.
      apply pos_in_In in Ec.
      right. right. exists (direction mv). repeat split; assumption.
    + apply pos_in_false in Ec.
      right. left. exists (direction mv). repeat split; assumption.
Qed.

Lemma step_legal (s : state) (mv : string) :
  legal vp s -> legal vp (step vp s mv).
Proof.
  intros Hs. pose proof Hs as [Hp [Hc [Hpc Hnd]]].
  destruct (step_cases s mv Hs)
    as [-> | [[d [Hd [Hv [Hfree ->]]]] | [d [Hd [Hbox [Hv [Hfree ->]]]]]]].
  - exact Hs.
  - repeat split; assumption.
  - set (target := shift (player s) d) in *.
    set (beyond := shift target d) in *.
    unfold legal. cbn [player crates]. split; [apply Hc; exact Hbox|].
    split; [|split].
    + intros q Hq. apply in_map_iff in Hq. destruct Hq as [b [<- Hb]].
      destruct (pos_eqb b target); [exact Hv | apply Hc; exact Hb].
    + intros Hq. apply in_map_iff in Hq. destruct Hq as [b [E Hb]].
      destruct (pos_eqb b target) eqn:Eb.
      * exact (shift_moves target d Hd E).
      * subst b. rewrite (proj2 (pos_eqb_eq target target) eq_refl) in Eb.
        discriminate.
    + apply Injective_map_NoDup_in; [|exact Hnd].
      intros a b Ha Hb E.
      destruct (pos_eqb a target) eqn:Ea, (pos_eqb b target) eqn:Eb.
      * apply pos_eqb_eq in Ea. apply pos_eqb_eq in Eb. congruence.
      * subst b. contradiction.
      * subst a. contradiction.
      * exact E.
Qed.

Lemma step_crates_length (s : state) (mv : string) :
  List.length (crates (step vp s mv)) = List.length (crates s).
Proof.
  unfold step.
  repeat match goal with
         | |- context [if ?c then _ else _] => destruct c
         end; cbn [crates]; try reflexivity.
  apply length_map.
Qed.

Lemma run_legal (moves : list string) (s : state) :
  legal vp s -> legal vp (run vp s moves).
Proof.
  revert s. induction moves as [|mv rest IH]; intros s Hs; [exact Hs|].
  unfold run. cbn [fold_left]. apply IH. apply step_legal. exact Hs.
Qed.

Lemma run_crates_length (moves : list string) (s : state) :
  List.length (crates (run vp s moves)) = List.length (crates s).
Proof.
  revert s. induction moves as [|mv rest IH]; intros s; [reflexivity|].
  unfold run. cbn [fold_left]. fold (run vp (step vp s mv) rest).
  rewrite IH. apply step_crates_length.
Qed.

End Physics.

Lemma firstn_next {A : Type} (l : list A) (k : nat) :
  firstn (S k) l = firstn k l \/ exists x, firstn (S k) l = firstn k l ++ [x].
Proof.
  revert k. induction l as [|a l IH]; intros k.
  - left. now rewrite !firstn_nil.
  - destruct k as [|k].
    + right. exists a. destruct l; reflexivity.
    + destruct (IH k) as [E | [x E]].
      * left. cbn [firstn] in *. now rewrite E.
      * right. exists x. cbn [firstn app] in *. now rewrite E.
Qed.

Lemma item_map (f : pos -> pos) (l : list pos) (b : Z) :
  0 <= b < len l -> item (map f l) b = f (item l b).
Proof.
  intros Hb. unfold item.
  rewrite (nth_indep _ (0, 0) (f (0, 0))) by (rewrite length_map; unfold len in Hb; lia).
  apply map_nth.
Qed.

Lemma item_In (l : list pos) (b : Z) : 0 <= b < len l -> In (item l b) l.
Proof. intros Hb. unfold item. apply nth_In. unfold len in Hb. lia. Qed.

Lemma item_NoDup (l : list pos) (a b : Z) :
  NoDup l -> 0 <= a < len l -> 0 <= b < len l -> item l a = item l b -> a = b.
Proof.
  intros Hnd Ha Hb E. unfold item, len in *.
  assert (Z.to_nat a = Z.to_nat b)
    by (apply (proj1 (NoDup_nth l (0, 0)) Hnd); lia || exact E).
  lia.
Qed.

(** ** A plan is a model *)

Lemma holds_pos (nv : Z) (trues : list Z) (l : Z) :
  0 < l <= nv -> In l trues -> holds nv trues l = true.
Proof.
  intros Hl Hin. unfold holds.
  destruct (0 <? l) eqn:E; [|apply Z.ltb_ge in E; lia].
  apply andb_true_iff. split; [apply Z.leb_le; lia | apply mem_In; exact Hin].
Qed.

Lemma holds_neg (nv : Z) (trues : list Z) (l : Z) :
  0 < l <= nv -> ~ In l trues -> holds nv trues (- l) = true.
Proof.
  intros Hl Hin. unfold holds.
  destruct (0 <? - l) eqn:E; [apply Z.ltb_lt in E; lia|].
  destruct (- l <? 0) eqn:E'; [|apply Z.ltb_ge in E'; lia].
  rewrite Z.opp_involutive.
  apply andb_true_iff. split; [apply Z.leb_le; lia|].
  apply negb_true_iff, mem_false. exact Hin.
Qed.

Section PlanModel.
Import Reference.
Variables (e : SokobanEncoder) (moves : list string) (ps : pos).
Hypothesis Hps : player_start e = Some ps.
Hypothesis Hwf : well_formed e.
Hypothesis Hstart : legal (valid_positions e) (initial_state e).
Hypothesis HN : N e <= 10.
Hypothesis HM : M e <= 10.
Hypothesis HT : 0 <= T e <= 98.
Hypothesis Hlen : (List.length moves <= Z.to_nat (T e))%nat.
Hypothesis Hsolved :
  solved (goals e) (run (valid_positions e) (initial_state e) moves) = true.

Local Abbreviation vp := (valid_positions e).
Local Abbreviation nv := (10000 * (num_boxes e + 1)).
Local Abbreviation trues := (plan_trues e moves).
Local Abbreviation P t := (player (trajectory e moves t)).
Local Abbreviation B t b := (item (crates (trajectory e moves t)) b).

Lemma traj_legal (t : Z) : legal vp (trajectory e moves t).
Proof. unfold trajectory. apply run_legal. exact Hstart. Qed.

Lemma traj_boxes (t : Z) : len (crates (trajectory e moves t)) = num_boxes e.
Proof.
  unfold trajectory, len. rewrite run_crates_length.
  destruct Hwf as [-> _]. reflexivity.
Qed.

Lemma traj_start : trajectory e moves 0 = initial_state e.
Proof. reflexivity. Qed.

Lemma traj_end : trajectory e moves (T e) = run vp (initial_state e) moves.
Proof. unfold trajectory. now rewrite firstn_all2 by exact Hlen. Qed.

Lemma traj_step (t : Z) :
  0 <= t ->
  trajectory e moves (t + 1) = trajectory e moves t \/
  exists mv, trajectory e moves (t + 1) = step vp (trajectory e moves t) mv.
Proof.
  intros Ht. unfold trajectory.
  replace (Z.to_nat (t + 1)) with (S (Z.to_nat t)) by lia.
  destruct (firstn_next moves (Z.to_nat t)) as [-> | [mv ->]]; [now left|].
  right. exists mv. rewrite run_app. reflexivity.
Qed.

Lemma pos_digits (p : pos) : In p vp -> 0 <= fst p < 10 /\ 0 <= snd p < 10.
Proof.
  destruct p as [x y]. intros Hp. apply In_valid_positions in Hp.
  cbn [fst snd]. lia.
Qed.

Lemma player_valid (t : Z) : In (P t) vp.
Proof. apply traj_legal. Qed.

Lemma box_crate (t b : Z) :
  0 <= b < num_boxes e -> In (B t b) (crates (trajectory e moves t)).
Proof. intros Hb. apply item_In. rewrite traj_boxes. exact Hb. Qed.

Lemma box_valid (t b : Z) : 0 <= b < num_boxes e -> In (B t b) vp.
Proof.
  intros Hb. destruct (traj_legal t) as [_ [Hc _]]. apply Hc.
  apply box_crate. exact Hb.
Qed.

Lemma boxes_nonneg : 0 <= num_boxes e.
Proof. destruct Hwf as [-> _]. unfold len. lia. Qed.

Lemma In_plan_trues (v : Z) :
  In v trues <->
  exists t, 0 <= t <= T e /\
    (v = var_player (fst (P t)) (snd (P t)) t \/
     exists b, 0 <= b < num_boxes e /\ v = var_box b (fst (B t b)) (snd (B t b)) t).
Proof.
  unfold plan_trues. rewrite in_flat_map. split.
  - intros [t [Ht Hin]]. apply In_range in Ht. exists t. split; [lia|].
    cbv zeta in Hin. destruct Hin as [<- | Hin]; [now left|].
    apply in_map_iff in Hin. destruct Hin as [b [<- Hb]].
    apply In_range in Hb. right. exists b. split; [lia | reflexivity].
  - intros [t [Ht H]]. exists t. split; [apply In_range; lia|].
    cbv zeta. destruct H as [-> | [b [Hb ->]]]; [now left|].
    right. apply in_map_iff. exists b. split; [reflexivity | apply In_range; lia].
Qed.

Lemma player_var_only (p : pos) (t : Z) :
  0 <= fst p < 10 -> 0 <= snd p < 10 -> 0 <= t <= T e ->
  In (var_player (fst p) (snd p) t) trues -> P t = p.
Proof.
  intros Hx Hy Ht Hin. apply In_plan_trues in Hin.
  destruct Hin as [t' [Ht' [E | [b [Hb E]]]]].
  - pose proof (pos_digits _ (player_valid t')).
    apply var_player_injective in E; try lia.
    destruct E as [E1 [E2 ->]]. destruct p, (P t'). cbn [fst snd] in *. congruence.
  - exfalso. pose proof (pos_digits _ (box_valid t' b Hb)).
    revert E. apply var_player_box_distinct; lia.
Qed.

Lemma box_var_only (b : Z) (p : pos) (t : Z) :
  In p vp -> 0 <= t <= T e -> 0 <= b < num_boxes e ->
  In (var_box b (fst p) (snd p) t) trues -> B t b = p.
Proof.
  intros Hp Ht Hb Hin. apply In_plan_trues in Hin.
  destruct Hin as [t' [Ht' [E | [b' [Hb' E]]]]].
  - exfalso. pose proof (pos_digits p Hp). pose proof (pos_digits _ (player_valid t')).
    symmetry in E. revert E. apply var_player_box_distinct; lia.
  - pose proof (pos_digits p Hp). pose proof (pos_digits _ (box_valid t' b' Hb')).
    apply var_box_injective in E; try lia.
    destruct E as [-> [E1 [E2 ->]]]. destruct p, (B t' b'). cbn [fst snd] in *. congruence.
Qed.

Lemma player_var_bound (p : pos) (t : Z) :
  In p vp -> 0 <= t <= T e -> 0 < var_player (fst p) (snd p) t <= nv.
Proof.
  intros Hp Ht. pose proof (pos_digits p Hp). pose proof boxes_nonneg.
  unfold var_player. lia.
Qed.

Lemma box_var_bound (b : Z) (p : pos) (t : Z) :
  In p vp -> 0 <= t <= T e -> 0 <= b < num_boxes e ->
  0 < var_box b (fst p) (snd p) t <= nv.
Proof.
  intros Hp Ht Hb. pose proof (pos_digits p Hp). unfold var_box. lia.
Qed.

Lemma holds_player (t : Z) :
  0 <= t <= T e -> holds nv trues (var_player (fst (P t)) (snd (P t)) t) = true.
Proof.
  intros Ht. apply holds_pos; [apply player_var_bound; [apply player_valid | exact Ht]|].
  apply In_plan_trues. exists t. split; [exact Ht | now left].
Qed.

Lemma holds_not_player (p : pos) (t : Z) :
  In p vp -> 0 <= t <= T e -> P t <> p ->
  holds nv trues (- var_player (fst p) (snd p) t) = true.
Proof.
  intros Hp Ht Hne. apply holds_neg; [apply player_var_bound; assumption|].
  intros Hin. apply Hne. apply player_var_only; try assumption;
    apply (pos_digits p Hp).
Qed.

Lemma holds_box (b t : Z) :
  0 <= t <= T e -> 0 <= b < num_boxes e ->
  holds nv trues (var_box b (fst (B t b)) (snd (B t b)) t) = true.
Proof.
  intros Ht Hb. apply holds_pos; [apply box_var_bound; [apply box_valid| |]; assumption|].
  apply In_plan_trues. exists t. split; [exact Ht|].
  right. exists b. split; [exact Hb | reflexivity].
Qed.

Lemma holds_not_box (b : Z) (p : pos) (t : Z) :
  In p vp -> 0 <= t <= T e -> 0 <= b < num_boxes e -> B t b <> p ->
  holds nv trues (- var_box b (fst p) (snd p) t) = true.
Proof.
  intros Hp Ht Hb Hne. apply holds_neg; [apply box_var_bound; assumption|].
  intros Hin. apply Hne. apply box_var_only; assumption.
Qed.

(** From one time to the next. *)
Lemma traj_next (t : Z) :
  0 <= t ->
  trajectory e moves (t + 1) = trajectory e moves t \/
  (exists d, In d DIRS_values /\
     P (t + 1) = shift (P t) d /\
     crates (trajectory e moves (t + 1)) = crates (trajectory e moves t)) \/
  (exists d, In d DIRS_values /\
     P (t + 1) = shift (P t) d /\
     In (shift (P t) d) (crates (trajectory e moves t)) /\
     In (shift (shift (P t) d) d) vp /\
     crates (trajectory e moves (t + 1)) =
       map (fun b => if pos_eqb b (shift (P t) d)
                     then shift (shift (P t) d) d else b)
           (crates (trajectory e moves t))).
Proof.
  intros Ht. destruct (traj_step t Ht) as [E | [mv E]]; [now left|].
  destruct (step_cases vp (trajectory e moves t) mv (traj_legal t))
    as [E' | [[d [Hd [Hv [Hfree E']]]] | [d [Hd [Hbox [Hv [Hfree E']]]]]]];
    rewrite E' in E.
  - now left.
  - right. left. exists d. rewrite E. repeat split; assumption.
  - right. right. exists d. rewrite E. repeat split; assumption.
Qed.

Local Abbreviation sat f := (forallb (fun c => existsb (holds nv trues) c) f = true).

Lemma sat_initial_player : sat (initial_player ps).
Proof.
  unfold initial_player. cbn [forallb existsb].
  pose proof (holds_player 0 ltac:(lia)) as H.
  rewrite traj_start in H. unfold initial_state in H. rewrite Hps in H.
  cbn [player] in H. rewrite H. reflexivity.
Qed.

Lemma sat_initial_boxes : sat (initial_boxes (num_boxes e) (boxes e)).
Proof.
  apply forallb_forall. intros c Hc. unfold initial_boxes in Hc.
  apply in_map_iff in Hc. destruct Hc as [b [<- Hb]]. apply In_range in Hb.
  pose proof (holds_box b 0 ltac:(lia) ltac:(lia)) as H.
  rewrite traj_start in H. unfold initial_state in H. cbn [crates] in H.
  cbn [existsb]. rewrite H. reflexivity.
Qed.

Lemma sat_player_somewhere : sat (player_somewhere vp (T e)).
Proof.
  apply forallb_forall. intros c Hc. unfold player_somewhere in Hc.
  apply in_map_iff in Hc. destruct Hc as [t [<- Ht]]. apply In_range in Ht.
  apply existsb_exists. exists (var_player (fst (P t)) (snd (P t)) t). split.
  - apply in_map_iff. exists (P t). split; [|apply player_valid].
    destruct (P t); reflexivity.
  - apply holds_player. lia.
Qed.

Lemma sat_player_at_most_one : sat (player_at_most_one vp (T e)).
Proof.
  apply forallb_forall. intros c Hc. unfold player_at_most_one in Hc.
  apply in_flat_map in Hc. destruct Hc as [t [Ht Hc]].
  apply in_flat_map in Hc. destruct Hc as [i [Hi Hc]].
  apply in_map_iff in Hc. destruct Hc as [j [<- Hj]].
  apply In_range in Ht. apply In_range in Hi. apply In_range in Hj.
  cbv zeta.
  assert (Hne : item vp i <> item vp j).
  { intros E. apply item_NoDup in E; [lia | apply valid_positions_NoDup | lia | lia]. }
  cbn [existsb].
  destruct (pos_eq_dec (P t) (item vp i)) as [E | NE].
  - rewrite (holds_not_player (item vp j) t);
      [now rewrite orb_true_r | apply item_In; lia | lia | congruence].
  - rewrite (holds_not_player (item vp i) t);
      [reflexivity | apply item_In; lia | lia | exact NE].
Qed.

Lemma sat_box_somewhere : sat (box_somewhere vp (num_boxes e) (T e)).
Proof.
  apply forallb_forall. intros c Hc. unfold box_somewhere in Hc.
  apply in_flat_map in Hc. destruct Hc as [t [Ht Hc]].
  apply in_map_iff in Hc. destruct Hc as [b [<- Hb]].
  apply In_range in Ht. apply In_range in Hb.
  apply existsb_exists. exists (var_box b (fst (B t b)) (snd (B t b)) t). split.
  - apply in_map_iff. exists (B t b). split; [|apply box_valid; lia].
    destruct (B t b); reflexivity.
  - apply holds_box; lia.
Qed.

Lemma sat_box_at_most_one : sat (box_at_most_one vp (num_boxes e) (T e)).
Proof.
  apply forallb_forall. intros c Hc. unfold box_at_most_one in Hc.
  apply in_flat_map in Hc. destruct Hc as [t [Ht Hc]].
  apply in_flat_map in Hc. destruct Hc as [b [Hb Hc]].
  apply in_flat_map in Hc. destruct Hc as [i [Hi Hc]].
  apply in_map_iff in Hc. destruct Hc as [j [<- Hj]].
  apply In_range in Ht. apply In_range in Hb.
  apply In_range in Hi. apply In_range in Hj.
  cbv zeta.
  assert (Hne : item vp i <> item vp j).
  { intros E. apply item_NoDup in E; [lia | apply valid_positions_NoDup | lia | lia]. }
  cbn [existsb].
  destruct (pos_eq_dec (B t b) (item vp i)) as [E | NE].
  - rewrite (holds_not_box b (item vp j) t);
      [now rewrite orb_true_r | apply item_In; lia | lia | lia | congruence].
  - rewrite (holds_not_box b (item vp i) t);
      [reflexivity | apply item_In; lia | lia | lia | exact NE].
Qed.

Lemma sat_player_box_apart : sat (player_box_apart vp (num_boxes e) (T e)).
Proof.
  apply forallb_forall. intros c Hc. unfold player_box_apart in Hc.
  apply in_flat_map in Hc. destruct Hc as [t [Ht Hc]].
  apply in_flat_map in Hc. destruct Hc as [[x y] [Hp Hc]].
  apply in_map_iff in Hc. destruct Hc as [b [<- Hb]].
  apply In_range in Ht. apply In_range in Hb.
  cbn [existsb].
  destruct (pos_eq_dec (P t) (x, y)) as [E | NE].
  - pose proof (holds_not_box b (x, y) t Hp ltac:(lia) ltac:(lia)) as H.
    cbn [fst snd] in H. rewrite H; [now rewrite orb_true_r|].
    intros E'. destruct (traj_legal t) as [_ [_ [Hpc _]]]. apply Hpc.
    rewrite E, <- E'. apply box_crate. lia.
  - pose proof (holds_not_player (x, y) t Hp ltac:(lia) NE) as H.
    cbn [fst snd] in H. rewrite H. reflexivity.
Qed.

Lemma sat_boxes_apart : sat (boxes_apart vp (num_boxes e) (T e)).
Proof.
  apply forallb_forall. intros c Hc. unfold boxes_apart in Hc.
  apply in_flat_map in Hc. destruct Hc as [t [Ht Hc]].
  apply in_flat_map in Hc. destruct Hc as [[x y] [Hp Hc]].
  apply in_flat_map in Hc. destruct Hc as [b1 [Hb1 Hc]].
  apply in_map_iff in Hc. destruct Hc as [b2 [<- Hb2]].
  apply In_range in Ht. apply In_range in Hb1. apply In_range in Hb2.
  assert (Hne : B t b1 <> B t b2).
  { intros E. destruct (traj_legal t) as [_ [_ [_ Hnd]]].
    apply item_NoDup in E; [lia | exact Hnd | rewrite traj_boxes; lia
                            | rewrite traj_boxes; lia]. }
  cbn [existsb].
  destruct (pos_eq_dec (B t b1) (x, y)) as [E | NE].
  - pose proof (holds_not_box b2 (x, y) t Hp ltac:(lia) ltac:(lia)) as H.
    cbn [fst snd] in H. rewrite H; [now rewrite orb_true_r | congruence].
  - pose proof (holds_not_box b1 (x, y) t Hp ltac:(lia) ltac:(lia) NE) as H.
    cbn [fst snd] in H. rewrite H. reflexivity.
Qed.

Lemma sat_player_moves : sat (player_moves vp (T e)).
Proof.
  apply forallb_forall. intros c Hc. unfold player_moves in Hc.
  apply in_flat_map in Hc. destruct Hc as [t [Ht Hc]].
  apply in_map_iff in Hc. destruct Hc as [[x y] [<- Hp]].
  apply In_range in Ht. apply existsb_exists.
  destruct (pos_eq_dec (P t) (x, y)) as [E | NE].
  - pose proof (holds_player (t + 1) ltac:(lia)) as Hnext.
    pose proof (player_valid (t + 1)) as Hvalid.
    assert (Hcases : P (t + 1) = P t \/
                     exists d, In d DIRS_values /\ P (t + 1) = shift (P t) d).
    { destruct (traj_next t ltac:(lia)) as [E' | [[d [Hd [E' _]]] | [d [Hd [E' _]]]]].
      - left. now rewrite E'.
      - right. exists d. split; assumption.
      - right. exists d. split; assumption. }
    destruct Hcases as [E' | [[dx dy] [Hd E']]]; rewrite E', E in Hnext, Hvalid.
    + exists (var_player x y (t + 1)). split; [|exact Hnext].
      cbn [app In]. right. now left.
    + unfold shift in Hnext, Hvalid. cbn [fst snd] in Hnext, Hvalid.
      exists (var_player (x + dx) (y + dy) (t + 1)). split; [|exact Hnext].
      apply in_or_app. right. apply in_flat_map. exists (dx, dy).
      split; [exact Hd|]. cbv zeta.
      rewrite (proj2 (pos_in_In _ _) Hvalid). now left.
  - exists (- var_player x y t). split; [now left|].
    exact (holds_not_player (x, y) t Hp ltac:(lia) NE).
Qed.

Lemma sat_pushes : sat (pushes vp (num_boxes e) (T e)).
Proof.
  apply forallb_forall. intros c Hc. unfold pushes in Hc.
  apply in_flat_map in Hc. destruct Hc as [t [Ht Hc]].
  apply in_flat_map in Hc. destruct Hc as [b [Hb Hc]].
  apply in_flat_map in Hc. destruct Hc as [[x y] [Hp Hc]].
  apply in_flat_map in Hc. destruct Hc as [[dx dy] [Hd Hc]].
  apply In_range in Ht. apply In_range in Hb. cbv zeta in Hc.
  destruct (pos_in (x + dx, y + dy) vp && pos_in (x + 2 * dx, y + 2 * dy) vp)
    eqn:Hcond; [|contradiction].
  apply andb_true_iff in Hcond. destruct Hcond as [Hbx Hbx2].
  apply pos_in_In in Hbx. apply pos_in_In in Hbx2.
  apply existsb_exists.
  destruct (pos_eq_dec (P t) (x, y)) as [E | NE].
  2:{ exists (- var_player x y t). split.
      - destruct Hc as [<- | [<- | []]]; now left.
      - exact (holds_not_player (x, y) t Hp ltac:(lia) NE). }
  destruct (pos_eq_dec (B t b) (x + dx, y + dy)) as [Eb | NEb].
  2:{ exists (- var_box b (x + dx) (y + dy) t). split.
      - destruct Hc as [<- | [<- | []]]; right; now left.
      - exact (holds_not_box b (x + dx, y + dy) t Hbx ltac:(lia) ltac:(lia) NEb). }
  pose proof (holds_box b (t + 1) ltac:(lia) ltac:(lia)) as Hbox.
  assert (Hstay : B (t + 1) b = (x + dx, y + dy) ->
                  exists l, In l c /\ holds nv trues l = true).
  { intros E'. rewrite E' in Hbox. cbn [fst snd] in Hbox.
    exists (var_box b (x + dx) (y + dy) (t + 1)). split; [|exact Hbox].
    destruct Hc as [<- | [<- | []]]; right; right; now left. }
  destruct (traj_next t ltac:(lia))
    as [E' | [[d [_ [_ E']]] | [d [Hd' [Ep [_ [_ Ec]]]]]]].
  - apply Hstay. now rewrite E'.
  - apply Hstay. now rewrite E'.
  - assert (Enext : B (t + 1) b =
                    if pos_eqb (B t b) (shift (P t) d)
                    then shift (shift (P t) d) d else B t b).
    { rewrite Ec. apply item_map. rewrite traj_boxes. lia. }
    destruct (pos_eqb (B t b) (shift (P t) d)) eqn:Epush;
      [|apply Hstay; now rewrite Enext].
    apply pos_eqb_eq in Epush. rewrite Eb, E in Epush.
    assert (Ed : d = (dx, dy))
      by (symmetry; apply (shift_injective (x, y)); exact Epush).
    subst d. rewrite E in Enext, Ep.
    unfold shift in Enext, Ep. cbn [fst snd] in Enext, Ep.
    destruct Hc as [<- | [<- | []]].
    + pose proof (holds_player (t + 1) ltac:(lia)) as Hpl.
      rewrite Ep in Hpl. cbn [fst snd] in Hpl.
      exists (var_player (x + dx) (y + dy) (t + 1)). split; [|exact Hpl].
      right. right. right. now left.
    + rewrite Enext in Hbox. cbn [fst snd] in Hbox.
      replace (x + dx + dx) with (x + 2 * dx) in Hbox by lia.
      replace (y + dy + dy) with (y + 2 * dy) in Hbox by lia.
      exists (var_box b (x + 2 * dx) (y + 2 * dy) (t + 1)). split; [|exact Hbox].
      right. right. right. now left.
Qed.

Lemma sat_box_stays : sat (box_stays vp (num_boxes e) (T e)).
Proof.
  apply forallb_forall. intros c Hc. unfold box_stays in Hc.
  apply in_flat_map in Hc. destruct Hc as [t [Ht Hc]].
  apply in_flat_map in Hc. destruct Hc as [b [Hb Hc]].
  apply in_map_iff in Hc. destruct Hc as [[x y] [<- Hp]].
  apply In_range in Ht. apply In_range in Hb.
  apply existsb_exists.
  destruct (pos_eq_dec (B t b) (x, y)) as [Eb | NEb].
  2:{ exists (- var_box b x y t). split; [now left|].
      exact (holds_not_box b (x, y) t Hp ltac:(lia) ltac:(lia) NEb). }
  pose proof (holds_box b (t + 1) ltac:(lia) ltac:(lia)) as Hbox.
  assert (Hstay : B (t + 1) b = (x, y) ->
                  exists l, In l ([- var_box b x y t; var_box b x y (t + 1)]
                                  ++ flat_map (fun '(dx, dy) =>
                                       let px := x - dx in
                                       let py := y - dy in
                                       let nx := x + dx in
                                       let ny := y + dy in
                                       if pos_in (px, py) vp && pos_in (nx, ny) vp
                                       then [var_player px py t] else [])
                                     DIRS_values)
                            /\ holds nv trues l = true).
  { intros E'. rewrite E' in Hbox. cbn [fst snd] in Hbox.
    exists (var_box b x y (t + 1)). split; [|exact Hbox]. right. now left. }
  destruct (traj_next t ltac:(lia))
    as [E' | [[d [_ [_ E']]] | [d [Hd' [Ep [_ [Hbeyond Ec]]]]]]].
  - apply Hstay. now rewrite E'.
  - apply Hstay. now rewrite E'.
  - assert (Enext : B (t + 1) b =
                    if pos_eqb (B t b) (shift (P t) d)
                    then shift (shift (P t) d) d else B t b).
    { rewrite Ec. apply item_map. rewrite traj_boxes. lia. }
    destruct (pos_eqb (B t b) (shift (P t) d)) eqn:Epush;
      [|apply Hstay; now rewrite Enext].
    apply pos_eqb_eq in Epush. rewrite Eb in Epush.
    pose proof (holds_player t ltac:(lia)) as Hpl.
    pose proof (player_valid t) as Hpv.
    rewrite <- Epush in Hbeyond.
    destruct (P t) as [px py]. destruct d as [dx dy].
    unfold shift in Epush, Hbeyond. cbn [fst snd] in Epush, Hbeyond, Hpl.
    inversion Epush. subst x y.
    exists (var_player px py t). split; [|exact Hpl].
    apply in_or_app. right. apply in_flat_map. exists (dx, dy).
    split; [exact Hd'|]. cbv zeta.
    replace (px + dx - dx) with px by lia. replace (py + dy - dy) with py by lia.
    rewrite (proj2 (pos_in_In _ _) Hpv), (proj2 (pos_in_In _ _) Hbeyond).
    now left.
Qed.

Lemma sat_goal_condition : sat (goal_condition (num_boxes e) (T e) (goals e)).
Proof.
  apply forallb_forall. intros c Hc. unfold goal_condition in Hc.
  apply in_map_iff in Hc. destruct Hc as [b [<- Hb]]. apply In_range in Hb.
  apply existsb_exists.
  exists (var_box b (fst (B (T e) b)) (snd (B (T e) b)) (T e)). split.
  - apply in_map_iff. exists (B (T e) b). split; [destruct (B (T e) b); reflexivity|].
    pose proof (box_crate (T e) b ltac:(lia)) as Hin. rewrite traj_end in *.
    unfold solved in Hsolved.
    apply pos_in_In. exact (proj1 (forallb_forall _ _) Hsolved _ Hin).
  - apply holds_box; lia.
Qed.

Lemma plan_satisfies (f : CNF) :
  encode e = (f, Ok tt) -> cnf e = [] -> is_model (plan_model e moves) f = true.
Proof.
  intros He Hcnf. destruct (encode_ok e f He) as [ps' [Hps' ->]].
  rewrite Hps in Hps'. inversion Hps'. subst ps'. rewrite Hcnf. cbn [app].
  unfold plan_model. apply model_of_is_model.
  rewrite !forallb_app.
  apply andb_true_iff; split; [apply sat_initial_player|].
  apply andb_true_iff; split; [apply sat_initial_boxes|].
  apply andb_true_iff; split; [apply sat_player_somewhere|].
  apply andb_true_iff; split; [apply sat_player_at_most_one|].
  apply andb_true_iff; split; [apply sat_box_somewhere|].
  apply andb_true_iff; split; [apply sat_box_at_most_one|].
  apply andb_true_iff; split; [apply sat_player_box_apart|].
  apply andb_true_iff; split; [apply sat_boxes_apart|].
  apply andb_true_iff; split; [apply sat_player_moves|].
  apply andb_true_iff; split; [apply sat_pushes|].
  apply andb_true_iff; split; [apply sat_box_stays|].
  apply sat_goal_condition.
Qed.

Lemma plan_model_ignores_walls : ignores_walls (plan_model e moves) e.
Proof.
  intros x y t Hx Hy Hwall Ht Hin. unfold plan_model in Hin.
  apply In_model_of in Hin. destruct Hin as [[_ Hin] | [Hneg _]].
  - apply mem_In in Hin.
    pose proof (player_var_only (x, y) t) as H. cbn [fst snd] in H.
    specialize (H ltac:(lia) ltac:(lia) Ht Hin).
    pose proof (player_valid t) as Hv. rewrite H in Hv.
    apply In_valid_positions in Hv. destruct Hv as [_ [_ Hv]]. congruence.
  - unfold var_player in Hneg. lia.
Qed.

End PlanModel.

(** ** Layouts that can be solved have a model *)

Lemma init_parsed (g : list (list string)) (horizon : Z) (e : SokobanEncoder) :
  init g horizon = Ok e ->
  goals e = cells_with g "G" (N e) (M e) /\
  boxes e = cells_with g "B" (N e) (M e) /\
  walls e = cells_with g "#" (N e) (M e) /\
  player_start e = latest (cells_with g "P" (N e) (M e)) None.
Proof.
  unfold init. destruct (get g 0) as [row0|]; [|discriminate]. cbn [bind].
  unfold _parse_grid.
  destruct (parse_rows g (range 0 (len g)) (len row0) (mkParsed [] [] [] None))
    as [st|] eqn:Ep; [|discriminate].
  cbn [bind]. intros H. inversion H. subst e. clear H.
  destruct (parse_rows_collects g _ _ _ _ Ep) as [G1 [B1 [W1 P1]]].
  cbn [goals boxes walls player_start N M].
  repeat split; assumption.
Qed.

Lemma latest_In (l : list pos) (d : option pos) (p : pos) :
  latest l d = Some p -> In p l \/ d = Some p.
Proof.
  revert d. induction l as [|a l IH]; intros d H; cbn [latest] in H; [now right|].
  destruct (IH _ H) as [Hin | E]; [left; now right|].
  inversion E. left. now left.
Qed.

(** The layout [__init__] parses starts the physics in a legal state. *)
Lemma init_legal (g : list (list string)) (horizon : Z) (e : SokobanEncoder) (ps : pos) :
  init g horizon = Ok e -> player_start e = Some ps ->
  Reference.legal (valid_positions e) (Reference.initial_state e).
Proof.
  intros Hinit Hps.
  destruct (init_well_formed g horizon e Hinit) as [[_ [Hp [Hb _]]] _].
  destruct (init_parsed g horizon e Hinit) as [_ [Eb [_ Ep]]].
  unfold Reference.legal, Reference.initial_state. rewrite Hps.
  cbn [Reference.player Reference.crates].
  split; [apply Hp; exact Hps|]. split; [exact Hb|]. split.
  - intros Hin. rewrite Hps in Ep. symmetry in Ep.
    apply latest_In in Ep. destruct Ep as [Ep | Ep]; [|discriminate].
    rewrite Eb in Hin. unfold cells_with in Ep, Hin.
    apply filter_In in Ep. apply filter_In in Hin.
    destruct Ep as [_ EP], Hin as [_ EB]. unfold holds_char in EP, EB.
    destruct (cell_of g ps) as [c|]; [|discriminate].
    apply String.eqb_eq in EP. apply String.eqb_eq in EB. congruence.
  - rewrite Eb. unfold cells_with. apply NoDup_filter, NoDup_grid_cells.
Qed.

Lemma reaches_goal_prefix (vp gs : list pos) (moves : list string) (s : Reference.state) :
  Reference.reaches_goal vp gs s moves = true ->
  exists k, Reference.solved gs (Reference.run vp s (firstn k moves)) = true.
Proof.
  revert s. induction moves as [|mv rest IH]; intros s H; cbn [Reference.reaches_goal] in H.
  - exists 0%nat. now rewrite orb_false_r in H.
  - destruct (Reference.solved gs s) eqn:Es; [now exists 0%nat|].
    cbn [orb] in H. destruct (IH _ H) as [k Hk]. exists (S k). exact Hk.
Qed.

(** What a solving plan of at most [T] moves gives, on a grid within the
    digits of the numbering. *)
Lemma solvable_has_model (g : list (list string)) (horizon : Z)
      (e : SokobanEncoder) (f : CNF) (moves : list string) :
  init g horizon = Ok e -> encode e = (f, Ok tt) ->
  N e <= 10 -> M e <= 10 -> 0 <= horizon <= 98 ->
  (List.length moves <= Z.to_nat horizon)%nat ->
  Reference.plan_solves e moves = true ->
  exists k,
    is_model (Reference.plan_model e (firstn k moves)) f = true /\
    Reference.ignores_walls (Reference.plan_model e (firstn k moves)) e.
Proof.
  intros Hinit He HN HM HT Hlen Hsolves.
  destruct (init_well_formed g horizon e Hinit) as [Hwf [HTe Hcnf]].
  destruct (encode_ok e f He) as [ps [Hps _]].
  pose proof (init_legal g horizon e ps Hinit Hps) as Hlegal.
  destruct (reaches_goal_prefix _ _ _ _ Hsolves) as [k Hk].
  assert (Hlen' : (List.length (firstn k moves) <= Z.to_nat (T e))%nat).
  { rewrite HTe, length_firstn. lia. }
  rewrite <- HTe in HT.
  exists k. split.
  - apply (plan_satisfies e (firstn k moves) ps); assumption.
  - apply (plan_model_ignores_walls e (firstn k moves)); assumption.
Qed.

(** A model of the clause set is not the empty list. *)
Lemma model_not_empty (e : SokobanEncoder) (f : CNF) (m : model) :
  encode e = (f, Ok tt) -> is_model m f = true -> m <> [].
Proof.
  intros He Hm.
  destruct (encode_includes e f He) as [ps [_ [I1 _]]].
  assert (Hin : In (var_player (fst ps) (snd ps) 0) m).
  { apply (model_unit m f _ Hm). apply I1. now left. }
  intros ->. contradiction.
Qed.

(** X12. Completeness of the Sokoban encoding on grids of at most 10
    rows and 10 columns with a horizon of at most 98: when some plan of
    at most [T] moves puts every box on a goal under the push/stay
    physics, the clause set has a model, namely the assignment that
    describes a prefix of the plan followed by waiting; that assignment
    names every variable up to the last box variable and makes no player
    variable of a wall cell true. *)
Theorem sokoban_plan_is_model (g : list (list string)) (horizon : Z)
        (e : SokobanEncoder) (f : CNF) (moves : list string) :
  init g horizon = Ok e -> encode e = (f, Ok tt) ->
  N e <= 10 -> M e <= 10 -> 0 <= horizon <= 98 ->
  (List.length moves <= Z.to_nat horizon)%nat ->
  Reference.plan_solves e moves = true ->
  exists k,
    is_model (Reference.plan_model e (firstn k moves)) f = true /\
    total_over (10000 * (num_boxes e + 1))
               (Reference.plan_model e (firstn k moves)) = true /\
    Reference.ignores_walls (Reference.plan_model e (firstn k moves)) e.
Proof.
  intros Hinit He HN HM HT Hlen Hsolves.
  destruct (solvable_has_model g horizon e f moves Hinit He HN HM HT Hlen Hsolves)
    as [k [Hm Hw]].
  exists k. split; [exact Hm|]. split; [apply model_of_total | exact Hw].
Qed.

Lemma sokoban_plan_is_model_witness :
  exists k,
    is_model (Reference.plan_model Inputs.corridor_encoder (firstn k ["R"%string]))
             Inputs.corridor_cnf = true /\
    total_over 20000
      (Reference.plan_model Inputs.corridor_encoder (firstn k ["R"%string])) = true /\
    Reference.ignores_walls
      (Reference.plan_model Inputs.corridor_encoder (firstn k ["R"%string]))
      Inputs.corridor_encoder.
Proof.
  apply (sokoban_plan_is_model Inputs.corridor 1 Inputs.corridor_encoder
                               Inputs.corridor_cnf ["R"%string]).
  - reflexivity.
  - reflexivity.
  - cbn. lia.
  - cbn. lia.
  - lia.
  - cbn. lia.
  - vm_compute. reflexivity.
Defined.

(** ** The literals of the clause set *)

Section Literals.
Variable e : SokobanEncoder.
Hypothesis Hwf : well_formed e.
Hypothesis HT : 0 <= T e.

Lemma cell_nonneg (p : pos) : In p (valid_positions e) -> 0 <= fst p /\ 0 <= snd p.
Proof.
  destruct p as [x y]. intros Hp. apply In_valid_positions in Hp.
  cbn [fst snd]. lia.
Qed.

Lemma names_player (p : pos) (t : Z) :
  In p (valid_positions e) -> 0 <= t <= T e ->
  names_valid e (var_player (fst p) (snd p) t) /\
  names_valid e (- var_player (fst p) (snd p) t).
Proof.
  intros Hp Ht. pose proof (cell_nonneg p Hp).
  split; exists p, t; (split; [exact Hp|]; split; [exact Ht|]; left);
    unfold var_player; lia.
Qed.

Lemma names_box (b : Z) (p : pos) (t : Z) :
  In p (valid_positions e) -> 0 <= t <= T e -> 0 <= b < num_boxes e ->
  names_valid e (var_box b (fst p) (snd p) t) /\
  names_valid e (- var_box b (fst p) (snd p) t).
Proof.
  intros Hp Ht Hb. pose proof (cell_nonneg p Hp).
  split; exists p, t; (split; [exact Hp|]; split; [exact Ht|]; right;
    exists b; split; [exact Hb|]); unfold var_box; lia.
Qed.

Lemma names_families (ps : pos) (c : clause) (l : Z) :
  player_start e = Some ps ->
  In c (initial_player ps
        ++ initial_boxes (num_boxes e) (boxes e)
        ++ player_somewhere (valid_positions e) (T e)
        ++ player_at_most_one (valid_positions e) (T e)
        ++ box_somewhere (valid_positions e) (num_boxes e) (T e)
        ++ box_at_most_one (valid_positions e) (num_boxes e) (T e)
        ++ player_box_apart (valid_positions e) (num_boxes e) (T e)
        ++ boxes_apart (valid_positions e) (num_boxes e) (T e)
        ++ player_moves (valid_positions e) (T e)
        ++ pushes (valid_positions e) (num_boxes e) (T e)
        ++ box_stays (valid_positions e) (num_boxes e) (T e)
        ++ goal_condition (num_boxes e) (T e) (goals e)) ->
  In l c -> names_valid e l.
Proof.
  intros Hps Hc Hl. destruct Hwf as [Hnb [Hp0 [Hb0 Hg0]]].
  repeat (apply in_app_or in Hc; destruct Hc as [Hc | Hc]).
  - destruct Hc as [<- | []]. destruct Hl as [<- | []].
    apply names_player; [apply Hp0; exact Hps | lia].
  - unfold initial_boxes in Hc. apply in_map_iff in Hc.
    destruct Hc as [b [<- Hb]]. apply In_range in Hb.
    destruct Hl as [<- | []].
    apply names_box; [|lia | lia]. apply Hb0. apply item_In. lia.
  - unfold player_somewhere in Hc. apply in_map_iff in Hc.
    destruct Hc as [t [<- Ht]]. apply In_range in Ht.
    apply in_map_iff in Hl. destruct Hl as [[x y] [<- Hp]].
    apply (names_player (x, y)); [exact Hp | lia].
  - unfold player_at_most_one in Hc.
    apply in_flat_map in Hc. destruct Hc as [t [Ht Hc]].
    apply in_flat_map in Hc. destruct Hc as [i [Hi Hc]].
    apply in_map_iff in Hc. destruct Hc as [j [<- Hj]].
    apply In_range in Ht. apply In_range in Hi. apply In_range in Hj.
    cbv zeta in Hl. destruct Hl as [<- | [<- | []]];
      apply names_player; try lia; apply item_In; lia.
  - unfold box_somewhere in Hc.
    apply in_flat_map in Hc. destruct Hc as [t [Ht Hc]].
    apply in_map_iff in Hc. destruct Hc as [b [<- Hb]].
    apply In_range in Ht. apply In_range in Hb.
    apply in_map_iff in Hl. destruct Hl as [[x y] [<- Hp]].
    apply (names_box b (x, y)); [exact Hp | lia | lia].
  - unfold box_at_most_one in Hc.
    apply in_flat_map in Hc. destruct Hc as [t [Ht Hc]].
    apply in_flat_map in Hc. destruct Hc as [b [Hb Hc]].
    apply in_flat_map in Hc. destruct Hc as [i [Hi Hc]].
    apply in_map_iff in Hc. destruct Hc as [j [<- Hj]].
    apply In_range in Ht. apply In_range in Hb.
    apply In_range in Hi. apply In_range in Hj.
    cbv zeta in Hl. destruct Hl as [<- | [<- | []]];
      apply names_box; try lia; apply item_In; lia.
  - unfold player_box_apart in Hc.
    apply in_flat_map in Hc. destruct Hc as [t [Ht Hc]].
    apply in_flat_map in Hc. destruct Hc as [[x y] [Hp Hc]].
    apply in_map_iff in Hc. destruct Hc as [b [<- Hb]].
    apply In_range in Ht. apply In_range in Hb.
    destruct Hl as [<- | [<- | []]].
    + apply (names_player (x, y)); [exact Hp | lia].
    + apply (names_box b (x, y)); [exact Hp | lia | lia].
  - unfold boxes_apart in Hc.
    apply in_flat_map in Hc. destruct Hc as [t [Ht Hc]].
    apply in_flat_map in Hc. destruct Hc as [[x y] [Hp Hc]].
    apply in_flat_map in Hc. destruct Hc as [b1 [Hb1 Hc]].
    apply in_map_iff in Hc. destruct Hc as [b2 [<- Hb2]].
    apply In_range in Ht. apply In_range in Hb1. apply In_range in Hb2.
    destruct Hl as [<- | [<- | []]];
      apply (names_box _ (x, y)); try lia; exact Hp.
  - unfold player_moves in Hc.
    apply in_flat_map in Hc. destruct Hc as [t [Ht Hc]].
    apply in_map_iff in Hc. destruct Hc as [[x y] [<- Hp]].
    apply In_range in Ht.
    apply in_app_or in Hl. destruct Hl as [[<- | [<- | []]] | Hl].
    + apply (names_player (x, y)); [exact Hp | lia].
    + apply (names_player (x, y)); [exact Hp | lia].
    + apply in_flat_map in Hl. destruct Hl as [[dx dy] [_ Hl]]. cbv zeta in Hl.
      destruct (pos_in (x + dx, y + dy) (valid_positions e)) eqn:Ev; [|contradiction].
      destruct Hl as [<- | []]. apply pos_in_In in Ev.
      apply (names_player (x + dx, y + dy)); [exact Ev | lia].
  - unfold pushes in Hc.
    apply in_flat_map in Hc. destruct Hc as [t [Ht Hc]].
    apply in_flat_map in Hc. destruct Hc as [b [Hb Hc]].
    apply in_flat_map in Hc. destruct Hc as [[x y] [Hp Hc]].
    apply in_flat_map in Hc. destruct Hc as [[dx dy] [_ Hc]].
    apply In_range in Ht. apply In_range in Hb. cbv zeta in Hc.
    destruct (pos_in (x + dx, y + dy) (valid_positions e)
              && pos_in (x + 2 * dx, y + 2 * dy) (valid_positions e)) eqn:Hcond;
      [|contradiction].
    apply andb_true_iff in Hcond. destruct Hcond as [H1 H2].
    apply pos_in_In in H1. apply pos_in_In in H2.
    destruct Hc as [<- | [<- | []]]; cbn [app In] in Hl;
      destruct Hl as [<- | [<- | [<- | [<- | []]]]];
      first [ apply (names_player (x, y)); [exact Hp | lia]
            | apply (names_player (x + dx, y + dy)); [exact H1 | lia]
            | apply (names_box b (x + dx, y + dy)); [exact H1 | lia | lia]
            | apply (names_box b (x + 2 * dx, y + 2 * dy)); [exact H2 | lia | lia] ].
  - unfold box_stays in Hc.
    apply in_flat_map in Hc. destruct Hc as [t [Ht Hc]].
    apply in_flat_map in Hc. destruct Hc as [b [Hb Hc]].
    apply in_map_iff in Hc. destruct Hc as [[x y] [<- Hp]].
    apply In_range in Ht. apply In_range in Hb.
    apply in_app_or in Hl. destruct Hl as [[<- | [<- | []]] | Hl].
    + apply (names_box b (x, y)); [exact Hp | lia | lia].
    + apply (names_box b (x, y)); [exact Hp | lia | lia].
    + apply in_flat_map in Hl. destruct Hl as [[dx dy] [_ Hl]]. cbv zeta in Hl.
      destruct (pos_in (x - dx, y - dy) (valid_positions e)
                && pos_in (x + dx, y + dy) (valid_positions e)) eqn:Hcond;
        [|contradiction].
      apply andb_true_iff in Hcond. destruct Hcond as [H1 _].
      apply pos_in_In in H1. destruct Hl as [<- | []].
      apply (names_player (x - dx, y - dy)); [exact H1 | lia].
  - unfold goal_condition in Hc. apply in_map_iff in Hc.
    destruct Hc as [b [<- Hb]]. apply In_range in Hb.
    apply in_map_iff in Hl. destruct Hl as [[gx gy] [<- Hg]].
    apply (names_box b (gx, gy)); [apply Hg0; exact Hg | lia | lia].
Qed.

End Literals.



(** ** Any model describes a plan *)

Section WithoutWalls.
Variables (e : SokobanEncoder) (f : CNF) (m : model).
Hypothesis HN : N e <= 10.
Hypothesis HM : M e <= 10.
Hypothesis HT : 0 <= T e <= 98.
Hypothesis Hnames : forall c l, In c f -> In l c -> names_valid e l.
Hypothesis Hm : is_model m f = true.

Lemma In_wall_variables (l : Z) :
  In l (wall_variables e) <->
  exists x y t, 0 <= x < N e /\ 0 <= y < M e /\ pos_in (x, y) (walls e) = true /\
                0 <= t <= T e /\ l = var_player x y t.
Proof.
  unfold wall_variables. rewrite in_flat_map. split.
  - intros [t [Ht Hin]]. apply In_range in Ht.
    apply in_map_iff in Hin. destruct Hin as [[x y] [<- Hp]].
    apply filter_In in Hp. destruct Hp as [Hgrid Hwall].
    apply In_grid_cells in Hgrid.
    exists x, y, t. repeat split; try lia. exact Hwall.
  - intros [x [y [t [Hx [Hy [Hwall [Ht ->]]]]]]].
    exists t. split; [apply In_range; lia|].
    apply in_map_iff. exists (x, y). split; [reflexivity|].
    apply filter_In. split; [apply In_grid_cells; lia | exact Hwall].
Qed.

Lemma clause_literal_kept (c : clause) (l : Z) :
  In c f -> In l c -> ~ In l (wall_variables e).
Proof.
  intros Hc Hl Hin. apply In_wall_variables in Hin.
  destruct Hin as [x [y [t [Hx [Hy [Hwall [Ht ->]]]]]]].
  destruct (Hnames c _ Hc Hl) as [[x' y'] [t' [Hp [Ht' H]]]].
  pose proof Hp as Hp'. apply In_valid_positions in Hp'.
  cbn [fst snd] in H.
  assert (Habs : Z.abs (var_player x y t) = var_player x y t)
    by (unfold var_player; lia).
  rewrite Habs in H. destruct H as [H | [b [Hb H]]].
  - apply var_player_injective in H; try lia.
    destruct H as [-> [-> _]]. destruct Hp' as [_ [_ Hfree]]. congruence.
  - revert H. apply var_player_box_distinct; lia.
Qed.

Lemma without_walls_model : is_model (without_walls e m) f = true.
Proof.
  unfold is_model in *. apply andb_true_iff in Hm. destruct Hm as [Hcons Hsat].
  apply andb_true_iff. split.
  - unfold consistent in *. apply forallb_forall. intros l Hl.
    unfold without_walls in Hl. apply filter_In in Hl. destruct Hl as [Hl _].
    pose proof (proj1 (forallb_forall _ _) Hcons l Hl) as Hneg. cbv beta in Hneg.
    apply negb_true_iff. apply negb_true_iff in Hneg.
    apply mem_false. apply mem_false in Hneg.
    intros Hin. apply Hneg. unfold without_walls in Hin.
    apply filter_In in Hin. tauto.
  - unfold cnf_sat in *. apply forallb_forall. intros c Hc.
    pose proof (proj1 (forallb_forall _ _) Hsat c Hc) as Hcl.
    unfold clause_sat in *. apply existsb_exists in Hcl.
    destruct Hcl as [l [Hl Hlm]]. apply existsb_exists. exists l.
    split; [exact Hl|]. apply mem_In. apply mem_In in Hlm.
    unfold without_walls. apply filter_In. split; [exact Hlm|].
    apply negb_true_iff, mem_false. exact (clause_literal_kept c l Hc Hl).
Qed.

Lemma without_walls_ignores : Reference.ignores_walls (without_walls e m) e.
Proof.
  intros x y t Hx Hy Hwall Ht Hin. unfold without_walls in Hin.
  apply filter_In in Hin. destruct Hin as [_ Hkeep].
  apply negb_true_iff, mem_false in Hkeep. apply Hkeep.
  apply In_wall_variables. exists x, y, t. repeat split; lia || assumption.
Qed.

End WithoutWalls.

(** A model of the clause set, whatever it says about wall cells, comes
    with a plan of at most [T] moves that solves the layout. *)
Lemma model_has_plan (g : list (list string)) (horizon : Z)
      (e : SokobanEncoder) (f : CNF) (m : model) :
  init g horizon = Ok e -> encode e = (f, Ok tt) ->
  N e <= 10 -> M e <= 10 -> 0 <= horizon <= 98 ->
  is_model m f = true ->
  is_model (without_walls e m) f = true /\
  exists moves, decode (without_walls e m) e = Ok moves /\
                (List.length moves <= Z.to_nat horizon)%nat /\
                Reference.plan_solves e moves = true.
Proof.
  intros Hinit He HN HM HT Hm.
  destruct (init_well_formed g horizon e Hinit) as [Hwf [HTe Hcnf]].
  assert (Hnames : forall c l, In c f -> In l c -> names_valid e l).
  { destruct (encode_ok e f He) as [ps [Hps Ef]].
    rewrite Hcnf in Ef. cbn [app] in Ef. subst f.
    intros c l Hc Hl.
    apply (names_families e Hwf ltac:(lia) ps c l Hps Hc Hl). }
  rewrite <- HTe in HT.
  pose proof (without_walls_model e f m HN HM HT Hnames Hm) as Hm'.
  pose proof (without_walls_ignores e m) as Hclean.
  split; [exact Hm'|].
  destruct (encode_includes e f He)
    as [ps [Hps [I1 [I2 [I3 [I4 [I5 [I6 [I7 [I8 [I9 [I10 [I11 I12]]]]]]]]]]]]].
  destruct (decoded_plan_solves e f (without_walls e m) ps) as [Hdec Hsolve];
    try assumption; [lia|].
  exists (Reference.decoded_plan (without_walls e m) e).
  split; [exact Hdec|]. split; [|exact Hsolve].
  unfold decode in Hdec.
  destruct (moves_loop_bounded _ _ _ _ Hdec) as [rest [E [Hlen _]]].
  cbn [app] in E. subst rest. rewrite range_length in Hlen. rewrite <- HTe. lia.
Qed.

(** X14. On grids within the digits of the numbering, any model of the
    clause set, whatever it says about the player variables of wall cells,
    comes with a plan of at most [T] moves that puts every box on a goal
    under the push/stay physics: a satisfiable clause set means a solvable
    layout. *)
Theorem sokoban_model_has_plan (g : list (list string)) (horizon : Z)
        (e : SokobanEncoder) (f : CNF) (m : model) :
  init g horizon = Ok e -> encode e = (f, Ok tt) ->
  N e <= 10 -> M e <= 10 -> 0 <= horizon <= 98 ->
  is_model m f = true ->
  is_model (without_walls e m) f = true /\
  exists moves, decode (without_walls e m) e = Ok moves /\
                (List.length moves <= Z.to_nat horizon)%nat /\
                Reference.plan_solves e moves = true.
Proof. exact (model_has_plan g horizon e f m). Qed.

Lemma sokoban_model_has_plan_witness :
  is_model (without_walls Inputs.walled_encoder Inputs.walled_model)
           Inputs.walled_cnf = true /\
  exists moves,
    decode (without_walls Inputs.walled_encoder Inputs.walled_model)
           Inputs.walled_encoder = Ok moves /\
    (List.length moves <= Z.to_nat 1)%nat /\
    Reference.plan_solves Inputs.walled_encoder moves = true.
Proof.
  apply (sokoban_model_has_plan Inputs.walled 1 Inputs.walled_encoder
                                Inputs.walled_cnf Inputs.walled_model).
  - reflexivity.
  - reflexivity.
  - cbn. lia.
  - cbn. lia.
  - lia.
  - apply model_of_is_model. vm_compute. reflexivity.
Defined.

(** X15. The answer -1 is exact on grids within the digits of the
    numbering: with a solver that is sound and that finds a model of the
    clause set when there is one, [solve_sokoban] returns -1 exactly when
    no plan of at most [T] moves puts every box on a goal. *)
Theorem sokoban_minus_one_iff_no_plan (solver : CNF -> option model)
        (g : list (list string)) (horizon : Z) (e : SokobanEncoder) (f : CNF) :
  init g horizon = Ok e -> encode e = (f, Ok tt) ->
  N e <= 10 -> M e <= 10 -> 0 <= horizon <= 98 ->
  sound solver -> Reference.complete_on solver f ->
  (solve_sokoban solver g horizon = Ok (PyInt (-1)) <->
   forall moves, (List.length moves <= Z.to_nat horizon)%nat ->
                 Reference.plan_solves e moves = false).
Proof.
  intros Hinit He HN HM HT Hsound Hcomplete.
  assert (Hcall : solve_sokoban solver g horizon =
                  match solver f with
                  | None => Ok (PyInt (-1))
                  | Some [] => Ok (PyInt (-1))
                  | Some m => moves <- decode m e ;; Ok (PyList moves)
                  end).
  { unfold solve_sokoban. rewrite Hinit. cbn [bind]. rewrite He. reflexivity. }
  rewrite Hcall. split.
  - intros Hminus moves Hlen.
    destruct (Reference.plan_solves e moves) eqn:Hsolves; [exfalso | reflexivity].
    destruct (solvable_has_model g horizon e f moves Hinit He HN HM HT Hlen Hsolves)
      as [k [Hm _]].
    destruct (solver f) as [m|] eqn:Hs; [|exact (Hcomplete _ Hm Hs)].
    pose proof (model_not_empty e f m He (Hsound _ _ Hs)) as Hne.
    destruct m as [|l m]; [congruence|].
    destruct (decode (l :: m) e); discriminate.
  - intros Hnone. destruct (solver f) as [m|] eqn:Hs; [exfalso | reflexivity].
    destruct (model_has_plan g horizon e f m Hinit He HN HM HT (Hsound _ _ Hs))
      as [_ [moves [_ [Hlen Hsolves]]]].
    rewrite (Hnone moves Hlen) in Hsolves. discriminate.
Qed.

Lemma sokoban_minus_one_iff_no_plan_witness :
  solve_sokoban (fun _ => None) Inputs.dead_end 1 = Ok (PyInt (-1)) <->
  forall moves, (List.length moves <= Z.to_nat 1)%nat ->
                Reference.plan_solves Inputs.dead_end_encoder moves = false.
Proof.
  apply (sokoban_minus_one_iff_no_plan (fun _ => None) Inputs.dead_end 1
                                       Inputs.dead_end_encoder Inputs.dead_end_cnf).
  - reflexivity.
  - reflexivity.
  - cbn. lia.
  - cbn. lia.
  - lia.
  - intros f m H. discriminate H.
  - intros m Hm. rewrite empty_clause_unsat in Hm; [discriminate|].
    apply has_clause_In. reflexivity.
Defined.

(** ** Sudoku grids whose side is not a perfect square *)


Section NonSquare.
Variables (n : Z) (f : CNF) (m : model) (bl : CNF).
Hypothesis Hn : 1 <= n.
Hypothesis Hm : is_model m f = true.
Hypothesis Hcellsf : incl (Sudoku.cell_clauses n) f.
Hypothesis Hbl : Sudoku.subgrid_clauses n (Sudoku.int_sqrt n) = Ok bl.
Hypothesis Hblf : incl bl f.



End NonSquare.



(** ** The errors of [solve_sokoban] *)




(** ** A plan, its model, and the plan decoded from the model *)

Lemma flat_map_map {A B C : Type} (f : B -> list C) (g : A -> B) (l : list A) :
  flat_map f (map g l) = flat_map (fun x => f (g x)) l.
Proof. induction l as [|a l IH]; cbn [map flat_map]; [reflexivity | now rewrite IH]. Qed.

Lemma flat_map_same {A B : Type} (f g : A -> list B) (l : list A) :
  (forall x, In x l -> f x = g x) -> flat_map f l = flat_map g l.
Proof.
  induction l as [|a l IH]; intros H; cbn [flat_map]; [reflexivity|].
  rewrite (H a (or_introl eq_refl)), IH; [reflexivity|].
  intros x Hx. apply H. now right.
Qed.

Lemma flat_map_all_nil {A B : Type} (f : A -> list B) (l : list A) :
  (forall x, f x = []) -> flat_map f l = [].
Proof.
  intros H. induction l as [|a l IH]; cbn [flat_map]; [reflexivity|].
  now rewrite H, IH.
Qed.

Lemma step_player (vp : list pos) (s : Reference.state) (mv : string) :
  Reference.player (Reference.step vp s mv) = Reference.player s \/
  Reference.player (Reference.step vp s mv) =
    Reference.shift (Reference.player s) (Reference.direction mv).
Proof.
  unfold Reference.step.
  repeat match goal with
         | |- context [if ?c then _ else _] => destruct c
         end; cbn [Reference.player]; tauto.
Qed.

Lemma move_of_direction (p : pos) (mv : string) :
  Reference.direction mv <> (0, 0) ->
  move_of p (Reference.shift p (Reference.direction mv)) = [mv].
Proof.
  unfold Reference.direction.
  destruct (find _ DIRS) as [d|] eqn:E; [|congruence]. intros _.
  apply find_some in E. destruct E as [Hin Hkey]. apply String.eqb_eq in Hkey.
  destruct (move_of_shift p (snd d)) as [mv' [Hmove Hdir]];
    [unfold DIRS_values; apply in_map; exact Hin|].
  rewrite Hmove. f_equal.
  destruct Hin as [<- | [<- | [<- | [<- | []]]]]; cbn [fst snd] in *; subst mv;
    destruct p as [x y]; unfold move_of, Reference.shift in Hmove;
    cbn [fst snd] in Hmove;
    repeat match type of Hmove with
           | context [if ?c then _ else _] => destruct c eqn:?
           end;
    repeat match goal with
           | H : (_ =? _) = true |- _ => apply Z.eqb_eq in H
           end;
    try lia; inversion Hmove; reflexivity.
Qed.

(** Replaying a plan in which every move moves the player, and reading
    the moves off consecutive player cells, gives the plan back. *)
Lemma replay_decoded (vp : list pos) (moves : list string) :
  forall (s0 : Reference.state) (n : nat),
    (List.length moves <= n)%nat ->
    (forall k, (k < List.length moves)%nat ->
       Reference.player (Reference.run vp s0 (firstn (S k) moves)) <>
       Reference.player (Reference.run vp s0 (firstn k moves))) ->
    flat_map (fun k =>
                move_of (Reference.player (Reference.run vp s0 (firstn k moves)))
                        (Reference.player (Reference.run vp s0 (firstn (S k) moves))))
             (seq 0 n) = moves.
Proof.
  induction moves as [|mv rest IH]; intros s0 n Hlen Heff.
  - apply flat_map_all_nil. intros k. rewrite !firstn_nil.
    apply move_of_same.
  - destruct n as [|n]; [cbn [List.length] in Hlen; lia|].
    cbn [seq flat_map]. rewrite <- seq_shift, flat_map_map.
    cbn [firstn Reference.run fold_left].
    assert (Hfirst : move_of (Reference.player s0)
                             (Reference.player (Reference.step vp s0 mv)) = [mv]).
    { specialize (Heff 0%nat ltac:(cbn [List.length]; lia)).
      cbn [firstn Reference.run fold_left] in Heff.
      destruct (step_player vp s0 mv) as [E | E]; [contradiction|].
      rewrite E. apply move_of_direction. intros Hz.
      rewrite Hz, shift_zero in E. contradiction. }
    rewrite Hfirst. cbn [app]. f_equal.
    apply (IH (Reference.step vp s0 mv) n); [cbn [List.length] in Hlen; lia|].
    intros k Hk. apply (Heff (S k)). cbn [List.length]. lia.
Qed.

Section RoundTrip.
Import Reference.
Variables (e : SokobanEncoder) (moves : list string) (ps : pos).
Hypothesis Hps : player_start e = Some ps.
Hypothesis Hwf : well_formed e.
Hypothesis Hstart : legal (valid_positions e) (initial_state e).
Hypothesis HN : N e <= 10.
Hypothesis HM : M e <= 10.
Hypothesis HT : 0 <= T e <= 98.
Hypothesis Hlen : (List.length moves <= Z.to_nat (T e))%nat.

(** [decode] finds the player where the plan has put it. *)
Lemma chosen_plan (t : Z) :
  0 <= t <= T e ->
  true_cells (plan_model e moves) e t <> [] /\
  chosen (plan_model e moves) e t = player (trajectory e moves t).
Proof.
  intros Ht.
  pose proof (player_valid e moves Hstart t) as Hv.
  assert (Hin : In (player (trajectory e moves t)) (true_cells (plan_model e moves) e t)).
  { unfold true_cells. apply filter_In. split.
    - destruct (player (trajectory e moves t)) as [x y].
      apply In_valid_positions in Hv. apply In_grid_cells. lia.
    - unfold plan_model. rewrite mem_model_of.
      apply (holds_player e moves Hwf Hstart HN HM HT Hlen). exact Ht. }
  split; [intros E; rewrite E in Hin; contradiction|].
  unfold chosen. apply hd_unique; [exact Hin|].
  intros [x y] Hq. unfold true_cells in Hq. apply filter_In in Hq.
  destruct Hq as [Hgrid Hq]. apply In_grid_cells in Hgrid.
  apply mem_In in Hq. unfold plan_model in Hq. apply In_model_of in Hq.
  cbn [fst snd] in Hq. destruct Hq as [[_ Hq] | [Hneg _]];
    [|unfold var_player in Hneg; lia].
  apply mem_In in Hq. symmetry.
  apply (player_var_only e moves Hwf Hstart HN HM HT Hlen (x, y) t);
    cbn [fst snd]; lia || assumption.
Qed.

Lemma plan_decoded :
  (forall k, (k < List.length moves)%nat ->
     player (trajectory e moves (Z.of_nat k + 1)) <>
     player (trajectory e moves (Z.of_nat k))) ->
  decode (plan_model e moves) e = Ok moves.
Proof.
  intros Heff.
  rewrite decode_when_found by (intros t Ht; apply chosen_plan; exact Ht).
  f_equal.
  transitivity (flat_map (fun t => move_of (player (trajectory e moves t))
                                           (player (trajectory e moves (t + 1))))
                         (range 0 (T e))).
  { apply flat_map_same. intros t Ht. apply In_range in Ht.
    destruct (chosen_plan t ltac:(lia)) as [_ ->].
    destruct (chosen_plan (t + 1) ltac:(lia)) as [_ ->]. reflexivity. }
  unfold range. rewrite flat_map_map, Z.sub_0_r.
  etransitivity;
    [|apply (replay_decoded (valid_positions e) moves (initial_state e)
                            (Z.to_nat (T e)) Hlen)].
  - apply flat_map_same. intros k _. unfold trajectory.
    replace (Z.to_nat (0 + Z.of_nat k)) with k by lia.
    replace (Z.to_nat (0 + Z.of_nat k + 1)) with (S k) by lia.
    reflexivity.
  - intros k Hk. specialize (Heff k Hk). unfold trajectory in Heff.
    replace (Z.to_nat (Z.of_nat k + 1)) with (S k) in Heff by lia.
    rewrite Nat2Z.id in Heff. exact Heff.
Qed.

End RoundTrip.

(** X18. Round trip on grids within the digits of the numbering: for a
    plan of at most [T] moves in which every move moves the player,
    [decode] applied to the assignment that describes the plan returns the
    plan itself. *)
Theorem plan_round_trip (g : list (list string)) (horizon : Z)
        (e : SokobanEncoder) (moves : list string) :
  init g horizon = Ok e -> player_start e <> None ->
  N e <= 10 -> M e <= 10 -> 0 <= horizon <= 98 ->
  (List.length moves <= Z.to_nat horizon)%nat ->
  (forall k, (k < List.length moves)%nat ->
     Reference.player (Reference.trajectory e moves (Z.of_nat k + 1)) <>
     Reference.player (Reference.trajectory e moves (Z.of_nat k))) ->
  decode (Reference.plan_model e moves) e = Ok moves.
Proof.
  intros Hinit Hplayer HN HM HT Hlen Heff.
  destruct (init_well_formed g horizon e Hinit) as [Hwf [HTe _]].
  destruct (player_start e) as [ps|] eqn:Hps; [|congruence].
  pose proof (init_legal g horizon e ps Hinit Hps) as Hlegal.
  rewrite <- HTe in HT, Hlen.
  exact (plan_decoded e moves Hwf Hlegal HN HM HT Hlen Heff).
Qed.

Lemma plan_round_trip_witness :
  decode (Reference.plan_model Inputs.corridor_encoder ["R"%string])
         Inputs.corridor_encoder = Ok ["R"%string].
Proof.
  apply (plan_round_trip Inputs.corridor 1 Inputs.corridor_encoder ["R"%string]).
  - reflexivity.
  - discriminate.
  - cbn. lia.
  - cbn. lia.
  - lia.
  - cbn. lia.
  - intros k Hk. assert (k = 0%nat) by (cbn in Hk; lia). subst k.
    vm_compute. discriminate.
Defined.

(** ** The size of the exclusivity families *)

Lemma range_cons (lo hi : Z) : lo < hi -> range lo hi = lo :: range (lo + 1) hi.
Proof.
  intros H. unfold range.
  replace (Z.to_nat (hi - lo)) with (S (Z.to_nat (hi - (lo + 1)))) by lia.
  cbn [seq map]. f_equal; [lia|].
  rewrite <- seq_shift, map_map. apply map_ext. intros i. lia.
Qed.

Lemma range_empty (lo hi : Z) : hi <= lo -> range lo hi = [].
Proof.
  intros H. unfold range. replace (Z.to_nat (hi - lo)) with 0%nat by lia.
  reflexivity.
Qed.

(** The pairs [i < j] below [k], counted from [lo] on. *)
Lemma pairs_count {A : Type} (pair : Z -> Z -> A) (k : Z) (d : nat) :
  forall lo, Z.of_nat d = k - lo ->
    2 * Z.of_nat (List.length
                    (flat_map (fun i => map (pair i) (range (i + 1) k)) (range lo k))) =
    (k - lo) * (k - lo - 1).
Proof.
  induction d as [|d IH]; intros lo Hd.
  - rewrite range_empty by lia. cbn [flat_map List.length]. nia.
  - rewrite range_cons by lia. cbn [flat_map].
    rewrite length_app, length_map, range_length, Nat2Z.inj_add.
    specialize (IH (lo + 1) ltac:(lia)). nia.
Qed.

Lemma length_flat_map_const {A B : Type} (f : A -> list B) (l : list A) (c : nat) :
  (forall x, List.length (f x) = c) ->
  List.length (flat_map f l) = (List.length l * c)%nat.
Proof.
  intros H. induction l as [|a l IH]; cbn [flat_map List.length]; [reflexivity|].
  rewrite length_app, H, IH. lia.
Qed.

(** X19. The size of the two at-most-one families: with [k] valid
    cells, [encode] appends [(T+1) * k(k-1)/2] clauses that keep the player
    in one cell and [(T+1) * num_boxes * k(k-1)/2] that keep each box in
    one cell, every one of them a clause of two literals. *)
Theorem exclusivity_clause_count (e : SokobanEncoder) :
  0 <= T e + 1 -> 0 <= num_boxes e ->
  2 * Z.of_nat (List.length (player_at_most_one (valid_positions e) (T e))) =
    (T e + 1) * (len (valid_positions e) * (len (valid_positions e) - 1)) /\
  2 * Z.of_nat (List.length
                  (box_at_most_one (valid_positions e) (num_boxes e) (T e))) =
    (T e + 1) * (num_boxes e * (len (valid_positions e) *
                                (len (valid_positions e) - 1))) /\
  Forall (fun c => List.length c = 2%nat)
         (player_at_most_one (valid_positions e) (T e)
          ++ box_at_most_one (valid_positions e) (num_boxes e) (T e)).
Proof.
  intros HT Hnb.
  set (vp := valid_positions e). set (k := len vp).
  assert (Hk : 0 <= k) by (unfold k, len; lia).
  assert (Hpairs : forall (pair : Z -> Z -> list Z),
            2 * Z.of_nat (List.length
                            (flat_map (fun i => map (pair i) (range (i + 1) k))
                                      (range 0 k))) = k * (k - 1)).
  { intros pair.
    rewrite (pairs_count pair k (Z.to_nat k) 0) by lia.
    rewrite Z.sub_0_r. reflexivity. }
  split; [|split].
  - unfold player_at_most_one.
    rewrite (length_flat_map_const _ _
               (List.length (flat_map (fun i => map (fun j =>
                  [- var_player (fst (item vp i)) (snd (item vp i)) 0;
                   - var_player (fst (item vp j)) (snd (item vp j)) 0])
                  (range (i + 1) k)) (range 0 k)))).
    + rewrite range_length, Nat2Z.inj_mul.
      specialize (Hpairs (fun i j =>
        [- var_player (fst (item vp i)) (snd (item vp i)) 0;
         - var_player (fst (item vp j)) (snd (item vp j)) 0])).
      cbv beta in Hpairs. rewrite Z2Nat.id by lia. rewrite <- Hpairs. ring.
    + intros t. cbv zeta. fold vp. fold k.
      apply Nat2Z.inj. apply (Z.mul_reg_l _ _ 2); [lia|].
      rewrite !Hpairs. reflexivity.
  - unfold box_at_most_one.
    rewrite (length_flat_map_const _ _
               (Z.to_nat (num_boxes e) *
                List.length (flat_map (fun i => map (fun j =>
                  [- var_box 0 (fst (item vp i)) (snd (item vp i)) 0;
                   - var_box 0 (fst (item vp j)) (snd (item vp j)) 0])
                  (range (i + 1) k)) (range 0 k)))%nat).
    + rewrite range_length, !Nat2Z.inj_mul.
      specialize (Hpairs (fun i j =>
        [- var_box 0 (fst (item vp i)) (snd (item vp i)) 0;
         - var_box 0 (fst (item vp j)) (snd (item vp j)) 0])).
      cbv beta in Hpairs. rewrite !Z2Nat.id by lia. rewrite <- Hpairs. ring.
    + intros t.
      rewrite (length_flat_map_const _ _
                 (List.length (flat_map (fun i => map (fun j =>
                    [- var_box 0 (fst (item vp i)) (snd (item vp i)) 0;
                     - var_box 0 (fst (item vp j)) (snd (item vp j)) 0])
                    (range (i + 1) k)) (range 0 k)))).
      * rewrite range_length. f_equal. lia.
      * intros b. cbv zeta. fold vp. fold k.
        apply Nat2Z.inj. apply (Z.mul_reg_l _ _ 2); [lia|].
        rewrite !Hpairs. reflexivity.
  - apply Forall_forall. intros c Hc. apply in_app_or in Hc.
    destruct Hc as [Hc | Hc].
    + unfold player_at_most_one in Hc.
      apply in_flat_map in Hc. destruct Hc as [t [_ Hc]].
      apply in_flat_map in Hc. destruct Hc as [i [_ Hc]].
      apply in_map_iff in Hc. destruct Hc as [j [<- _]]. reflexivity.
    + unfold box_at_most_one in Hc.
      apply in_flat_map in Hc. destruct Hc as [t [_ Hc]].
      apply in_flat_map in Hc. destruct Hc as [b [_ Hc]].
      apply in_flat_map in Hc. destruct Hc as [i [_ Hc]].
      apply in_map_iff in Hc. destruct Hc as [j [<- _]]. reflexivity.
Qed.

Lemma exclusivity_clause_count_witness :
  2 * Z.of_nat (List.length (player_at_most_one
                               (valid_positions Inputs.corridor_encoder) 1)) =
    (1 + 1) * (3 * (3 - 1)) /\
  2 * Z.of_nat (List.length (box_at_most_one
                               (valid_positions Inputs.corridor_encoder) 1 1)) =
    (1 + 1) * (1 * (3 * (3 - 1))).
Proof.
  destruct (exclusivity_clause_count Inputs.corridor_encoder) as [H1 [H2 _]].
  - cbn. lia.
  - cbn. lia.
  - split; [exact H1 | exact H2].
Defined.

(** ** Calling [encode] again *)

(** X20. [encode] appends to the clause list the encoder object
    keeps: a second call on the same object returns every clause twice.
    The clause set has the same models as before. *)
Theorem encode_accumulates (g : list (list string)) (horizon : Z)
        (e : SokobanEncoder) (f : CNF) :
  init g horizon = Ok e -> encode e = (f, Ok tt) ->
  encode (after_encode e) = (f ++ f, Ok tt) /\
  forall m, is_model m (f ++ f) = is_model m f.
Proof.
  intros Hinit He.
  destruct (init_well_formed g horizon e Hinit) as [_ [_ Hcnf]].
  destruct (encode_ok e f He) as [ps [Hps Ef]].
  rewrite Hcnf in Ef. cbn [app] in Ef. split.
  - unfold after_encode. rewrite He. cbn [fst].
    unfold encode at 1. cbn [player_start cnf T num_boxes boxes goals].
    rewrite Hps.
    change (valid_positions (mkEncoder (grid e) (T e) (N e) (M e) (goals e)
                                       (boxes e) (walls e) (Some ps)
                                       (num_boxes e) f))
      with (valid_positions e).
    rewrite <- Ef. reflexivity.
  - intros m. unfold is_model, cnf_sat. rewrite forallb_app.
    destruct (consistent m), (forallb (clause_sat m) f); reflexivity.
Qed.

Lemma encode_accumulates_witness :
  encode (after_encode Inputs.corridor_encoder) =
    (Inputs.corridor_cnf ++ Inputs.corridor_cnf, Ok tt) /\
  forall m, is_model m (Inputs.corridor_cnf ++ Inputs.corridor_cnf) =
            is_model m Inputs.corridor_cnf.
Proof.
  apply (encode_accumulates Inputs.corridor 1 Inputs.corridor_encoder
                            Inputs.corridor_cnf); reflexivity.
Defined.
